(** * Epicurious scraper: a shallow embedding of [src/main.js]

    The embedding follows the source function by function.  JavaScript
    values are an inductive type, record objects built by the scraper are
    finite maps from field names to values, exceptions are an error monad,
    and the crawler's handlers are state transformers over the shared
    counters, the seen-set, the request queue and the dataset. *)

From Stdlib Require Import ZArith Ascii String.
From stdpp Require Import base option list gmap strings pretty.

Local Open Scope Z_scope.
Set Warnings "-register-all,-clear-no-such-hyp".

(** ** JavaScript strings

    A string is a sequence of code units; the model keeps the code units
    below 256, one per [ascii]. *)

Module Js.

(** The code units matched by [\s] and removed by [trim()] among the first
    256: tab, line feed, vertical tab, form feed, carriage return, space and
    no-break space. *)
Definition is_space (c : ascii) : bool :=
  match nat_of_ascii c with
  | 9%nat | 10%nat | 11%nat | 12%nat | 13%nat | 32%nat | 160%nat => true
  | _ => false
  end.

(** [s.split(c)] for a one-character separator. *)
Fixpoint split (c : ascii) (s : string) : list string :=
  match s with
  | EmptyString => [EmptyString]
  | String a s' =>
      if Ascii.eqb a c then EmptyString :: split c s'
      else match split c s' with
           | [] => [String a EmptyString]
           | h :: t => String a h :: t
           end
  end.

(** [s.split(c)[0]]. *)
Definition split_head (c : ascii) (s : string) : string :=
  hd EmptyString (split c s).

(** [s.split(c).pop()]. *)
Definition split_pop (c : ascii) (s : string) : string :=
  List.last (split c s) EmptyString.

(** [s.replace(/a/g, b)] for single characters. *)
Fixpoint replace_all (a b : ascii) (s : string) : string :=
  match s with
  | EmptyString => EmptyString
  | String x s' => String (if Ascii.eqb x a then b else x) (replace_all a b s')
  end.

(** [s.replace(/\/$/, '')]: one trailing slash is removed. *)
Fixpoint strip_trailing_slash (s : string) : string :=
  match s with
  | EmptyString => EmptyString
  | String a EmptyString => if Ascii.eqb a "/" then EmptyString else s
  | String a s' => String a (strip_trailing_slash s')
  end.

(** [re.test(s)] for a regular expression that is a literal text. *)
Fixpoint includes (sub s : string) : bool :=
  String.prefix sub s ||
  match s with
  | EmptyString => false
  | String _ s' => includes sub s'
  end.

(** [s.replace(/\s+/g, ' ')]; [in_run] says that the previous code unit was
    white space, already replaced. *)
Fixpoint collapse_from (in_run : bool) (s : string) : string :=
  match s with
  | EmptyString => EmptyString
  | String a s' =>
      if is_space a
      then (if in_run then collapse_from true s'
            else String " " (collapse_from true s'))
      else String a (collapse_from false s')
  end.

Definition collapse_ws (s : string) : string := collapse_from false s.

Fixpoint trim_start (s : string) : string :=
  match s with
  | EmptyString => EmptyString
  | String a s' => if is_space a then trim_start s' else s
  end.

Fixpoint trim_end (s : string) : string :=
  match s with
  | EmptyString => EmptyString
  | String a s' =>
      match trim_end s' with
      | EmptyString => if is_space a then EmptyString else String a EmptyString
      | r => String a r
      end
  end.

(** [s.trim()]. *)
Definition trim (s : string) : string := trim_end (trim_start s).

(** [l.join(sep)] on strings. *)
Fixpoint join (sep : string) (l : list string) : string :=
  match l with
  | [] => EmptyString
  | [x] => x
  | x :: rest => x +:+ sep +:+ join sep rest
  end.

(** [[...s]] on a string: its code units, each a string. *)
Fixpoint chars (s : string) : list string :=
  match s with
  | EmptyString => []
  | String a s' => String a EmptyString :: chars s'
  end.

End Js.

(** ** JavaScript values

    The values the scraper handles are what [JSON.parse] returns, plus
    [undefined].  A number is kept as the text [String(n)] gives for it (the
    code never calculates with a parsed number: it tests it, copies it and
    prints it).  An object is the list of its properties; a property read
    takes the first entry of that name. *)

Inductive JsVal : Type :=
  | JUndefined
  | JNull
  | JBool (b : bool)
  | JNum (repr : string)
  | JStr (s : string)
  | JArr (items : list JsVal)
  | JObj (props : list (string * JsVal)).

(** Structural induction that goes into arrays and objects. *)
Section JsVal_induction.
Variable P : JsVal → Prop.
Hypothesis Hundef : P JUndefined.
Hypothesis Hnull : P JNull.
Hypothesis Hbool : ∀ b, P (JBool b).
Hypothesis Hnum : ∀ r, P (JNum r).
Hypothesis Hstr : ∀ s, P (JStr s).
Hypothesis Harr : ∀ l, Forall P l → P (JArr l).
Hypothesis Hobj : ∀ ps, Forall (λ kv, P kv.2) ps → P (JObj ps).

Fixpoint JsVal_deep_ind (v : JsVal) : P v :=
  match v with
  | JUndefined => Hundef
  | JNull => Hnull
  | JBool b => Hbool b
  | JNum r => Hnum r
  | JStr s => Hstr s
  | JArr l =>
      Harr l ((fix go (l : list JsVal) : Forall P l :=
                 match l with
                 | [] => Forall_nil_2 P
                 | x :: r => Forall_cons_2 P x r (JsVal_deep_ind x) (go r)
                 end) l)
  | JObj ps =>
      Hobj ps ((fix go (ps : list (string * JsVal)) : Forall (λ kv, P kv.2) ps :=
                  match ps with
                  | [] => Forall_nil_2 _
                  | kv :: r => Forall_cons_2 _ kv r (JsVal_deep_ind kv.2) (go r)
                  end) ps)
  end.
End JsVal_induction.

(** [Boolean(v)]. *)
Definition truthy (v : JsVal) : bool :=
  match v with
  | JUndefined | JNull => false
  | JBool b => b
  | JNum r => negb (String.eqb r "0" || String.eqb r "NaN")
  | JStr s => negb (String.eqb s "")
  | JArr _ | JObj _ => true
  end.

(** [a || b]. *)
Definition js_or (a b : JsVal) : JsVal := if truthy a then a else b.

(** [o[k]] on a value that is not [null] or [undefined]: only objects have
    the properties the scraper reads by name. *)
Fixpoint assoc (k : string) (ps : list (string * JsVal)) : JsVal :=
  match ps with
  | [] => JUndefined
  | (k', v) :: r => if String.eqb k' k then v else assoc k r
  end.

Definition get (v : JsVal) (k : string) : JsVal :=
  match v with
  | JObj ps => assoc k ps
  | _ => JUndefined
  end.

(** [Array.isArray(v)]. *)
Definition isArray (v : JsVal) : bool :=
  match v with JArr _ => true | _ => false end.

(** The text [String(v)] gives, which is also what a template literal and
    [join] apply.  An array prints its elements separated by commas, [null]
    and [undefined] ones as nothing; an object parsed from JSON prints as
    [[object Object]].  That is for an object without a [toString] property
    of its own: for one that has it, [String] throws a [TypeError], which
    this function does not say; [normalize_in] below has the exception. *)
Fixpoint to_string (v : JsVal) : string :=
  match v with
  | JUndefined => "undefined"
  | JNull => "null"
  | JBool true => "true"
  | JBool false => "false"
  | JNum r => r
  | JStr s => s
  | JArr l =>
      Js.join ","
        (map (λ x, match x with
                   | JUndefined | JNull => EmptyString
                   | _ => to_string x
                   end) l)
  | JObj _ => "[object Object]"
  end.

(** [l.join(sep)] on values. *)
Definition join_vals (sep : string) (l : list JsVal) : string :=
  Js.join sep
    (map (λ x, match x with
               | JUndefined | JNull => EmptyString
               | _ => to_string x
               end) l).

(** [arrify]: nothing for a falsy value, an array as it is, any other value
    alone. *)
Definition arrify (value : JsVal) : list JsVal :=
  if negb (truthy value) then []
  else match value with
       | JArr l => l
       | _ => [value]
       end.

(** [normalize]: [null] for a falsy value; an array is normalized element
    by element and its falsy results are dropped; any other value is
    printed, its runs of white space collapsed, and trimmed, with [null]
    for an empty result. *)
Definition normalize_text (s : string) : JsVal :=
  match Js.trim (Js.collapse_ws s) with
  | EmptyString => JNull
  | t => JStr t
  end.

Fixpoint normalize (value : JsVal) : JsVal :=
  if negb (truthy value) then JNull
  else match value with
       | JArr l => JArr (filter (λ x, truthy x = true) (map normalize l))
       | _ => normalize_text (to_string value)
       end.

(** ** Sets in insertion order

    [uniq] is [[...new Set(list.filter(Boolean))]].  A [Set] compares its
    members by SameValueZero and lists them in the order they were added.
    The operations are shared by strings and by values. *)

Class JsElem (A : Type) := {
  elem_truthy : A → bool;
  elem_same : A → A → bool;
}.

#[global] Instance string_elem : JsElem string := {|
  elem_truthy s := negb (String.eqb s "");
  elem_same := String.eqb;
|}.

(** SameValueZero.  Arrays and objects are compared by identity, which the
    value model does not keep: two of them are taken to be two objects.
    This is exact wherever each one is built afresh ([normalize] returns a
    new array at each call). *)
Definition same_value_zero (a b : JsVal) : bool :=
  match a, b with
  | JUndefined, JUndefined => true
  | JNull, JNull => true
  | JBool x, JBool y => Bool.eqb x y
  | JNum x, JNum y => String.eqb x y
  | JStr x, JStr y => String.eqb x y
  | _, _ => false
  end.

#[global] Instance value_elem : JsElem JsVal := {|
  elem_truthy := truthy;
  elem_same := same_value_zero;
|}.

Section InsertionOrderSet.
Context {A : Type} `{JsElem A}.

(** [set.has(x)] *)
Definition set_has (x : A) (set : list A) : bool := existsb (elem_same x) set.

(** [set.add(x)] *)
Definition set_add (set : list A) (x : A) : list A :=
  if set_has x set then set else set ++ [x].

(** [new Set(l)], listed. *)
Definition set_from (l : list A) : list A := fold_left set_add l [].

Definition uniq (l : list A) : list A :=
  set_from (filter (λ x, elem_truthy x = true) l).
End InsertionOrderSet.

(** ** Exceptions *)

Inductive result (A : Type) : Type :=
  | Ok (a : A)
  | Throw.
Arguments Ok {A} a.
Arguments Throw {A}.

#[global] Instance result_ret : MRet result := λ A a, Ok a.
#[global] Instance result_bind : MBind result := λ A B f r,
  match r with
  | Ok a => f a
  | Throw => Throw
  end.

(** [try { r } catch { handler }] *)
Definition try_catch {A} (r : result A) (handler : A) : A :=
  match r with
  | Ok a => a
  | Throw => handler
  end.

(** ** The platform

    [new URL(href, base).href] and [JSON.parse] belong to the JavaScript
    runtime, not to the repository: the embedding takes them as an
    interface.  Each gives [None] where the original throws.

    So does the call stack.  [call_stack] is the number of calls of the
    scraper's own functions that can be open, one inside the other, below
    [collectInstructionLines]; the engine throws a [RangeError] in the call
    that does not fit.  The frames of [forEach] and [map] are taken as part
    of the frame of their callback. *)
Class Runtime := {
  URL_href : string → string → option string;
  JSON_parse : string → option JsVal;
  call_stack : nat;
}.

Section Extraction.
Context {RT : Runtime}.

(** [toAbs]: the absolute address without its fragment, [null] when
    [href] does not resolve. *)
Definition toAbs (href base : string) : option string :=
  match URL_href href base with
  | Some h => Some (Js.split_head "#" h)
  | None => None
  end.

(** An absent [base] argument takes the default. *)
Definition toAbs_default (href : string) : option string :=
  toAbs href "https://www.epicurious.com".

(** One embedded metadata block of [parseJsonLdScripts]: [parsed] is the
    array filled so far, [raw] the text of the script element. *)
Definition ld_block (parsed : list JsVal) (raw : string) : list JsVal :=
  if String.eqb raw "" then parsed
  else match JSON_parse raw with
       | None => parsed
       | Some json =>
           match json with
           | JArr items => parsed ++ items
           | _ =>
               if truthy (get json "@graph")
               then parsed ++ arrify (get json "@graph")
               else parsed ++ [json]
           end
       end.

(** [parseJsonLdScripts], over the texts of the page's
    [script[type="application/ld+json"]] elements in document order. *)
Definition parseJsonLdScripts (scripts : list string) : list JsVal :=
  fold_left ld_block scripts [].

(** [type === name || (Array.isArray(type) && type.includes(name))] *)
Definition type_is (name : string) (type : JsVal) : bool :=
  match type with
  | JStr s => String.eqb s name
  | JArr l => existsb (same_value_zero (JStr name)) l
  | _ => false
  end.

Definition is_recipe_path (url : string) : bool :=
  Js.includes "/recipes/food/views/" url.

(** One entry of an item list: reading [entry.url] throws on [null] and
    [undefined]. *)
Definition list_entry (base : string) (urls : list string) (entry : JsVal)
    : result (list string) :=
  match entry with
  | JUndefined | JNull => Throw
  | _ =>
      let item := get entry "item" in
      let raw := js_or (get entry "url")
                       (match item with
                        | JUndefined | JNull => JUndefined
                        | _ => get item "url"
                        end) in
      match toAbs (to_string raw) base with
      | Some url =>
          if negb (String.eqb url "") && is_recipe_path url
          then Ok (urls ++ [url]) else Ok urls
      | None => Ok urls
      end
  end.

Definition list_node (base : string) (urls : list string) (node : JsVal)
    : result (list string) :=
  if negb (truthy node) then Ok urls
  else
    let type := js_or (get node "@type") (get node "type") in
    match get node "itemListElement" with
    | JArr entries =>
        if type_is "ItemList" type
        then foldl (λ acc entry, urls' ← acc; list_entry base urls' entry)
                   (Ok urls) entries
        else Ok urls
    | _ => Ok urls
    end.

(** [extractListLinks] *)
Definition extractListLinks (jsonNodes : list JsVal) (base : string)
    : result (list string) :=
  foldl (λ acc node, urls ← acc; list_node base urls node) (Ok []) jsonNodes.

(** [o.hasOwnProperty(k)] for a parsed object. *)
Definition own_property (k : string) (ps : list (string * JsVal)) : bool :=
  existsb (λ kv, String.eqb kv.1 k) ps.

(** [normalize] as [walk] calls it, with the two ways it fails there.
    [depth] calls are open when it is called: the call that does not fit
    the stack throws a [RangeError].  [String(value)] throws a [TypeError]
    for an object with a [toString] property of its own, which in a parsed
    object is not a function (and [valueOf] gives no primitive). *)
Fixpoint normalize_in (depth : nat) (value : JsVal) : result JsVal :=
  if (call_stack <? S depth)%nat then Throw
  else if negb (truthy value) then Ok JNull
  else match value with
       | JArr l =>
           items ← (fix each (l : list JsVal) : result (list JsVal) :=
                      match l with
                      | [] => Ok []
                      | x :: rest =>
                          y ← normalize_in (S depth) x;
                          ys ← each rest;
                          Ok (y :: ys)
                      end) l;
           Ok (JArr (filter (λ x, truthy x = true) items))
       | JObj ps =>
           if own_property "toString" ps then Throw
           else Ok (normalize_text (to_string value))
       | _ => Ok (normalize_text (to_string value))
       end.

(** [collectInstructionLines]: [walk depth node steps] is the array [steps]
    after [walk(node)], called with [depth] calls open.  The object case
    reads [node.itemListElement] while it goes through the properties, so
    that the recursive call is on a part of [node]. *)
Definition push_if (steps : list JsVal) (v : JsVal) : list JsVal :=
  if truthy v then steps ++ [v] else steps.

Fixpoint walk (depth : nat) (node : JsVal) (steps : list JsVal)
    : result (list JsVal) :=
  if (call_stack <? S depth)%nat then Throw
  else match node with
  | JUndefined | JNull => Ok steps
  | JBool _ | JNum _ => Ok steps
  | JArr items =>
      (fix each (items : list JsVal) (steps : list JsVal) : result (list JsVal) :=
         match items with
         | [] => Ok steps
         | child :: rest =>
             match walk (S depth) child steps with
             | Ok steps' => each rest steps'
             | Throw => Throw
             end
         end) items steps
  | JStr s =>
      if truthy node
      then clean ← normalize_in (S depth) node; Ok (push_if steps clean)
      else Ok steps
  | JObj props =>
      let text := js_or (get node "text") (get node "description") in
      match (if truthy text
             then clean ← normalize_in (S depth) text; Ok (push_if steps clean)
             else Ok steps) with
      | Throw => Throw
      | Ok steps1 =>
          (fix item_list (ps : list (string * JsVal)) : result (list JsVal) :=
             match ps with
             | [] => Ok steps1
             | (k, v) :: rest =>
                 if String.eqb k "itemListElement"
                 then (if truthy v then walk (S depth) v steps1 else Ok steps1)
                 else item_list rest
             end) props
      end
  end.

Definition collectInstructionLines (instructions : JsVal) : result (list JsVal) :=
  steps ← walk 0 instructions [];
  Ok (uniq steps).

(** [pickImage] *)
Fixpoint pickImage (image : JsVal) : JsVal :=
  match image with
  | JStr s => if truthy image then image else JNull
  | JArr items =>
      (fix first (l : list JsVal) : JsVal :=
         match l with
         | [] => JNull
         | img :: rest =>
             let candidate := pickImage img in
             if truthy candidate then candidate else first rest
         end) items
  | JObj _ => js_or (js_or (get image "url") (get image "@id")) JNull
  | _ => JNull
  end.
End Extraction.

(** ** Records

    The objects the scraper builds (partial recipes, dataset items) are
    finite maps from property names to values; a property that is not there
    reads as [undefined]. *)
Abbreviation Recipe := (gmap string JsVal).

Definition field (r : Recipe) (k : string) : JsVal := default JUndefined (r !! k).

(** [v?.[k]] *)
Definition get_opt (v : JsVal) (k : string) : JsVal :=
  match v with
  | JUndefined | JNull => JUndefined
  | _ => get v k
  end.

(** [v?.length], as a test.  Arrays and strings have a length; an object
    has one only as a property of that name. *)
Definition has_length (v : JsVal) : bool :=
  match v with
  | JArr l => negb (bool_decide (l = []))
  | JStr s => negb (String.eqb s "")
  | JObj ps => truthy (assoc "length" ps)
  | _ => false
  end.

(** [[...v]]: an array gives its elements, a string its code units; any
    other value is not iterable. *)
Definition spread (v : JsVal) : result (list JsVal) :=
  match v with
  | JArr l => Ok l
  | JStr s => Ok (map JStr (Js.chars s))
  | _ => Throw
  end.

Definition opt_str (o : option string) : JsVal :=
  match o with
  | Some s => JStr s
  | None => JUndefined
  end.

(** What the scraper reads from a fetched document: the outcome of each
    selector query of [main.js], in document order.  A text is [""] and an
    attribute [None] when nothing matches. *)
Record Page := {
  ld_json_scripts : list string;
  recipe_anchor_hrefs : list (option string);
  rel_next_href : option string;
  aria_next_href : option string;
  button_next_href : option string;
  anchors : list (string * option string);
  h1_text : string;
  headline_text : string;
  rel_author_text : string;
  byline_text : string;
  dek_text : string;
  meta_description : option string;
  servings_text : string;
  meta_recipe_yield : option string;
  ingredient_texts : list string;
  instruction_texts : list string;
  prep_time_itemprop : string;
  prep_time_text : string;
  cook_time_itemprop : string;
  cook_time_text : string;
  total_time_itemprop : string;
  total_time_text : string;
  og_image : option string;
  recipe_img_src : option string;
  tag_texts : list string;
}.

Section Recipes.
Context {RT : Runtime}.

(** The [author] argument of [normalize] in [extractRecipeFromJsonLd];
    reading [a.name] throws when an element of the array is [null]. *)
Definition author_of (author : JsVal) : result JsVal :=
  match author with
  | JArr l =>
      names ← foldl (λ acc a,
                 done ← acc;
                 match a with
                 | JNull => Throw
                 | JArr _ | JObj _ => Ok (done ++ [get a "name"])
                 | _ => Ok (done ++ [a])
                 end) (Ok []) l;
      Ok (JStr (join_vals ", " names))
  | JObj _ | JNull => Ok (get_opt author "name")
  | _ => Ok author
  end.

Definition keywords_of (keywords : JsVal) : list JsVal :=
  if truthy keywords
  then match keywords with
       | JArr l => l
       | _ => map JStr (Js.split "," (to_string keywords))
       end
  else [].

(** The object [extractRecipeFromJsonLd] returns for a recipe node.  An
    exception of [collectInstructionLines] or of the [author] expression
    ends it. *)
Definition recipe_of_item (item : JsVal) : result Recipe :=
  let keywords := keywords_of (get item "keywords") in
  instructions ← collectInstructionLines (get item "recipeInstructions");
  let ingredients :=
    filter (λ x, truthy x = true) (map normalize (arrify (get item "recipeIngredient"))) in
  let rating := get item "aggregateRating" in
  author ← author_of (get item "author");
  Ok (list_to_map
    [ ("title", normalize (get item "name"));
      ("author", normalize author);
      ("description", normalize (get item "description"));
      ("prep_time", normalize (get item "prepTime"));
      ("cook_time", normalize (get item "cookTime"));
      ("total_time", normalize (get item "totalTime"));
      ("servings", normalize (get item "recipeYield"));
      ("ingredients", JArr ingredients);
      ("instructions", JArr instructions);
      ("tags", JArr (filter (λ x, truthy x = true)
          (uniq (map normalize (arrify (get item "recipeCuisine"))
                 ++ map normalize (arrify (get item "recipeCategory"))
                 ++ map normalize keywords))));
      ("image_url", pickImage (get item "image"));
      ("cuisine", normalize (hd JUndefined (arrify (get item "recipeCuisine"))));
      ("category", normalize (hd JUndefined (arrify (get item "recipeCategory"))));
      ("difficulty",
         if truthy (get_opt rating "ratingValue")
         then JStr ("Rated " +:+ to_string (get_opt rating "ratingValue"))
         else JNull);
      ("date_published", normalize (get item "datePublished"));
      ("rating_value", js_or (get_opt rating "ratingValue") JNull);
      ("rating_count",
         js_or (js_or (get_opt rating "ratingCount") (get_opt rating "reviewCount")) JNull);
      ("rating_best", js_or (get_opt rating "bestRating") JNull);
      ("rating_worst", js_or (get_opt rating "worstRating") JNull);
      ("nutrition", js_or (get item "nutrition") JNull) ]).

Definition is_recipe (item : JsVal) : bool :=
  type_is "Recipe" (js_or (get_opt item "@type") (get_opt item "type")).

(** The inner loop of [extractRecipeFromJsonLd]: the first recipe among
    [possible], if any. *)
Fixpoint first_recipe (possible : list JsVal) : result (option Recipe) :=
  match possible with
  | [] => Ok None
  | item :: rest =>
      if is_recipe item then r ← recipe_of_item item; Ok (Some r)
      else first_recipe rest
  end.

(** [extractRecipeFromJsonLd]; [None] is [null]. *)
Fixpoint extractRecipeFromJsonLd (jsonNodes : list JsVal) : result (option Recipe) :=
  match jsonNodes with
  | [] => Ok None
  | node :: rest =>
      if negb (truthy node) then extractRecipeFromJsonLd rest
      else
        found ← first_recipe (match node with JArr l => l | _ => [node] end);
        match found with
        | Some r => Ok (Some r)
        | None => extractRecipeFromJsonLd rest
        end
  end.

(** The texts of the matched elements, normalized, the empty ones left
    out. *)
Definition collect_texts (texts : list string) : list JsVal :=
  fold_left (λ acc t, push_if acc (normalize (JStr t))) texts [].

(** [parseHtmlRecipe] *)
Definition parseHtmlRecipe (page : Page) : Recipe :=
  let text t := normalize (JStr t) in
  let attr a := normalize (opt_str a) in
  list_to_map
    [ ("title", js_or (text (h1_text page)) (text (headline_text page)));
      ("author", js_or (text (rel_author_text page)) (text (byline_text page)));
      ("description", js_or (text (dek_text page)) (attr (meta_description page)));
      ("prep_time", js_or (text (prep_time_itemprop page)) (text (prep_time_text page)));
      ("cook_time", js_or (text (cook_time_itemprop page)) (text (cook_time_text page)));
      ("total_time", js_or (text (total_time_itemprop page)) (text (total_time_text page)));
      ("servings", js_or (text (servings_text page)) (attr (meta_recipe_yield page)));
      ("ingredients", JArr (uniq (collect_texts (ingredient_texts page))));
      ("instructions", JArr (uniq (collect_texts (instruction_texts page))));
      ("image_url",
         js_or (js_or (opt_str (og_image page)) (opt_str (recipe_img_src page))) JNull);
      ("tags", JArr (uniq (collect_texts (tag_texts page)))) ].

(** The scalar fields [mergeRecipe] goes through, in its order. *)
Definition merge_fields : list string :=
  [ "title"; "author"; "description"; "prep_time"; "cook_time"; "total_time";
    "servings"; "image_url"; "cuisine"; "category"; "difficulty";
    "date_published"; "rating_value"; "rating_count"; "rating_best";
    "rating_worst" ].

(** [if (!merged[field] && extra[field]) merged[field] = extra[field]] *)
Definition merge_scalar (extra merged : Recipe) (name : string) : Recipe :=
  if negb (truthy (field merged name)) && truthy (field extra name)
  then <[name := field extra name]> merged
  else merged.

(** [if (extra[name]?.length) merged[name] = uniq([...(merged[name] || []),
    ...extra[name]])] *)
Definition merge_list (extra : Recipe) (name : string) (merged : Recipe)
    : result Recipe :=
  if has_length (field extra name)
  then
    mine ← spread (js_or (field merged name) (JArr []));
    theirs ← spread (field extra name);
    Ok (<[name := JArr (uniq (mine ++ theirs))]> merged)
  else Ok merged.

(** [mergeRecipe]; [None] stands for a [null] or [undefined] argument. *)
Definition mergeRecipe (base extra : option Recipe) : result Recipe :=
  match extra with
  | None => Ok (default ∅ base)
  | Some extra =>
      let merged := foldl (merge_scalar extra) (default ∅ base) merge_fields in
      merged ← merge_list extra "ingredients" merged;
      merged ← merge_list extra "instructions" merged;
      merged ← merge_list extra "tags" merged;
      Ok (if truthy (field extra "nutrition") && negb (truthy (field merged "nutrition"))
          then <["nutrition" := field extra "nutrition"]> merged
          else merged)
  end.

(** [hasCoreRecipeData] *)
Definition hasCoreRecipeData (recipe : Recipe) : bool :=
  truthy (field recipe "title")
  && has_length (field recipe "ingredients")
  && has_length (field recipe "instructions").

(** [buildAlternateDetailUrls] *)
Definition buildAlternateDetailUrls (url : string) : list string :=
  let cleaned := Js.strip_trailing_slash (Js.split_head "?" url) in
  let alternates :=
    [ cleaned; cleaned +:+ "?output=1"; cleaned +:+ "?page=all"; cleaned +:+ "/amp" ] in
  uniq alternates.
End Recipes.

(** ** The crawl

    [main] reads the input, then runs the crawler, whose handlers share the
    counter [saved] and the set [seenUrls]. *)

(** A numeric input after [+raw]: absent, a finite number (the model keeps
    the integers, which is what the input schema asks for), or not finite. *)
Inductive NumInput : Type :=
  | NumUndefined
  | NumFinite (n : Z)
  | NumNotFinite.

Record Input := {
  startUrl : string;
  recipeType : string;
  results_wanted : NumInput;
  max_pages : NumInput;
  collectDetails_raw : option bool;
  dedupe : bool;
}.

Definition MAX_SAFE_INTEGER : Z := 2 ^ 53 - 1.

Definition RESULTS_WANTED (input : Input) : Z :=
  match results_wanted input with
  | NumUndefined => Z.max 1 50
  | NumFinite n => Z.max 1 n
  | NumNotFinite => MAX_SAFE_INTEGER
  end.

Definition MAX_PAGES (input : Input) : Z :=
  match max_pages input with
  | NumUndefined => Z.max 1 10
  | NumFinite n => Z.max 1 n
  | NumNotFinite => 10
  end.

Definition collectDetails (input : Input) : bool :=
  default true (collectDetails_raw input).

(** A request with its [userData]. *)
Record Request := {
  url : string;
  label : option string;
  pageNo : option Z;
}.

(** A handler suspended at an [await], with what it does when it resumes:
    the listing handler goes on to pagination, after adding the number of
    records it pushed to [saved] on the path that pushes; the detail handler
    counts its record. *)
Inductive Cont : Type :=
  | AfterEnqueueDetails (request : Request) (page : Page)
  | AfterPushUrls (pushed : Z) (request : Request) (page : Page)
  | AfterPushRecipe.

Record World := {
  saved : Z;
  seenUrls : option (gset string);
  queue : list Request;
  dataset : list Recipe;
  suspended : list Cont;
  listing_log : list Z;
}.

Definition set_saved (n : Z) (w : World) : World :=
  {| saved := n; seenUrls := seenUrls w; queue := queue w; dataset := dataset w;
     suspended := suspended w; listing_log := listing_log w |}.
Definition set_seenUrls (s : option (gset string)) (w : World) : World :=
  {| saved := saved w; seenUrls := s; queue := queue w; dataset := dataset w;
     suspended := suspended w; listing_log := listing_log w |}.
Definition set_queue (q : list Request) (w : World) : World :=
  {| saved := saved w; seenUrls := seenUrls w; queue := q; dataset := dataset w;
     suspended := suspended w; listing_log := listing_log w |}.
Definition set_dataset (d : list Recipe) (w : World) : World :=
  {| saved := saved w; seenUrls := seenUrls w; queue := queue w; dataset := d;
     suspended := suspended w; listing_log := listing_log w |}.
Definition set_suspended (k : list Cont) (w : World) : World :=
  {| saved := saved w; seenUrls := seenUrls w; queue := queue w; dataset := dataset w;
     suspended := k; listing_log := listing_log w |}.
Definition set_listing_log (l : list Z) (w : World) : World :=
  {| saved := saved w; seenUrls := seenUrls w; queue := queue w; dataset := dataset w;
     suspended := suspended w; listing_log := l |}.

(** The answer of [gotScraping] for an alternate address: it throws, or it
    gives a status and a body, [None] for an empty one. *)
Inductive AltResponse : Type :=
  | AltThrows
  | AltResponds (statusCode : Z) (body : option Page).

(** The site and the clock, as the crawl meets them. *)
Record Site := {
  document : string → option Page;
  gotScraping : string → AltResponse;
  now : string;
}.

(** [arr.slice(0, end)] for an integer [end]: a negative one counts from the
    end of the array. *)
Definition slice0 {A} (l : list A) (e : Z) : list A :=
  if e <? 0 then take (Z.to_nat (Z.of_nat (length l) + e)) l
  else take (Z.to_nat e) l.

(** ASCII lower case, for a case-insensitive match. *)
Definition lower (c : ascii) : ascii :=
  let n := nat_of_ascii c in
  if (65 <=? n)%nat && (n <=? 90)%nat then ascii_of_nat (n + 32) else c.

Fixpoint lower_string (s : string) : string :=
  match s with
  | EmptyString => EmptyString
  | String a s' => String (lower a) (lower_string s')
  end.

(** [/^(next|>|\u00bb)$/i.test(text.trim())] *)
Definition is_next_text (text : string) : bool :=
  let t := lower_string (Js.trim text) in
  String.eqb t "next" || String.eqb t ">"
  || String.eqb t (String (ascii_of_nat 187) EmptyString).

(** The title made from the last segment of an address. *)
Definition slug_title (u : string) : JsVal :=
  normalize (JStr (Js.replace_all "-" " " (Js.split_pop "/" u))).

(** [v.length] as a value. *)
Definition length_of (v : JsVal) : JsVal :=
  match v with
  | JArr l => JNum (pretty (length l))
  | JStr s => JNum (pretty (String.length s))
  | JObj ps => assoc "length" ps
  | _ => JUndefined
  end.

Section Crawl.
Context {RT : Runtime} (input : Input) (site : Site).

(** One anchor of [findRecipeLinks]: [urls] is the local set, [seen] the
    shared one. *)
Definition recipe_link (base : string)
    (st : list string * option (gset string)) (href : option string)
    : list string * option (gset string) :=
  let '(urls, seen) := st in
  match href with
  | None => st
  | Some href =>
      if String.eqb href "" then st
      else match toAbs href base with
           | None => st
           | Some abs =>
               if String.eqb abs "" then st
               else if is_recipe_path abs
               then
                 let clean := Js.split_head "?" abs in
                 match seen with
                 | None => (set_add urls clean, None)
                 | Some seenSet =>
                     if bool_decide (clean ∈ seenSet) then st
                     else (set_add urls clean, Some ({[clean]} ∪ seenSet))
                 end
               else st
           end
  end.

Definition findRecipeLinks (page : Page) (base : string) (seen : option (gset string))
    : list string * option (gset string) :=
  fold_left (recipe_link base) (recipe_anchor_hrefs page) ([], seen).

Definition first_some_text (o : option string) : option string :=
  match o with
  | Some s => if String.eqb s "" then None else Some s
  | None => None
  end.

(** [findNextPage] *)
Definition findNextPage (page : Page) (base : string) : option string :=
  match first_some_text (rel_next_href page) with
  | Some rel => toAbs rel base
  | None =>
      match first_some_text
              (match first_some_text (aria_next_href page) with
               | Some a => Some a
               | None => button_next_href page
               end) with
      | Some aria => toAbs aria base
      | None =>
          match filter (λ a, is_next_text a.1 = true) (anchors page) with
          | (_, href) :: _ =>
              match first_some_text href with
              | Some textNext => toAbs textNext base
              | None => None
              end
          | [] => None
          end
      end
  end.

Definition page_number (request : Request) : Z :=
  match pageNo request with
  | Some n => if n =? 0 then 1 else n
  | None => 1
  end.

Definition request_label (request : Request) : string :=
  match label request with
  | Some l => if String.eqb l "" then "LIST" else l
  | None => "LIST"
  end.

(** The end of the listing handler: the next listing page is put on the
    queue when the budget is not met and the page number is below the
    limit. *)
Definition paginate (request : Request) (page : Page) (w : World) : World :=
  if (saved w <? RESULTS_WANTED input) && (page_number request <? MAX_PAGES input)
  then match findNextPage page (url request) with
       | Some nextUrl =>
           if String.eqb nextUrl "" then w
           else set_queue (queue w ++
                  [ {| url := nextUrl; label := Some "LIST";
                       pageNo := Some (page_number request + 1) |} ]) w
       | None => w
       end
  else w.

Definition minimal_record (u : string) : Recipe :=
  list_to_map
    [ ("title", js_or (slug_title u) (JStr "Recipe"));
      ("url", JStr u);
      ("recipe_type", JStr (recipeType input));
      ("_source", JStr "epicurious.com") ].

(** The listing handler up to its first [await]; an exception of
    [extractListLinks] ends the handler. *)
Definition list_handler (request : Request) (page : Page) (w : World) : World :=
  let w := set_listing_log (listing_log w ++ [page_number request]) w in
  let ldNodes := parseJsonLdScripts (ld_json_scripts page) in
  match extractListLinks ldNodes (url request) with
  | Throw => w
  | Ok jsonLinks =>
      let '(htmlLinks, seen) := findRecipeLinks page (url request) (seenUrls w) in
      let w := set_seenUrls seen w in
      let combined := uniq (jsonLinks ++ htmlLinks) in
      let remaining := RESULTS_WANTED input - saved w in
      let limited :=
        if remaining <? Z.of_nat (length combined)
        then slice0 combined remaining else combined in
      match limited with
      | [] => paginate request page w
      | _ =>
          if collectDetails input
          then
            set_suspended (suspended w ++ [AfterEnqueueDetails request page])
              (set_queue (queue w ++
                 map (λ u, {| url := u; label := Some "DETAIL"; pageNo := None |})
                     limited) w)
          else
            set_suspended
              (suspended w ++ [AfterPushUrls (Z.of_nat (length limited)) request page])
              (set_dataset (dataset w ++ map minimal_record limited) w)
      end
  end.

(** The loop over the alternate addresses. *)
Fixpoint try_alternates (altCandidates : list string) (recipe : Recipe) : Recipe :=
  match altCandidates with
  | [] => recipe
  | altUrl :: rest =>
      match gotScraping site altUrl with
      | AltResponds statusCode (Some alt) =>
          if (200 <=? statusCode) && (statusCode <? 400)
          then
            match
              (found ← extractRecipeFromJsonLd (parseJsonLdScripts (ld_json_scripts alt));
               altRecipe ← mergeRecipe found (Some (parseHtmlRecipe alt));
               mergeRecipe (Some recipe) (Some altRecipe))
            with
            | Ok recipe' =>
                if hasCoreRecipeData recipe' then recipe'
                else try_alternates rest recipe'
            | Throw => try_alternates rest recipe
            end
          else try_alternates rest recipe
      | _ => try_alternates rest recipe
      end
  end.

Definition or_null (v : JsVal) : JsVal := js_or v JNull.

(** The body of the detail handler's [try], up to the item it pushes. *)
Definition detail_item (request : Request) (page : Page) : result Recipe :=
  found ← extractRecipeFromJsonLd (parseJsonLdScripts (ld_json_scripts page));
  recipe ← mergeRecipe (Some (default ∅ found)) (Some (parseHtmlRecipe page));
  let recipe :=
    if hasCoreRecipeData recipe then recipe
    else try_alternates (buildAlternateDetailUrls (url request)) recipe in
  let recipe :=
    if negb (truthy (field recipe "title"))
    then <["title" := js_or (slug_title (url request)) (JStr "Untitled Recipe")]> recipe
    else recipe in
  joined ←
    match field recipe "instructions" with
    | JUndefined | JNull => Ok JUndefined
    | JArr l => Ok (JStr (join_vals " | " l))
    | _ => Throw
    end;
  Ok (list_to_map
    [ ("title", field recipe "title");
      ("author", or_null (field recipe "author"));
      ("description", or_null (field recipe "description"));
      ("recipe_type", JStr (recipeType input));
      ("ingredients", js_or (field recipe "ingredients") (JArr []));
      ("ingredients_count",
         if truthy (field recipe "ingredients")
         then length_of (field recipe "ingredients") else JNum "0");
      ("instructions", or_null joined);
      ("instructions_list", js_or (field recipe "instructions") (JArr []));
      ("prep_time", or_null (field recipe "prep_time"));
      ("cook_time", or_null (field recipe "cook_time"));
      ("total_time", or_null (field recipe "total_time"));
      ("servings", or_null (field recipe "servings"));
      ("difficulty", or_null (field recipe "difficulty"));
      ("cuisine", or_null (field recipe "cuisine"));
      ("category", or_null (field recipe "category"));
      ("tags", js_or (field recipe "tags") (JArr []));
      ("image_url", or_null (field recipe "image_url"));
      ("date_published", or_null (field recipe "date_published"));
      ("rating_value", or_null (field recipe "rating_value"));
      ("rating_count", or_null (field recipe "rating_count"));
      ("rating_best", or_null (field recipe "rating_best"));
      ("rating_worst", or_null (field recipe "rating_worst"));
      ("nutrition", or_null (field recipe "nutrition"));
      ("url", JStr (url request));
      ("scraped_at", JStr (now site));
      ("_source", JStr "epicurious.com") ]).

(** The detail handler up to [await Dataset.pushData(item)].  The awaits
    of the alternate fetches lie between the guard and the push; the
    handler reads and writes no shared state there, so the model runs
    them within this one segment. *)
Definition detail_handler (request : Request) (page : Page) (w : World) : World :=
  if RESULTS_WANTED input <=? saved w then w
  else match detail_item request page with
       | Ok item =>
           set_suspended (suspended w ++ [AfterPushRecipe])
             (set_dataset (dataset w ++ [item]) w)
       | Throw => w
       end.

(** [requestHandler], from its start to its first [await] or its end. *)
Definition requestHandler (request : Request) (page : Page) (w : World) : World :=
  if String.eqb (request_label request) "LIST" then list_handler request page w
  else if String.eqb (request_label request) "DETAIL" then detail_handler request page w
  else w.

(** A suspended handler goes on. *)
Definition resume (k : Cont) (w : World) : World :=
  match k with
  | AfterEnqueueDetails request page => paginate request page w
  | AfterPushUrls pushed request page =>
      paginate request page (set_saved (saved w + pushed) w)
  | AfterPushRecipe => set_saved (saved w + 1) w
  end.

(** The crawler takes a request from the queue, loads its document and
    calls the handler; a request whose document cannot be loaded never
    reaches the handler. *)
Definition start (request : Request) (w : World) : World :=
  match document site (url request) with
  | Some page => requestHandler request page w
  | None => w
  end.

(** What happens next is the crawler's choice: it starts the i-th queued
    request or resumes the j-th suspended handler. *)
Inductive Choice : Type :=
  | Start (i : nat)
  | Resume (j : nat).

Definition step_with (c : Choice) (w : World) : option World :=
  match c with
  | Start i =>
      request ← queue w !! i;
      Some (start request (set_queue (delete i (queue w)) w))
  | Resume j =>
      k ← suspended w !! j;
      Some (resume k (set_suspended (delete j (suspended w)) w))
  end.

Inductive step : World → World → Prop :=
  | step_choice c w w' : step_with c w = Some w' → step w w'.

(** [crawler.run([{ url: startUrl, userData: { label: 'LIST', pageNo: 1 } }])] *)
Definition initial : World :=
  {| saved := 0;
     seenUrls := if dedupe input then Some ∅ else None;
     queue := [ {| url := startUrl input; label := Some "LIST"; pageNo := Some 1 |} ];
     dataset := [];
     suspended := [];
     listing_log := [] |}.

Definition reachable (w : World) : Prop := rtc step initial w.

(** A run under a given schedule; a choice that names nothing is skipped. *)
Definition run (schedule : list Choice) (w : World) : World :=
  fold_left (λ w c, default w (step_with c w)) schedule w.
End Crawl.

(** * Properties *)

(** ** Insertion-order sets *)

Section InsertionOrderSetOrder.
Context {A : Type} `{JsElem A}.

(** No member is the same as an earlier one. *)
Definition distinct_members (set : list A) : Prop :=
  ∀ i j x y, set !! i = Some x → set !! j = Some y → (i < j)%nat →
    elem_same y x = false.

Lemma set_add_cases (set : list A) (x : A) :
  (set_has x set = true ∧ set_add set x = set)
  ∨ (set_has x set = false ∧ set_add set x = set ++ [x]).
Proof. unfold set_add. destruct (set_has x set); auto. Qed.

Lemma set_has_false (x : A) (set : list A) (i : nat) (y : A) :
  set_has x set = false → set !! i = Some y → elem_same x y = false.
Proof.
  unfold set_has. intros Hno Hy.
  destruct (elem_same x y) eqn:E; [|done].
  assert (existsb (elem_same x) set = true); [|congruence].
  apply existsb_exists. exists y. split; [|done].
  apply list_elem_of_In. by eapply list_elem_of_lookup_2.
Qed.

Lemma set_add_distinct (set : list A) (x : A) :
  distinct_members set → distinct_members (set_add set x).
Proof.
  intros Hd. destruct (set_add_cases set x) as [[_ ->]|[Hno ->]]; [done|].
  intros i j a b Ha Hb Hij.
  destruct (decide (j < length set)%nat) as [Hj|Hj].
  - rewrite lookup_app_l in Ha, Hb by lia. eauto.
  - rewrite lookup_app_r in Hb by lia.
    destruct (j - length set)%nat eqn:Hk; [|done]. simpl in Hb.
    injection Hb as <-.
    rewrite lookup_app_l in Ha by lia. by eapply set_has_false.
Qed.

Lemma set_add_prefix (set : list A) (x : A) : set `prefix_of` set_add set x.
Proof.
  destruct (set_add_cases set x) as [[_ ->]|[_ ->]]; [done|].
  by apply prefix_app_r.
Qed.

Lemma add_all_distinct (l set : list A) :
  distinct_members set → distinct_members (fold_left set_add l set).
Proof.
  revert set. induction l as [|x l IH]; intros set Hd; simpl; [done|].
  by apply IH, set_add_distinct.
Qed.

Lemma add_all_prefix (l set : list A) : set `prefix_of` fold_left set_add l set.
Proof.
  revert set. induction l as [|x l IH]; intros set; simpl; [done|].
  etrans; [apply set_add_prefix | apply IH].
Qed.

(** What is added comes from [l], in the order of [l]. *)
Lemma add_all_sublist (l set : list A) :
  ∃ added, fold_left set_add l set = set ++ added ∧ added `sublist_of` l.
Proof.
  revert set. induction l as [|x l IH]; intros set; simpl.
  - exists []. by rewrite app_nil_r.
  - destruct (set_add_cases set x) as [[_ ->]|[_ ->]].
    + destruct (IH set) as (added & -> & Hsub).
      exists added. split; [done|]. by apply sublist_cons.
    + destruct (IH (set ++ [x])) as (added & -> & Hsub).
      exists (x :: added). rewrite <- (assoc_L (++)). split; [done|].
      by apply sublist_skip.
Qed.

Lemma set_from_distinct (l : list A) : distinct_members (set_from l).
Proof. apply add_all_distinct. intros i j x y Hx. by rewrite lookup_nil in Hx. Qed.

Lemma set_from_sublist (l : list A) : set_from l `sublist_of` l.
Proof.
  unfold set_from. by destruct (add_all_sublist l []) as (added & -> & Hsub).
Qed.

Lemma uniq_distinct (l : list A) : distinct_members (uniq l).
Proof. apply set_from_distinct. Qed.

Lemma uniq_sublist (l : list A) : uniq l `sublist_of` l.
Proof.
  unfold uniq. etrans; [apply set_from_sublist | apply sublist_filter].
Qed.

Lemma set_from_app (l1 l2 : list A) :
  set_from (l1 ++ l2) = fold_left set_add l2 (set_from l1).
Proof. unfold set_from. by rewrite fold_left_app. Qed.
End InsertionOrderSetOrder.

Section InsertionOrderSetFacts.
Context {A : Type} `{JsElem A}.
Hypothesis same_eq : ∀ x y : A, elem_same x y = true ↔ x = y.

Lemma set_has_elem_of (x : A) (set : list A) : set_has x set = true ↔ x ∈ set.
Proof.
  unfold set_has. rewrite existsb_exists. split.
  - intros (y & Hy & Hs). apply same_eq in Hs. subst.
    by apply list_elem_of_In.
  - intros Hx. exists x. split; [by apply list_elem_of_In | by apply same_eq].
Qed.

Lemma set_has_cases (x : A) (set : list A) : x ∈ set ∨ x ∉ set.
Proof.
  destruct (set_has x set) eqn:E.
  - left. by apply set_has_elem_of.
  - right. intros Hx. apply set_has_elem_of in Hx. congruence.
Qed.

Lemma set_add_old (set : list A) (x : A) : x ∈ set → set_add set x = set.
Proof.
  intros Hx. unfold set_add.
  by rewrite (proj2 (set_has_elem_of x set) Hx).
Qed.

Lemma set_add_new (set : list A) (x : A) : x ∉ set → set_add set x = set ++ [x].
Proof.
  intros Hx. unfold set_add.
  destruct (set_has x set) eqn:E; [|done].
  by apply set_has_elem_of in E.
Qed.

Lemma set_add_elem_of (set : list A) (x y : A) :
  y ∈ set_add set x ↔ y ∈ set ∨ y = x.
Proof.
  destruct (set_has_cases x set) as [Hin|Hout].
  - rewrite set_add_old by done. naive_solver.
  - rewrite set_add_new by done. set_solver.
Qed.

Lemma set_add_NoDup (set : list A) (x : A) : NoDup set → NoDup (set_add set x).
Proof.
  intros Hnd. destruct (set_has_cases x set) as [Hin|Hout].
  - by rewrite set_add_old.
  - rewrite set_add_new by done. apply NoDup_app. set_solver by eauto using NoDup_singleton.
Qed.

(** Adding the elements of [l] to a set. *)
Lemma add_all_elem_of (l set : list A) (y : A) :
  y ∈ fold_left set_add l set ↔ y ∈ set ∨ y ∈ l.
Proof.
  revert set. induction l as [|x l IH]; intros set; simpl.
  - set_solver.
  - rewrite IH, set_add_elem_of. set_solver.
Qed.

Lemma add_all_NoDup (l set : list A) : NoDup set → NoDup (fold_left set_add l set).
Proof.
  revert set. induction l as [|x l IH]; intros set Hnd; simpl; [done|].
  by apply IH, set_add_NoDup.
Qed.

Lemma add_all_fixed (l set : list A) :
  NoDup (set ++ l) → fold_left set_add l set = set ++ l.
Proof.
  revert set. induction l as [|x l IH]; intros set Hnd; simpl.
  - by rewrite app_nil_r.
  - assert (x ∉ set) as Hx.
    { apply NoDup_app in Hnd as (_ & Hd & _). intros Hin. apply (Hd x Hin). set_solver. }
    rewrite set_add_new by done.
    rewrite IH; rewrite <- (assoc_L (++)); done.
Qed.

Lemma add_all_absorb (l set : list A) :
  (∀ x, x ∈ l → x ∈ set) → fold_left set_add l set = set.
Proof.
  revert set. induction l as [|x l IH]; intros set Hin; simpl; [done|].
  rewrite set_add_old by set_solver. apply IH. set_solver.
Qed.

Lemma set_from_NoDup (l : list A) : NoDup (set_from l).
Proof. apply add_all_NoDup. constructor. Qed.

Lemma set_from_elem_of (l : list A) (y : A) : y ∈ set_from l ↔ y ∈ l.
Proof. unfold set_from. rewrite add_all_elem_of. set_solver. Qed.

Lemma set_from_fixed (l : list A) : NoDup l → set_from l = l.
Proof. intros Hnd. unfold set_from. by rewrite add_all_fixed. Qed.

Lemma set_from_twice (l : list A) : NoDup l → set_from (l ++ l) = l.
Proof.
  intros Hnd. rewrite set_from_app, set_from_fixed by done.
  by apply add_all_absorb.
Qed.
End InsertionOrderSetFacts.

(** ** Strings *)

Lemma string_same_eq (x y : string) : elem_same x y = true ↔ x = y.
Proof. apply String.eqb_eq. Qed.

Lemma append_nil_r (s : string) : s +:+ "" = s.
Proof.
  induction s as [|a s IH]; [done|].
  unfold String.append; fold String.append. by rewrite IH.
Qed.

Lemma append_inj_r (c x y : string) : c +:+ x = c +:+ y → x = y.
Proof.
  induction c as [|a c IH]; unfold String.append; fold String.append; [done|].
  intros [= Heq]. auto.
Qed.

Lemma append_self_r (c x : string) : c +:+ x = c → x = "".
Proof. intros Heq. apply (append_inj_r c). by rewrite append_nil_r. Qed.

Lemma append_nonempty_r (c x : string) : x ≠ "" → c +:+ x ≠ "".
Proof.
  intros Hx. destruct c; unfold String.append; fold String.append;
    [done | discriminate].
Qed.

Lemma eqb_string_false (x y : string) : x ≠ y → String.eqb x y = false.
Proof. intros Hne. by apply String.eqb_neq. Qed.

(** ** The alternate addresses *)


(** ** Embedded metadata blocks *)

Section MetadataBlocks.
Context {RT : Runtime}.

(** The nodes of one parsed block, in the words of the specification: an
    array is flattened into its elements, a graph container into the
    members of its graph, any other value is a node by itself. *)
Definition nodes_of_block (json : JsVal) : list JsVal :=
  match json with
  | JArr items => items
  | _ => if truthy (get json "@graph") then arrify (get json "@graph") else [json]
  end.

(** A block is parseable when it has a text that [JSON.parse] accepts. *)
Definition parse_block (raw : string) : option JsVal :=
  if String.eqb raw "" then None else JSON_parse raw.

Lemma ld_block_nodes (parsed : list JsVal) (raw : string) :
  ld_block parsed raw = parsed ++ from_option nodes_of_block [] (parse_block raw).
Proof.
  unfold ld_block, parse_block.
  destruct (String.eqb raw ""); simpl; [by rewrite app_nil_r|].
  destruct (JSON_parse raw) as [json|]; simpl; [|by rewrite app_nil_r].
  destruct json; simpl; try done; by destruct (truthy _).
Qed.

Lemma fold_ld_block (scripts : list string) (parsed : list JsVal) :
  fold_left ld_block scripts parsed
  = parsed ++ concat (map nodes_of_block (omap parse_block scripts)).
Proof.
  revert parsed. induction scripts as [|raw scripts IH]; intros parsed; simpl.
  - by rewrite app_nil_r.
  - rewrite IH, ld_block_nodes.
    destruct (parse_block raw); simpl; by rewrite <- (assoc_L (++)).
Qed.

End MetadataBlocks.

(** ** Normalized texts *)

(** White space occurs in [s] only as single spaces; [prev] says that a
    white space stands just before [s]. *)
Fixpoint single_spaced (prev : bool) (s : string) : bool :=
  match s with
  | EmptyString => true
  | String a s' =>
      if Js.is_space a
      then negb prev && Ascii.eqb a " " && single_spaced true s'
      else single_spaced false s'
  end.

(** The same, for a text that also does not end in white space. *)
Fixpoint spaced_to_end (prev : bool) (s : string) : bool :=
  match s with
  | EmptyString => negb prev
  | String a s' =>
      if Js.is_space a
      then negb prev && Ascii.eqb a " " && spaced_to_end true s'
      else spaced_to_end false s'
  end.

(** A normalized text is not empty, has no white space at either end, and
    inside only single spaces. *)
Definition normalized_text (s : string) : Prop := spaced_to_end true s = true.

Lemma normalized_text_nonempty (s : string) : normalized_text s → s ≠ "".
Proof. by intros Hs ->. Qed.

Lemma collapse_from_single_spaced (b : bool) (s : string) :
  single_spaced b (Js.collapse_from b s) = true.
Proof.
  revert b. induction s as [|a s IH]; intros b; simpl; [done|].
  destruct (Js.is_space a) eqn:Ha.
  - destruct b; simpl; [apply IH|].
    change (Js.is_space " ") with true. simpl. apply IH.
  - simpl. rewrite Ha. apply IH.
Qed.

Lemma trim_start_single_spaced (b : bool) (s : string) :
  single_spaced b s = true → single_spaced true (Js.trim_start s) = true.
Proof.
  revert b. induction s as [|a s IH]; intros b; simpl; [done|].
  destruct (Js.is_space a) eqn:Ha.
  - rewrite !andb_true_iff. intros [_ Hs]. by eapply IH.
  - simpl. by rewrite Ha.
Qed.

Lemma trim_end_spaced (b : bool) (s : string) :
  single_spaced b s = true →
  Js.trim_end s = "" ∨ spaced_to_end b (Js.trim_end s) = true.
Proof.
  revert b. induction s as [|a s IH]; intros b; simpl; [by left|].
  destruct (Js.is_space a) eqn:Ha.
  - rewrite !andb_true_iff. intros [[Hb Hsp] Hs].
    destruct (IH true Hs) as [->|Hr]; [by left|].
    destruct (Js.trim_end s) as [|c r] eqn:Hte; [by left|].
    right. simpl in *. rewrite Ha, Hb, Hsp. done.
  - intros Hs. destruct (IH false Hs) as [->|Hr].
    + right. simpl. by rewrite Ha.
    + destruct (Js.trim_end s) as [|c r] eqn:Hte.
      * right. simpl. by rewrite Ha.
      * right. simpl in *. by rewrite Ha.
Qed.

Lemma normalize_text_cases (s : string) :
  normalize_text s = JNull ∨ ∃ t, normalize_text s = JStr t ∧ normalized_text t.
Proof.
  unfold normalize_text, Js.trim, Js.collapse_ws.
  destruct (trim_end_spaced true (Js.trim_start (Js.collapse_from false s))) as [->|Hn].
  - eapply trim_start_single_spaced, collapse_from_single_spaced.
  - by left.
  - destruct (Js.trim_end _) as [|c r] eqn:Ht; [by left|]. right. eauto.
Qed.

(** What [normalize] returns: [null], an array, or a normalized text. *)
Definition normalize_result (v : JsVal) : Prop :=
  match v with
  | JNull | JArr _ => True
  | JStr t => normalized_text t
  | _ => False
  end.

Lemma normalize_cases (v : JsVal) : normalize_result (normalize v).
Proof.
  destruct v as [| |b|r|s|l|ps]; cbn -[normalize_text]; try done.
  - destruct b; cbn -[normalize_text]; [|done].
    destruct (normalize_text_cases "true") as [->|(t & -> & Ht)]; done.
  - destruct (negb _); [done|].
    destruct (normalize_text_cases r) as [->|(t & -> & Ht)]; done.
  - destruct (negb _); [done|].
    destruct (normalize_text_cases s) as [->|(t & -> & Ht)]; done.
Qed.

(** ** The instruction walker *)

Section Walker.
Context {RT : Runtime}.

(** What [walk(node)] leaves in [steps] when it returns: the same
    recursion, without the stack and without the exceptions. *)
Fixpoint walked (node : JsVal) (steps : list JsVal) : list JsVal :=
  match node with
  | JUndefined | JNull => steps
  | JBool _ | JNum _ => steps
  | JArr items => fold_left (λ acc child, walked child acc) items steps
  | JStr s =>
      if truthy node then push_if steps (normalize node) else steps
  | JObj props =>
      let text := js_or (get node "text") (get node "description") in
      let steps1 := if truthy text then push_if steps (normalize text) else steps in
      (fix item_list (ps : list (string * JsVal)) : list JsVal :=
         match ps with
         | [] => steps1
         | (k, v) :: rest =>
             if String.eqb k "itemListElement"
             then (if truthy v then walked v steps1 else steps1)
             else item_list rest
         end) props
  end.

(** How many calls are open at the deepest point of [normalize(value)],
    its own call counted. *)
Fixpoint normalize_calls (value : JsVal) : nat :=
  match value with
  | JArr l => S (max_list (map normalize_calls l))
  | _ => 1%nat
  end.

(** Whether [String] prints every value that [normalize(value)] prints. *)
Fixpoint normalize_prints (value : JsVal) : bool :=
  match value with
  | JArr l => forallb normalize_prints l
  | JObj ps => negb (own_property "toString" ps)
  | _ => true
  end.

(** The same for [walk(node)]; a text costs the call of [normalize]. *)
Fixpoint walk_calls (node : JsVal) : nat :=
  match node with
  | JArr items => S (max_list (map walk_calls items))
  | JStr s => if truthy node then S (normalize_calls node) else 1%nat
  | JObj props =>
      let text := js_or (get node "text") (get node "description") in
      S (Nat.max
           (if truthy text then normalize_calls text else 0%nat)
           ((fix item_list (ps : list (string * JsVal)) : nat :=
               match ps with
               | [] => 0%nat
               | (k, v) :: rest =>
                   if String.eqb k "itemListElement"
                   then (if truthy v then walk_calls v else 0%nat)
                   else item_list rest
               end) props))
  | _ => 1%nat
  end.

Fixpoint walk_prints (node : JsVal) : bool :=
  match node with
  | JArr items => forallb walk_prints items
  | JObj props =>
      let text := js_or (get node "text") (get node "description") in
      (if truthy text then normalize_prints text else true)
      && (fix item_list (ps : list (string * JsVal)) : bool :=
            match ps with
            | [] => true
            | (k, v) :: rest =>
                if String.eqb k "itemListElement"
                then (if truthy v then walk_prints v else true)
                else item_list rest
            end) props
  | _ => true
  end.

(** Whether no [text] or [description] that [walk] reads is an array. *)
Fixpoint texts_only (node : JsVal) : bool :=
  match node with
  | JArr items => forallb texts_only items
  | JObj props =>
      negb (isArray (js_or (get node "text") (get node "description")))
      && (fix item_list (ps : list (string * JsVal)) : bool :=
            match ps with
            | [] => true
            | (k, v) :: rest =>
                if String.eqb k "itemListElement"
                then (if truthy v then texts_only v else true)
                else item_list rest
            end) props
  | _ => true
  end.

(** The object cases, with the property read written as a read. *)
Lemma walked_object (props : list (string * JsVal)) (steps : list JsVal) :
  walked (JObj props) steps =
    let node := JObj props in
    let text := js_or (get node "text") (get node "description") in
    let steps1 := if truthy text then push_if steps (normalize text) else steps in
    if truthy (get node "itemListElement")
    then walked (get node "itemListElement") steps1 else steps1.
Proof.
  cbn -[truthy normalize js_or]. cbv zeta.
  generalize (if truthy (js_or (assoc "text" props) (assoc "description" props))
              then push_if steps (normalize (js_or (assoc "text" props)
                                                   (assoc "description" props)))
              else steps) as steps1.
  intros steps1. induction props as [|[k v] rest IH]; [done|].
  cbn -[truthy String.eqb]. by destruct (String.eqb k "itemListElement").
Qed.

Lemma walk_calls_object (props : list (string * JsVal)) :
  walk_calls (JObj props) =
    let node := JObj props in
    let text := js_or (get node "text") (get node "description") in
    S (Nat.max (if truthy text then normalize_calls text else 0%nat)
         (if truthy (get node "itemListElement")
          then walk_calls (get node "itemListElement") else 0%nat)).
Proof.
  cbn -[truthy js_or Nat.max]. cbv zeta. f_equal. f_equal.
  induction props as [|[k v] rest IH]; [done|].
  cbn -[truthy String.eqb]. by destruct (String.eqb k "itemListElement").
Qed.

Lemma walk_prints_object (props : list (string * JsVal)) :
  walk_prints (JObj props) =
    let node := JObj props in
    let text := js_or (get node "text") (get node "description") in
    (if truthy text then normalize_prints text else true)
    && (if truthy (get node "itemListElement")
        then walk_prints (get node "itemListElement") else true).
Proof.
  cbn -[truthy js_or]. cbv zeta. f_equal.
  induction props as [|[k v] rest IH]; [done|].
  cbn -[truthy String.eqb]. by destruct (String.eqb k "itemListElement").
Qed.

Lemma texts_only_object (props : list (string * JsVal)) :
  texts_only (JObj props) =
    let node := JObj props in
    negb (isArray (js_or (get node "text") (get node "description")))
    && (if truthy (get node "itemListElement")
        then texts_only (get node "itemListElement") else true).
Proof.
  cbn -[truthy js_or]. f_equal.
  induction props as [|[k v] rest IH]; [done|].
  cbn -[truthy String.eqb]. by destruct (String.eqb k "itemListElement").
Qed.

Lemma walk_object (depth : nat) (props : list (string * JsVal)) (steps : list JsVal) :
  walk depth (JObj props) steps =
    let node := JObj props in
    let text := js_or (get node "text") (get node "description") in
    if (call_stack <? S depth)%nat then Throw
    else match (if truthy text
                then clean ← normalize_in (S depth) text; Ok (push_if steps clean)
                else Ok steps) with
         | Throw => Throw
         | Ok steps1 =>
             if truthy (get node "itemListElement")
             then walk (S depth) (get node "itemListElement") steps1
             else Ok steps1
         end.
Proof.
  cbn -[truthy normalize_in js_or Nat.ltb]. cbv zeta.
  destruct (call_stack <? S depth)%nat; [done|].
  destruct (if truthy (js_or (assoc "text" props) (assoc "description" props))
            then _ else _) as [steps1|]; [|done].
  induction props as [|[k v] rest IH]; [done|].
  cbn -[truthy String.eqb]. by destruct (String.eqb k "itemListElement").
Qed.
(** ** The walker and its stack *)

Lemma fits_call (depth : nat) :
  (call_stack <? S depth)%nat = negb (depth + 1 <=? call_stack)%nat.
Proof.
  destruct (Nat.ltb_spec call_stack (S depth)), (Nat.leb_spec (depth + 1) call_stack);
    simpl; (done || lia).
Qed.

Lemma fits_all (d : nat) (f : JsVal → nat) (p : JsVal → bool) (l : list JsVal) :
  (S d ≤ call_stack)%nat →
  forallb (λ x, (S d + f x <=? call_stack)%nat && p x) l
  = (S d + max_list (map f l) <=? call_stack)%nat && forallb p l.
Proof.
  intros Hd. apply Bool.eq_iff_eq_true.
  induction l as [|x l IH]; cbn -[Nat.leb Nat.add].
  - rewrite andb_true_iff, Nat.leb_le. split; [|done]. intros _. split; [lia|done].
  - rewrite !andb_true_iff, IH, !andb_true_iff, !Nat.leb_le. split.
    + intros [[? ?] [? ?]]. split; [lia|done].
    + intros [? [? ?]]. repeat split; (done || lia).
Qed.

(** [normalize] on the stack: it returns what [normalize] returns when its
    calls fit and [String] prints, and throws otherwise. *)
Lemma normalize_in_equation (value : JsVal) :
  ∀ depth, normalize_in depth value =
    if (depth + normalize_calls value <=? call_stack)%nat && normalize_prints value
    then Ok (normalize value) else Throw.
Proof.
  induction value as [| |b|r|s|l IH|ps IH] using JsVal_deep_ind; intros depth;
    try (cbn -[Nat.ltb Nat.leb normalize_text to_string truthy]; rewrite fits_call;
         destruct (depth + 1 <=? call_stack)%nat; simpl; [|done];
         rewrite ?andb_true_r; by destruct (negb _)).
  - cbn -[Nat.ltb Nat.leb]. rewrite fits_call. by destruct (_ <=? _)%nat.
  - cbn -[Nat.ltb Nat.leb]. rewrite fits_call. by destruct (_ <=? _)%nat.
  - cbn -[Nat.ltb Nat.leb]. rewrite fits_call.
    destruct (Nat.leb_spec (depth + 1) call_stack) as [Hd|Hd]; simpl.
    + assert (∀ items,
                Forall (λ x, ∀ depth, normalize_in depth x =
                          if (depth + normalize_calls x <=? call_stack)%nat
                             && normalize_prints x
                          then Ok (normalize x) else Throw) items →
                (fix each (l : list JsVal) : result (list JsVal) :=
                   match l with
                   | [] => Ok []
                   | x :: rest =>
                       y ← normalize_in (S depth) x; ys ← each rest; Ok (y :: ys)
                   end) items
                = if forallb (λ x, (S depth + normalize_calls x <=? call_stack)%nat
                                   && normalize_prints x) items
                  then Ok (map normalize items) else Throw) as Heach.
      { induction 1 as [|x rest Hx _ IHrest]; [done|].
        rewrite Hx, IHrest. cbn -[Nat.leb].
        destruct (_ && normalize_prints x); [|done]. cbn -[Nat.leb].
        by destruct (forallb _ rest). }
      rewrite (Heach l IH), fits_all by lia.
      rewrite Nat.add_succ_r.
      by destruct (_ && _).
    + destruct (Nat.leb_spec (depth + S (max_list (map normalize_calls l)))
                  call_stack); [lia | done].
  - cbn -[Nat.ltb Nat.leb normalize_text to_string]. rewrite fits_call.
    destruct (depth + 1 <=? call_stack)%nat; simpl; [|done].
    by destruct (own_property "toString" ps).
Qed.
Lemma assoc_Forall (P : JsVal → Prop) (k : string) (ps : list (string * JsVal)) :
  Forall (λ kv, P kv.2) ps → truthy (assoc k ps) = true → P (assoc k ps).
Proof.
  induction 1 as [|[k' v] rest Hv _ IH]; [done|].
  simpl. by destruct (String.eqb k' k).
Qed.

Ltac compare_calls :=
  repeat match goal with
         | |- context [(?a <=? ?b)%nat] => destruct (Nat.leb_spec a b)
         end;
  cbn [andb negb]; try done; try lia.

(** [walk] on the stack: it returns what [walked] gives when its calls fit
    and [String] prints, and throws otherwise. *)
Lemma walk_equation (node : JsVal) :
  ∀ depth steps, walk depth node steps =
    if (depth + walk_calls node <=? call_stack)%nat && walk_prints node
    then Ok (walked node steps) else Throw.
Proof.
  induction node as [| |b|r|s|l IH|ps IH] using JsVal_deep_ind; intros depth steps;
    try (cbn -[Nat.ltb Nat.leb]; rewrite fits_call; by destruct (_ <=? _)%nat).
  - cbn -[Nat.ltb Nat.leb normalize_in normalize Nat.add].
    rewrite fits_call, normalize_in_equation.
    cbn -[Nat.ltb Nat.leb normalize Nat.add].
    destruct (negb (String.eqb s "")); compare_calls.
  - cbn -[Nat.ltb Nat.leb Nat.add]. rewrite fits_call.
    destruct (Nat.leb_spec (depth + 1) call_stack) as [Hd|Hd]; cbn [negb].
    + assert (∀ items,
                Forall (λ x, ∀ depth steps, walk depth x steps =
                          if (depth + walk_calls x <=? call_stack)%nat && walk_prints x
                          then Ok (walked x steps) else Throw) items →
                ∀ steps,
                (fix each (items : list JsVal) (steps : list JsVal)
                   : result (list JsVal) :=
                   match items with
                   | [] => Ok steps
                   | child :: rest =>
                       match walk (S depth) child steps with
                       | Ok steps' => each rest steps'
                       | Throw => Throw
                       end
                   end) items steps
                = if forallb (λ x, (S depth + walk_calls x <=? call_stack)%nat
                                   && walk_prints x) items
                  then Ok (fold_left (λ acc child, walked child acc) items steps)
                  else Throw) as Heach.
      { induction 1 as [|x rest Hx _ IHrest]; intros steps0; [done|].
        rewrite Hx. cbn -[Nat.leb Nat.add].
        destruct (_ && walk_prints x); [|done]. cbn -[Nat.leb Nat.add].
        apply IHrest. }
      rewrite (Heach l IH), fits_all by lia.
      rewrite Nat.add_succ_r. by destruct (_ && _).
    + destruct (Nat.leb_spec (depth + S (max_list (map walk_calls l))) call_stack);
        [lia | done].
  - rewrite walk_object, walk_calls_object, walk_prints_object, walked_object.
    cbv zeta. rewrite fits_call. rewrite normalize_in_equation.
    set (text := js_or (get (JObj ps) "text") (get (JObj ps) "description")).
    set (ile := get (JObj ps) "itemListElement").
    destruct (truthy ile) eqn:Hile.
    + assert (∀ depth steps, walk depth ile steps =
                if (depth + walk_calls ile <=? call_stack)%nat && walk_prints ile
                then Ok (walked ile steps) else Throw) as Hrec.
      { exact (assoc_Forall
                 (λ x, ∀ depth steps, walk depth x steps =
                    if (depth + walk_calls x <=? call_stack)%nat && walk_prints x
                    then Ok (walked x steps) else Throw)
                 "itemListElement" ps IH Hile). }
      clearbody text ile. clear IH.
      destruct (truthy text), (normalize_prints text), (walk_prints ile);
        cbn [andb negb]; compare_calls;
        cbn [mbind result_bind]; rewrite ?Hrec; compare_calls.
    + clearbody text ile. clear IH.
      destruct (truthy text), (normalize_prints text);
        cbn [andb negb]; compare_calls.
Qed.
Lemma collectInstructionLines_equation (instructions : JsVal) :
  collectInstructionLines instructions
  = if (walk_calls instructions <=? call_stack)%nat && walk_prints instructions
    then Ok (uniq (walked instructions [])) else Throw.
Proof.
  unfold collectInstructionLines. rewrite walk_equation. cbn [Nat.add].
  by destruct (_ && _).
Qed.

(** ** What the walker collects *)

(** A step that [walk] pushes: truthy, and what [normalize] returns. *)
Definition pushed_step (v : JsVal) : Prop :=
  truthy v = true ∧ normalize_result v.

(** A step that is a text: not empty, without white space at its ends and
    with single spaces inside. *)
Definition text_step (v : JsVal) : Prop :=
  ∃ s, v = JStr s ∧ normalized_text s.

Lemma push_if_pushes (steps : list JsVal) (v : JsVal) :
  normalize_result v →
  ∃ out, push_if steps v = steps ++ out ∧ Forall pushed_step out.
Proof.
  intros Hv. unfold push_if. destruct (truthy v) eqn:Ht.
  - exists [v]. split; [done|]. by repeat constructor.
  - exists []. by rewrite app_nil_r.
Qed.

Lemma pushed_step_cases (v : JsVal) :
  pushed_step v → text_step v ∨ ∃ l, v = JArr l.
Proof.
  intros [Ht Hn]. destruct v as [| |b|r|s|l|ps]; try done.
  - left. by exists s.
  - right. by exists l.
Qed.

Lemma normalize_not_array (v : JsVal) :
  isArray v = false → isArray (normalize v) = false.
Proof.
  destruct v as [| |b|r|s|l|ps]; try done; intros _;
    cbn -[normalize_text to_string]; try destruct (negb _); try done;
    unfold normalize_text; by destruct (Js.trim _).
Qed.

Lemma push_if_text (steps : list JsVal) (v : JsVal) :
  isArray v = false →
  ∃ out, push_if steps (normalize v) = steps ++ out ∧ Forall text_step out.
Proof.
  intros Hv. apply normalize_not_array in Hv.
  pose proof (normalize_cases v) as Hn. unfold push_if.
  destruct (normalize v) as [| |b|r|t|l|ps]; try done.
  - exists []. by rewrite app_nil_r.
  - pose proof (normalized_text_nonempty _ Hn) as Ht.
    exists [JStr t]. cbn. apply String.eqb_neq in Ht. rewrite Ht. cbn.
    split; [done|]. apply Forall_singleton. by exists t.
Qed.

Lemma walked_pushes (node : JsVal) :
  ∀ steps, ∃ out, walked node steps = steps ++ out ∧ Forall pushed_step out.
Proof.
  induction node as [| |b|r|s|l IH|ps IH] using JsVal_deep_ind; intros steps;
    try (exists []; by rewrite app_nil_r).
  - cbn -[normalize]. destruct (negb _); [|exists []; by rewrite app_nil_r].
    apply push_if_pushes, normalize_cases.
  - cbn [walked]. revert steps.
    induction IH as [|child rest Hchild _ IHrest]; intros steps; simpl.
    + exists []. by rewrite app_nil_r.
    + destruct (Hchild steps) as (out1 & -> & Hout1).
      destruct (IHrest (steps ++ out1)) as (out2 & -> & Hout2).
      exists (out1 ++ out2). rewrite (assoc_L (++)). split; [done|].
      by apply Forall_app.
  - rewrite walked_object. cbv zeta.
    set (text := js_or _ _).
    assert (∃ out, (if truthy text then push_if steps (normalize text) else steps)
                   = steps ++ out ∧ Forall pushed_step out) as (out1 & -> & Hout1).
    { destruct (truthy text); [apply push_if_pushes, normalize_cases|].
      exists []. by rewrite app_nil_r. }
    destruct (truthy (get (JObj ps) "itemListElement")) eqn:Hlist; [|eauto].
    destruct (assoc_Forall
                (λ x, ∀ steps, ∃ out, walked x steps = steps ++ out
                                      ∧ Forall pushed_step out)
                "itemListElement" ps IH Hlist (steps ++ out1))
      as (out2 & Hw & Hout2).
    simpl in Hw |- *. rewrite Hw.
    exists (out1 ++ out2). rewrite (assoc_L (++)). split; [done|].
    by apply Forall_app.
Qed.

(** Where every [text] and [description] is a text, so is every step. *)
Lemma walked_texts (node : JsVal) :
  texts_only node = true →
  ∀ steps, ∃ out, walked node steps = steps ++ out ∧ Forall text_step out.
Proof.
  induction node as [| |b|r|s|l IH|ps IH] using JsVal_deep_ind; intros Htexts steps;
    try (exists []; by rewrite app_nil_r).
  - cbn -[normalize]. destruct (negb _); [|exists []; by rewrite app_nil_r].
    by apply push_if_text.
  - cbn [walked]. cbn [texts_only] in Htexts. revert steps.
    induction IH as [|child rest Hchild _ IHrest]; intros steps; simpl.
    + exists []. by rewrite app_nil_r.
    + cbn [forallb] in Htexts. apply andb_true_iff in Htexts as [Hc Hr].
      destruct (Hchild Hc steps) as (out1 & -> & Hout1).
      destruct (IHrest Hr (steps ++ out1)) as (out2 & -> & Hout2).
      exists (out1 ++ out2). rewrite (assoc_L (++)). split; [done|].
      by apply Forall_app.
  - rewrite walked_object. rewrite texts_only_object in Htexts. cbv zeta in *.
    set (text := js_or _ _) in *.
    apply andb_true_iff in Htexts as [Htext Hrest].
    apply negb_true_iff in Htext.
    assert (∃ out, (if truthy text then push_if steps (normalize text) else steps)
                   = steps ++ out ∧ Forall text_step out) as (out1 & -> & Hout1).
    { destruct (truthy text); [by apply push_if_text|].
      exists []. by rewrite app_nil_r. }
    destruct (truthy (get (JObj ps) "itemListElement")) eqn:Hlist; [|eauto].
    destruct (assoc_Forall
                (λ x, texts_only x = true →
                      ∀ steps, ∃ out, walked x steps = steps ++ out
                                      ∧ Forall text_step out)
                "itemListElement" ps IH Hlist Hrest (steps ++ out1))
      as (out2 & Hw & Hout2).
    simpl in Hw |- *. rewrite Hw.
    exists (out1 ++ out2). rewrite (assoc_L (++)). split; [done|].
    by apply Forall_app.
Qed.

(** [nest d v] is [v] inside [d] arrays. *)
Fixpoint nest (d : nat) (v : JsVal) : JsVal :=
  match d with
  | O => v
  | S d' => JArr [nest d' v]
  end.

Lemma walked_nest (d : nat) (v : JsVal) (steps : list JsVal) :
  walked (nest d v) steps = walked v steps.
Proof. induction d as [|d IH]; [done|]. simpl. apply IH. Qed.

Lemma walk_calls_nest (d : nat) (v : JsVal) :
  walk_calls (nest d v) = (d + walk_calls v)%nat.
Proof.
  induction d as [|d IH]; [done|].
  cbn [nest walk_calls map max_list]. rewrite IH. unfold id. lia.
Qed.

Lemma walk_prints_nest (d : nat) (v : JsVal) :
  walk_prints (nest d v) = walk_prints v.
Proof.
  induction d as [|d IH]; [done|].
  cbn [nest walk_prints forallb]. by rewrite IH, andb_true_r.
Qed.

(** In a set of values no text is there twice. *)
Lemma distinct_texts (set : list JsVal) :
  distinct_members set →
  ∀ i j s, set !! i = Some (JStr s) → set !! j = Some (JStr s) → i = j.
Proof.
  intros Hset i j s Hi Hj.
  destruct (Nat.lt_trichotomy i j) as [Hlt|[->|Hlt]]; [|done|].
  - pose proof (Hset i j _ _ Hi Hj Hlt) as Hsame. simpl in Hsame.
    by rewrite String.eqb_refl in Hsame.
  - pose proof (Hset j i _ _ Hj Hi Hlt) as Hsame. simpl in Hsame.
    by rewrite String.eqb_refl in Hsame.
Qed.
(** C10, as the code has it.  The walker has no depth guard: it makes one
    more nested call for each level of nesting of its input, to any depth.
    It returns exactly when these calls fit the call stack and [String]
    prints every [text] it meets; otherwise it throws (a [RangeError] of
    the engine when the input is nested too deep).  What it returns is in
    the order of the walk and has no entry twice, in the sense of a [Set]:
    no text occurs twice.  Every entry is a text that is not empty and is
    whitespace-normalized, or an array, which comes from a [text] or
    [description] that holds an array; where none does, the result is a
    list of such texts without repetition. *)
Theorem collectInstructionLines_ordered_steps (instructions : JsVal) :
  (collectInstructionLines instructions
   = if (walk_calls instructions <=? call_stack)%nat && walk_prints instructions
     then Ok (uniq (walked instructions [])) else Throw)
  ∧ (∀ d,
       walk_calls (nest d instructions) = (d + walk_calls instructions)%nat
       ∧ ((call_stack < d + walk_calls instructions)%nat →
          collectInstructionLines (nest d instructions) = Throw)
       ∧ ((d + walk_calls instructions ≤ call_stack)%nat →
          collectInstructionLines (nest d instructions)
          = collectInstructionLines instructions))
  ∧ (∀ steps, collectInstructionLines instructions = Ok steps →
       steps `sublist_of` walked instructions []
       ∧ distinct_members steps
       ∧ (∀ i j s, steps !! i = Some (JStr s) → steps !! j = Some (JStr s) → i = j)
       ∧ Forall (λ step, text_step step ∨ ∃ l, step = JArr l) steps
       ∧ (texts_only instructions = true → Forall text_step steps ∧ NoDup steps)).
Proof.
  split; [apply collectInstructionLines_equation|]. split.
  - intros d. split; [apply walk_calls_nest|].
    rewrite !collectInstructionLines_equation, walk_calls_nest, walk_prints_nest,
      walked_nest.
    split; intros Hd.
    + destruct (Nat.leb_spec (d + walk_calls instructions) call_stack); [lia|done].
    + destruct (Nat.leb_spec (d + walk_calls instructions) call_stack); [|lia].
      destruct (Nat.leb_spec (walk_calls instructions) call_stack); [done|lia].
  - intros steps. rewrite collectInstructionLines_equation.
    destruct (_ && _); [|done]. intros [= <-].
    assert (Forall pushed_step (uniq (walked instructions []))) as Hpushed.
    { destruct (walked_pushes instructions []) as (out & -> & Hout). simpl.
      apply Forall_forall. intros step Hstep.
      eapply elem_of_sublist in Hstep; [|apply uniq_sublist].
      by apply (proj1 (Forall_forall _ _) Hout). }
    split; [apply uniq_sublist|]. split; [apply uniq_distinct|].
    split; [apply distinct_texts, uniq_distinct|]. split.
    { eapply Forall_impl; [exact Hpushed|]. apply pushed_step_cases. }
    intros Htexts.
    assert (Forall text_step (uniq (walked instructions []))) as Hsteps.
    { destruct (walked_texts instructions Htexts []) as (out & -> & Hout). simpl.
      apply Forall_forall. intros step Hstep.
      eapply elem_of_sublist in Hstep; [|apply uniq_sublist].
      by apply (proj1 (Forall_forall _ _) Hout). }
    split; [exact Hsteps|]. apply NoDup_alt. intros i j step Hi Hj.
    destruct (proj1 (Forall_forall _ _) Hsteps step) as (s & -> & _).
    { by eapply list_elem_of_lookup_2. }
    eapply distinct_texts; [apply uniq_distinct | exact Hi | exact Hj].
Qed.
End Walker.

(** * A reference runtime

    The theorems above and below hold for every runtime.  To run the
    scraper on concrete pages, this section gives one: a resolver and a
    JSON reader for a fragment of their input languages, on which they
    return what the platform's [URL] and [JSON.parse] return.  Everything
    outside the fragment is refused, so an example that evaluates to an
    acceptance is an example of the platform's behaviour. *)

Module Reference.

Fixpoint all_chars (p : ascii → bool) (s : string) : bool :=
  match s with
  | EmptyString => true
  | String a s' => p a && all_chars p s'
  end.

Fixpoint strip_prefix (p s : string) : option string :=
  match p, s with
  | EmptyString, _ => Some s
  | String a p', String b s' => if Ascii.eqb a b then strip_prefix p' s' else None
  | String _ _, EmptyString => None
  end.

Definition is_digit (c : ascii) : bool :=
  let n := nat_of_ascii c in (48 <=? n)%nat && (n <=? 57)%nat.

Definition is_letter (c : ascii) : bool :=
  let n := nat_of_ascii c in
  ((65 <=? n)%nat && (n <=? 90)%nat) || ((97 <=? n)%nat && (n <=? 122)%nat).

(** Code units that the URL parser copies as they are in a path, a query
    and a fragment of an [https] address. No dot: no dot segments. *)
Definition url_safe (c : ascii) : bool :=
  is_letter c || is_digit c
  || Ascii.eqb c "-" || Ascii.eqb c "_" || Ascii.eqb c "/"
  || Ascii.eqb c "?" || Ascii.eqb c "=" || Ascii.eqb c "&" || Ascii.eqb c "#".

Definition origin : string := "https://www.epicurious.com".

(** An address of the site in the form the URL serializer gives it. *)
Definition serialized (s : string) : bool :=
  match strip_prefix origin s with
  | Some (String "/" rest) => all_chars url_safe rest
  | _ => false
  end.

(** A base the resolver takes: the origin alone or a serialized address of
    the site.  [new URL] parses the base first and throws when that
    fails, whatever [href] is. *)
Definition base_ok (base : string) : bool :=
  String.eqb base origin || serialized base.

(** [new URL(href, base).href] for a serialized address of the site, or for
    a path-absolute reference, against a base of the site. *)
Definition URL_href (href base : string) : option string :=
  if negb (base_ok base) then None
  else if serialized href then Some href
  else match href with
       | String "/" rest =>
           if negb (String.prefix "/" rest) && all_chars url_safe rest
           then Some (origin +:+ href) else None
       | _ => None
       end.

(** ** JSON texts without escapes, fractions and exponents *)

Definition is_json_space (c : ascii) : bool :=
  match nat_of_ascii c with
  | 9%nat | 10%nat | 13%nat | 32%nat => true
  | _ => false
  end.

Fixpoint skip_space (s : string) : string :=
  match s with
  | String a s' => if is_json_space a then skip_space s' else s
  | EmptyString => EmptyString
  end.

(** The characters of a string literal after its opening quote. *)
Fixpoint string_body (s : string) : option (string * string) :=
  match s with
  | EmptyString => None
  | String a s' =>
      if Ascii.eqb a "034" then Some (EmptyString, s')
      else if Ascii.eqb a "092" || (nat_of_ascii a <? 32)%nat then None
      else '(body, rest) ← string_body s'; Some (String a body, rest)
  end.

Fixpoint digits (s : string) : string * string :=
  match s with
  | String a s' =>
      if is_digit a then let '(d, rest) := digits s' in (String a d, rest)
      else (EmptyString, s)
  | EmptyString => (EmptyString, EmptyString)
  end.

(** An integer literal of at most fifteen digits, as [String] prints the
    number it denotes. *)
Definition integer (negative : bool) (s : string) : option (JsVal * string) :=
  let '(d, rest) := digits s in
  match d, rest with
  | EmptyString, _ => None
  | _, String "." _ | _, String "e" _ | _, String "E" _ => None
  | String "0" (String _ _), _ => None
  | String "0" EmptyString, _ => Some (JNum "0", rest)
  | _, _ =>
      if (String.length d <=? 15)%nat
      then Some (JNum (if negative then String "-" d else d), rest)
      else None
  end.

(** Setting a property: a repeated name keeps its place and takes the new
    value. *)
Fixpoint set_prop (k : string) (v : JsVal) (ps : list (string * JsVal))
    : list (string * JsVal) :=
  match ps with
  | [] => [(k, v)]
  | (k', v') :: rest =>
      if String.eqb k' k then (k', v) :: rest else (k', v') :: set_prop k v rest
  end.

Fixpoint value (fuel : nat) (s : string) : option (JsVal * string) :=
  match fuel with
  | O => None
  | S fuel =>
      match skip_space s with
      | String "n" (String "u" (String "l" (String "l" rest))) => Some (JNull, rest)
      | String "t" (String "r" (String "u" (String "e" rest))) => Some (JBool true, rest)
      | String "f" (String "a" (String "l" (String "s" (String "e" rest)))) =>
          Some (JBool false, rest)
      | String "034" rest => '(body, rest') ← string_body rest; Some (JStr body, rest')
      | String "[" rest =>
          match skip_space rest with
          | String "]" rest' => Some (JArr [], rest')
          | _ => '(items, rest') ← elements fuel rest; Some (JArr items, rest')
          end
      | String "{" rest =>
          match skip_space rest with
          | String "}" rest' => Some (JObj [], rest')
          | _ => '(props, rest') ← members fuel [] rest; Some (JObj props, rest')
          end
      | String "-" rest => integer true rest
      | String a rest => if is_digit a then integer false (String a rest) else None
      | EmptyString => None
      end
  end
with elements (fuel : nat) (s : string) : option (list JsVal * string) :=
  match fuel with
  | O => None
  | S fuel =>
      '(v, rest) ← value fuel s;
      match skip_space rest with
      | String "," rest' => '(vs, rest'') ← elements fuel rest'; Some (v :: vs, rest'')
      | String "]" rest' => Some ([v], rest')
      | _ => None
      end
  end
with members (fuel : nat) (props : list (string * JsVal)) (s : string)
    : option (list (string * JsVal) * string) :=
  match fuel with
  | O => None
  | S fuel =>
      match skip_space s with
      | String "034" rest =>
          '(k, rest) ← string_body rest;
          match skip_space rest with
          | String ":" rest =>
              '(v, rest) ← value fuel rest;
              let props := set_prop k v props in
              match skip_space rest with
              | String "," rest' => members fuel props rest'
              | String "}" rest' => Some (props, rest')
              | _ => None
              end
          | _ => None
          end
      | _ => None
      end
  end.

Definition JSON_parse (text : string) : option JsVal :=
  '(v, rest) ← value (2 * String.length text + 2) text;
  match skip_space rest with
  | EmptyString => Some v
  | _ => None
  end.

(** A JSON text written with apostrophes in the place of its quotation
    marks. *)
Definition json (text : string) : string := Js.replace_all "'" "034" text.

(** Room for three thousand nested calls; an engine's limit is of this
    order, and depends on the size of its frames. *)
Definition call_stack : nat := 3000%nat.

End Reference.

#[global] Instance reference_runtime : Runtime := {|
  URL_href := Reference.URL_href;
  JSON_parse := Reference.JSON_parse;
  call_stack := Reference.call_stack;
|}.

Example reference_parse_recipe :
  JSON_parse (Reference.json "{'@type': 'Recipe', 'name': [], 'n': -12, 'l': [1, 'a']}")
  = Some (JObj [("@type", JStr "Recipe"); ("name", JArr []); ("n", JNum "-12");
                ("l", JArr [JNum "1"; JStr "a"])]).
Proof. reflexivity. Qed.

Example reference_parse_malformed :
  JSON_parse (Reference.json "{'@type': 'Recipe',") = None.
Proof. reflexivity. Qed.

Example reference_resolve_relative :
  URL_href "/recipes/food/views/a-b?x=1#top" "https://www.epicurious.com/list"
  = Some "https://www.epicurious.com/recipes/food/views/a-b?x=1#top".
Proof. reflexivity. Qed.

Example reference_invalid_base :
  URL_href "https://www.epicurious.com/recipes" "not a url" = None
  ∧ URL_href "/recipes" EmptyString = None.
Proof. split; reflexivity. Qed.

(** An instruction tree as the site's metadata has them: sections of steps. *)
Example reference_instruction_tree :
  collectInstructionLines
    (JArr [ JObj [ ("@type", JStr "HowToSection");
                   ("itemListElement",
                    JArr [ JObj [ ("@type", JStr "HowToStep"); ("text", JStr " Mix  well. ") ];
                           JObj [ ("@type", JStr "HowToStep"); ("text", JStr "Bake.") ] ]) ];
            JStr "Bake." ])
  = Ok [ JStr "Mix well."; JStr "Bake." ].
Proof. reflexivity. Qed.

(** C10, against the claim.  No guard bounds the recursion: a step inside
    2998 arrays is collected, and one level more, where the calls no longer
    fit the stack of the reference runtime, the walker does not return a
    sequence but is ended by the engine's [RangeError].  And a result need
    not be a list of step strings: a [text] that holds an array gives an
    array among the steps. *)
Lemma collectInstructionLines_has_no_depth_guard :
  collectInstructionLines (RT := reference_runtime) (nest 2998 (JStr "Stir."))
  = Ok [ JStr "Stir." ]
  ∧ collectInstructionLines (RT := reference_runtime) (nest 2999 (JStr "Stir."))
    = Throw
  ∧ collectInstructionLines (RT := reference_runtime) (JObj [ ("text", JArr []) ])
    = Ok [ JArr [] ].
Proof.
  rewrite !collectInstructionLines_equation, !walk_calls_nest, !walk_prints_nest,
    !walked_nest.
  repeat split; reflexivity.
Qed.

(** ** The normalizer *)

Fixpoint has_char (c : ascii) (s : string) : bool :=
  match s with
  | EmptyString => false
  | String a s' => Ascii.eqb a c || has_char c s'
  end.

Lemma split_head_cons (c a : ascii) (s : string) :
  Js.split_head c (String a s)
  = if Ascii.eqb a c then EmptyString else String a (Js.split_head c s).
Proof.
  unfold Js.split_head. simpl. destruct (Ascii.eqb a c); [done|].
  destruct s as [|b s]; [done|]. by destruct (Js.split c (String b s)).
Qed.

Lemma split_head_no_char (c : ascii) (s : string) :
  has_char c (Js.split_head c s) = false.
Proof.
  induction s as [|a s IH]; [done|].
  rewrite split_head_cons. destruct (Ascii.eqb a c) eqn:E; [done|].
  simpl. by rewrite E.
Qed.

Lemma split_head_fixed (c : ascii) (s : string) :
  has_char c s = false → Js.split_head c s = s.
Proof.
  induction s as [|a s IH]; [done|]. simpl.
  rewrite split_head_cons. destruct (Ascii.eqb a c); [done|].
  simpl. intros Hs. by rewrite IH.
Qed.

Lemma split_head_append (c : ascii) (p r : string) :
  has_char c p = false → Js.split_head c (p +:+ r) = p +:+ Js.split_head c r.
Proof.
  induction p as [|a p IH]; [done|]. simpl.
  unfold String.append; fold String.append.
  rewrite split_head_cons. destruct (Ascii.eqb a c); [done|].
  simpl. intros Hp. by rewrite IH.
Qed.

Lemma split_head_at (c : ascii) (p r : string) :
  has_char c p = false → Js.split_head c (p +:+ String c r) = p.
Proof.
  intros Hp. rewrite split_head_append by done.
  rewrite split_head_cons, Ascii.eqb_refl. apply append_nil_r.
Qed.

Section Normalizer.
Context {RT : Runtime}.

(** A base the platform takes: some reference resolves against it
    ([new URL] throws for every reference when the base does not parse). *)
Definition usable_base (base : string) : Prop :=
  ∃ href h, URL_href href base = Some h.

(** Two laws of the URL Standard, on which the normalizer relies.  An
    address the parser has serialized parses to itself, against any base
    the platform takes. *)
Definition href_reparses : Prop :=
  ∀ href base h, URL_href href base = Some h →
    ∀ base', usable_base base' → URL_href h base' = Some h.

(** A serialized address cut before its fragment is a serialized address:
    the one of the same URL without its fragment. *)
Definition href_without_fragment : Prop :=
  ∀ href base h, URL_href href base = Some h →
    ∃ href', URL_href href' base = Some (Js.split_head "#" h).

Lemma toAbs_no_fragment (href base u : string) :
  toAbs href base = Some u → has_char "#" u = false.
Proof.
  unfold toAbs. destruct (URL_href href base); [|done].
  intros [= <-]. apply split_head_no_char.
Qed.

End Normalizer.

(** The reference runtime has the round trip. *)
Lemma strip_prefix_append (p s r : string) :
  Reference.strip_prefix p s = Some r ↔ s = p +:+ r.
Proof.
  revert s. induction p as [|a p IH]; intros s; simpl.
  - split; [by intros [= ->] | by intros ->].
  - unfold String.append; fold String.append.
    destruct s as [|b s]; [done|].
    destruct (Ascii.eqb a b) eqn:E.
    + apply Ascii.eqb_eq in E as ->. rewrite IH. split; [by intros -> | by intros [= ->]].
    + split; [done|]. intros [= -> _]. by rewrite Ascii.eqb_refl in E.
Qed.

Lemma all_chars_split_head (p : ascii → bool) (c : ascii) (s : string) :
  Reference.all_chars p s = true → Reference.all_chars p (Js.split_head c s) = true.
Proof.
  induction s as [|a s IH]; [done|]. simpl.
  rewrite split_head_cons. destruct (Ascii.eqb a c); [done|].
  simpl. rewrite !andb_true_iff. intros [? ?]. auto.
Qed.

Lemma serialized_split_head (h : string) :
  Reference.serialized h = true → Reference.serialized (Js.split_head "#" h) = true.
Proof.
  unfold Reference.serialized.
  destruct (Reference.strip_prefix Reference.origin h) as [[|a rest]|] eqn:Hp; try done.
  destruct (Ascii.eqb a "/") eqn:Ha; [|by destruct a as [[] [] [] [] [] [] [] []]].
  apply Ascii.eqb_eq in Ha as ->. intros Hsafe.
  apply strip_prefix_append in Hp as ->.
  rewrite split_head_append by done. rewrite split_head_cons. simpl.
  by apply all_chars_split_head.
Qed.

Lemma reference_serializes (href base h : string) :
  Reference.URL_href href base = Some h →
  Reference.base_ok base = true ∧ Reference.serialized h = true.
Proof.
  unfold Reference.URL_href.
  destruct (Reference.base_ok base); [|done]. simpl.
  destruct (Reference.serialized href) eqn:Hs; [by intros [= <-]|].
  destruct href as [|a rest]; [done|].
  destruct (Ascii.eqb a "/") eqn:Ha; [|by destruct a as [[] [] [] [] [] [] [] []]].
  apply Ascii.eqb_eq in Ha as ->.
  destruct (negb _ && _) eqn:Hc; [|done]. intros [= <-].
  apply andb_true_iff in Hc as [_ Hsafe]. split; [done|].
  unfold Reference.serialized.
  by rewrite (proj2 (strip_prefix_append Reference.origin _ _) eq_refl).
Qed.

Lemma reference_resolves_serialized (h base : string) :
  Reference.serialized h = true → Reference.base_ok base = true →
  Reference.URL_href h base = Some h.
Proof. intros Hh Hbase. unfold Reference.URL_href. by rewrite Hbase, Hh. Qed.

(** The reference runtime has the two laws. *)
Lemma reference_reparses : href_reparses (RT := reference_runtime).
Proof.
  intros href base h Hh base' (href' & h' & Hbase'). simpl in *.
  apply reference_serializes in Hh as [_ Hh].
  apply reference_serializes in Hbase' as [Hbase' _].
  by apply reference_resolves_serialized.
Qed.

Lemma reference_without_fragment : href_without_fragment (RT := reference_runtime).
Proof.
  intros href base h Hh. simpl in *.
  apply reference_serializes in Hh as [Hbase Hh].
  exists (Js.split_head "#" h).
  apply reference_resolves_serialized; [by apply serialized_split_head | done].
Qed.

Definition recipe_page_url : string :=
  "https://www.epicurious.com/recipes/food/views/lemon-tart".



(** ** The merger *)

Definition strings_of (v : JsVal) : list string :=
  match v with
  | JArr l => omap (λ x, match x with JStr s => Some s | _ => None end) l
  | _ => []
  end.

Definition list_fields : list string := [ "ingredients"; "instructions"; "tags" ].

(** A list-valued field of a partial record is absent or holds texts, none
    empty and none twice: the extractors leave out what is empty after
    normalization, and the data model takes the lists as sets. *)
Definition string_set_field (r : Recipe) (name : string) : Prop :=
  r !! name = None
  ∨ ∃ l, r !! name = Some (JArr (map JStr l)) ∧ NoDup l ∧ "" ∉ l.

Definition PartialRecord (r : Recipe) : Prop :=
  ∀ name, name ∈ list_fields → string_set_field r name.

Lemma strings_of_texts (l : list string) : strings_of (JArr (map JStr l)) = l.
Proof.
  unfold strings_of. induction l as [|x l IH]; [done|].
  cbn. f_equal. exact IH.
Qed.

Lemma field_insert (r : Recipe) (k k' : string) (v : JsVal) :
  field (<[k := v]> r) k' = if decide (k = k') then v else field r k'.
Proof. unfold field. rewrite lookup_insert. by destruct (decide (k = k')). Qed.

Lemma uniq_texts (l : list string) : uniq (map JStr l) = map JStr (uniq l).
Proof.
  unfold uniq.
  assert (filter (λ x, elem_truthy x = true) (map JStr l)
          = map JStr (filter (λ x, elem_truthy x = true) l)) as ->.
  { induction l as [|x l IH]; [done|].
    change (map JStr (x :: l)) with (JStr x :: map JStr l).
    rewrite !filter_cons, IH.
    change (elem_truthy (JStr x)) with (negb (String.eqb x "")).
    change (elem_truthy x) with (negb (String.eqb x "")).
    by destruct (decide _). }
  generalize (filter (λ x : string, elem_truthy x = true) l) as k. intros k.
  unfold set_from. change (@nil JsVal) with (map JStr []).
  generalize (@nil string) as set. induction k as [|x k IH]; intros set; [done|].
  simpl. rewrite <- IH. f_equal. unfold set_add.
  assert (set_has (JStr x) (map JStr set) = set_has x set) as ->.
  { unfold set_has. induction set as [|y set IHs]; [done|].
    change (map JStr (y :: set)) with (JStr y :: map JStr set).
    cbn [existsb]. by rewrite IHs. }
  destruct (set_has x set); [done|]. by rewrite map_app.
Qed.

Lemma filter_all {A} (P : A → Prop) `{∀ x, Decision (P x)} (l : list A) :
  Forall P l → filter P l = l.
Proof.
  induction 1 as [|x l Hx _ IH]; [done|].
  by rewrite filter_cons_True, IH.
Qed.

Lemma uniq_fixed (l : list string) : NoDup l → "" ∉ l → uniq l = l.
Proof.
  intros Hnd Hne. unfold uniq.
  assert (filter (λ x, elem_truthy x = true) l = l) as ->.
  { apply filter_all. apply Forall_forall. intros x Hx. simpl.
    destruct (String.eqb x "") eqn:E; [|done].
    apply String.eqb_eq in E as ->. done. }
  by apply (set_from_fixed string_same_eq).
Qed.

Lemma uniq_elem_of (l : list string) (x : string) : x ∈ uniq l ↔ x ∈ l ∧ x ≠ "".
Proof.
  unfold uniq. rewrite (set_from_elem_of string_same_eq), list_elem_of_filter. simpl.
  split; intros [H1 H2]; split; try done.
  - intros ->. done.
  - by apply negb_true_iff, String.eqb_neq.
Qed.

Lemma uniq_NoDup (l : list string) : NoDup (uniq l).
Proof. apply (set_from_NoDup string_same_eq). Qed.

(** The union of two sets of texts, as [uniq] builds it: the first set,
    then what the second adds, in its order. *)
Lemma uniq_union (a b : list string) :
  NoDup a → "" ∉ a → "" ∉ b →
  NoDup (uniq (a ++ b))
  ∧ (∀ x, x ∈ uniq (a ++ b) ↔ x ∈ a ∨ x ∈ b)
  ∧ a `prefix_of` uniq (a ++ b)
  ∧ drop (length a) (uniq (a ++ b)) `sublist_of` b.
Proof.
  intros Hnd Ha Hb. split; [apply uniq_NoDup|]. split.
  { intros x. rewrite uniq_elem_of, elem_of_app. split; [tauto|].
    intros Hx. split; [done|]. intros ->. tauto. }
  assert (uniq (a ++ b) = fold_left set_add b a) as ->.
  { unfold uniq. rewrite filter_all.
    - by rewrite set_from_app, (set_from_fixed string_same_eq).
    - apply Forall_forall. intros x Hx. simpl.
      destruct (String.eqb x "") eqn:E; [|done].
      apply String.eqb_eq in E as ->. apply elem_of_app in Hx. tauto. }
  split; [apply add_all_prefix|].
  destruct (add_all_sublist b a) as (added & -> & Hsub).
  by rewrite drop_app_length.
Qed.

(** What a scalar merge leaves under [name]: the extra value when the
    merged one is falsy and the extra one is not, the merged one
    otherwise. *)
Definition merged_scalar (merged extra : Recipe) (name : string) : option JsVal :=
  if negb (truthy (field merged name)) && truthy (field extra name)
  then Some (field extra name)
  else merged !! name.

Lemma merge_scalar_lookup (extra merged : Recipe) (name k : string) :
  merge_scalar extra merged name !! k
  = if decide (k = name) then merged_scalar merged extra name else merged !! k.
Proof.
  unfold merge_scalar, merged_scalar.
  destruct (negb _ && _); destruct (decide (k = name)) as [->|Hne]; try done.
  - by rewrite lookup_insert_eq.
  - by rewrite lookup_insert_ne.
Qed.

Lemma merged_scalar_settled (extra merged : Recipe) (name : string) :
  merged_scalar (merge_scalar extra merged name) extra name
  = merged_scalar merged extra name.
Proof.
  unfold merged_scalar at 1. unfold field at 1.
  rewrite merge_scalar_lookup, decide_True by done.
  unfold merged_scalar.
  destruct (negb (truthy (field merged name)) && truthy (field extra name)) eqn:E.
  - apply andb_true_iff in E as [_ E]. simpl. by rewrite E.
  - fold (field merged name). by rewrite E.
Qed.

Lemma merge_scalars_lookup (extra : Recipe) (names : list string) :
  ∀ (merged : Recipe) (k : string),
    foldl (merge_scalar extra) merged names !! k
    = if bool_decide (k ∈ names) then merged_scalar merged extra k else merged !! k.
Proof.
  induction names as [|name names IH]; intros merged k; [done|].
  simpl. rewrite IH. destruct (decide (k = name)) as [->|Hne].
  - rewrite (bool_decide_eq_true_2 (name ∈ name :: names)) by set_solver.
    rewrite merged_scalar_settled.
    destruct (bool_decide _); [done|].
    by rewrite merge_scalar_lookup, decide_True.
  - assert (merged_scalar (merge_scalar extra merged name) extra k
            = merged_scalar merged extra k) as ->.
    { unfold merged_scalar, field. by rewrite merge_scalar_lookup, decide_False. }
    rewrite merge_scalar_lookup, decide_False by done.
    rewrite (bool_decide_ext (k ∈ name :: names) (k ∈ names)) by set_solver.
    done.
Qed.

Lemma field_Some (r : Recipe) (k : string) (v : JsVal) :
  r !! k = Some v → field r k = v.
Proof. unfold field. by intros ->. Qed.

Lemma field_None (r : Recipe) (k : string) : r !! k = None → field r k = JUndefined.
Proof. unfold field. by intros ->. Qed.

Lemma field_ext (r1 r2 : Recipe) (k : string) :
  r1 !! k = r2 !! k → field r1 k = field r2 k.
Proof. unfold field. by intros ->. Qed.

Lemma string_set_field_ext (r1 r2 : Recipe) (k : string) :
  r1 !! k = r2 !! k → string_set_field r1 k → string_set_field r2 k.
Proof. unfold string_set_field. by intros ->. Qed.

Lemma string_set_field_texts (r : Recipe) (name : string) :
  string_set_field r name →
  ∃ a, strings_of (field r name) = a ∧ NoDup a ∧ ("" ∉ a)
       ∧ spread (js_or (field r name) (JArr [])) = Ok (map JStr a).
Proof.
  intros [Hr|(a & Hr & Hnd & Hne)].
  - exists []. rewrite (field_None _ _ Hr). repeat split; try done.
    + apply NoDup_nil_2.
    + apply not_elem_of_nil.
  - exists a. rewrite (field_Some _ _ _ Hr), strings_of_texts. done.
Qed.

(** One list-valued field of two partial records. *)
Lemma merge_list_sets (extra merged : Recipe) (name : string) :
  string_set_field merged name → string_set_field extra name →
  ∃ merged',
    merge_list extra name merged = Ok merged'
    ∧ (∀ k, k ≠ name → merged' !! k = merged !! k)
    ∧ string_set_field merged' name
    ∧ strings_of (field merged' name)
      = uniq (strings_of (field merged name) ++ strings_of (field extra name))
    ∧ (is_Some (merged !! name) → is_Some (merged' !! name)).
Proof.
  intros Hm He. unfold merge_list.
  destruct (string_set_field_texts _ _ Hm) as (a & Ha & Hnda & Hnea & Hspread).
  assert (has_length (field extra name) = false →
          ∃ merged', Ok merged = Ok merged'
            ∧ (∀ k, k ≠ name → merged' !! k = merged !! k)
            ∧ string_set_field merged' name
            ∧ strings_of (field merged' name)
              = uniq (strings_of (field merged name) ++ [])
            ∧ (is_Some (merged !! name) → is_Some (merged' !! name))) as Hskip.
  { intros _. exists merged. rewrite app_nil_r, Ha, uniq_fixed by done. done. }
  destruct He as [He|(b & He & Hndb & Hneb)].
  { rewrite (field_None _ _ He) in *. by apply Hskip. }
  rewrite (field_Some _ _ _ He) in *. rewrite strings_of_texts.
  destruct b as [|b0 b]; [by apply Hskip|]. clear Hskip.
  change (has_length (JArr (map JStr (b0 :: b)))) with true. cbv iota.
  rewrite Hspread. cbn [spread mbind result_bind].
  rewrite <- map_app, uniq_texts.
  eexists. split; [done|]. split; [|split; [|split]].
  - intros k Hk. by rewrite lookup_insert_ne.
  - right. exists (uniq (a ++ b0 :: b)). rewrite lookup_insert_eq.
    split; [done|]. split; [apply uniq_NoDup|].
    rewrite uniq_elem_of. tauto.
  - rewrite field_insert, decide_True by done. by rewrite strings_of_texts, Ha.
  - intros _. rewrite lookup_insert_eq. eauto.
Qed.

(** The scalar fields and [nutrition]: the fields whose values [mergeRecipe]
    takes over as they are. *)
Definition scalar_fields : list string := merge_fields ++ [ "nutrition" ].

Ltac field_cases H :=
  unfold list_fields, scalar_fields, merge_fields in H;
  rewrite ?elem_of_app, ?elem_of_cons, ?elem_of_nil in H.

Ltac not_a_list_field :=
  unfold list_fields; rewrite !elem_of_cons, elem_of_nil;
  intros [?|[?|[?|[]]]]; subst; try discriminate; intuition discriminate.

(** The fields of a record of the data model, as the two extractors build
    it: the keys of the object literals in [extractRecipeFromJsonLd] and
    [parseHtmlRecipe].  The table inside [mergeRecipe] is not consulted. *)
Definition record_fields : list string :=
  [ "title"; "author"; "description"; "prep_time"; "cook_time"; "total_time";
    "servings"; "ingredients"; "instructions"; "tags"; "image_url"; "cuisine";
    "category"; "difficulty"; "date_published"; "rating_value"; "rating_count";
    "rating_best"; "rating_worst"; "nutrition" ].

(** Every field of the data model that is not a list is one that
    [mergeRecipe] takes over. *)
Lemma record_fields_scalar (name : string) :
  name ∈ record_fields → name ∉ list_fields → name ∈ scalar_fields.
Proof.
  unfold record_fields, list_fields, scalar_fields, merge_fields.
  rewrite !elem_of_app, !elem_of_cons, !elem_of_nil.
  intros Hrecord Hlist.
  repeat (destruct Hrecord as [->|Hrecord]; [tauto|]). done.
Qed.


(** A list-valued field that is absent or an array of texts.  Nothing is
    asked of the texts: the record that [extractRecipeFromJsonLd] builds has
    an ingredient as often as the page lists it. *)
Definition text_list_field (r : Recipe) (name : string) : Prop :=
  r !! name = None ∨ ∃ l, r !! name = Some (JArr (map JStr l)).

Definition ListsOfTexts (r : Recipe) : Prop :=
  ∀ name, name ∈ list_fields → text_list_field r name.

Lemma text_list_field_ext (r1 r2 : Recipe) (k : string) :
  r1 !! k = r2 !! k → text_list_field r1 k → text_list_field r2 k.
Proof. unfold text_list_field. by intros ->. Qed.

Lemma text_list_field_texts (r : Recipe) (name : string) :
  text_list_field r name →
  ∃ a, strings_of (field r name) = a
       ∧ spread (js_or (field r name) (JArr [])) = Ok (map JStr a)
       ∧ (has_length (field r name) = negb (bool_decide (a = []))).
Proof.
  intros [Hr|(a & Hr)].
  - exists []. by rewrite (field_None _ _ Hr).
  - exists a. rewrite (field_Some _ _ _ Hr), strings_of_texts.
    split; [done|]. split; [done|]. simpl. by destruct a.
Qed.

(** The union of two lists of texts, as [uniq] builds it; a text may occur
    twice in either list, and may be empty. *)
Lemma uniq_union_texts (a b : list string) :
  NoDup (uniq (a ++ b))
  ∧ (∀ x, x ∈ uniq (a ++ b) ↔ (x ∈ a ∨ x ∈ b) ∧ x ≠ "")
  ∧ uniq (a ++ b) `sublist_of` a ++ b
  ∧ uniq a `prefix_of` uniq (a ++ b)
  ∧ drop (length (uniq a)) (uniq (a ++ b)) `sublist_of` b.
Proof.
  split; [apply uniq_NoDup|]. split.
  { intros x. by rewrite uniq_elem_of, elem_of_app. }
  split; [apply uniq_sublist|].
  assert (uniq (a ++ b)
          = fold_left set_add (filter (λ x, elem_truthy x = true) b) (uniq a)) as ->.
  { unfold uniq. by rewrite filter_app, set_from_app. }
  split; [apply add_all_prefix|].
  destruct (add_all_sublist (filter (λ x, elem_truthy x = true) b) (uniq a))
    as (added & -> & Hsub).
  rewrite drop_app_length. etrans; [exact Hsub | apply sublist_filter].
Qed.

(** One list-valued field of two records. *)
Lemma merge_list_texts (extra merged : Recipe) (name : string) :
  text_list_field merged name → text_list_field extra name →
  ∃ merged',
    merge_list extra name merged = Ok merged'
    ∧ (∀ k, k ≠ name → merged' !! k = merged !! k)
    ∧ text_list_field merged' name
    ∧ (strings_of (field extra name) = [] → merged' !! name = merged !! name)
    ∧ (strings_of (field extra name) ≠ [] →
       strings_of (field merged' name)
       = uniq (strings_of (field merged name) ++ strings_of (field extra name)))
    ∧ (is_Some (merged !! name) → is_Some (merged' !! name)).
Proof.
  intros Hm He. unfold merge_list.
  destruct (text_list_field_texts _ _ Hm) as (a & Ha & Hspread & _).
  destruct (text_list_field_texts _ _ He) as (b & Hb & Hspread' & Hlen).
  rewrite Hlen, Ha, Hb. destruct b as [|b0 b].
  - exists merged. by rewrite bool_decide_eq_true_2.
  - rewrite bool_decide_eq_false_2 by done. cbn [negb].
    rewrite Hspread. cbn [mbind result_bind].
    assert (spread (field extra name) = Ok (map JStr (b0 :: b))) as ->.
    { destruct He as [He|(b' & He)].
      - by rewrite (field_None _ _ He) in Hb.
      - rewrite (field_Some _ _ _ He) in *. rewrite strings_of_texts in Hb.
        by subst b'. }
    cbn [mbind result_bind]. rewrite <- map_app, uniq_texts.
    eexists. split; [done|]. split; [|split; [|split; [|split]]].
    + intros k Hk. by rewrite lookup_insert_ne.
    + right. eexists. by rewrite lookup_insert_eq.
    + done.
    + intros _. rewrite field_insert, decide_True by done.
      by rewrite strings_of_texts.
    + intros _. rewrite lookup_insert_eq. eauto.
Qed.

(** C1, as the code has it.  For records [A] and [B] whose lists are lists
    of texts, [mergeRecipe] returns a record [M] of the same kind and does
    not throw.  A value of [A] that is present (truthy) stays.  For every
    scalar field of the data model, where [A] has no value and [B] has one,
    [M] has the one of [B].  A list to which [B] contributes nothing is the
    list of [A] as it is, a repeated text included; a list to which [B]
    contributes is the union of the non-empty texts of both without
    repetition, in the order of [A] followed by [B].  No field of [A] and no
    non-empty text of a list of [A] is removed. *)
Theorem mergeRecipe_union (A B : Recipe) :
  ListsOfTexts A → ListsOfTexts B →
  ∃ M, mergeRecipe (Some A) (Some B) = Ok M
    ∧ ListsOfTexts M
    ∧ (∀ name, name ∉ list_fields → truthy (field A name) = true →
         M !! name = A !! name)
    ∧ (∀ name, name ∈ record_fields → name ∉ list_fields →
         truthy (field A name) = false → truthy (field B name) = true →
         field M name = field B name)
    ∧ (∀ name, name ∈ list_fields →
         let a := strings_of (field A name) in
         let b := strings_of (field B name) in
         let m := strings_of (field M name) in
         (b = [] → M !! name = A !! name)
         ∧ (b ≠ [] →
            NoDup m ∧ (∀ x, x ∈ m ↔ (x ∈ a ∨ x ∈ b) ∧ x ≠ "")
            ∧ m `sublist_of` a ++ b
            ∧ uniq a `prefix_of` m
            ∧ drop (length (uniq a)) m `sublist_of` b)
         ∧ (∀ x, x ∈ a → x ≠ "" → x ∈ m))
    ∧ (∀ name, is_Some (A !! name) → is_Some (M !! name)).
Proof.
  intros HA HB. unfold mergeRecipe. cbn [from_option]. unfold id.
  set (M0 := foldl (merge_scalar B) A merge_fields).
  assert (∀ k, M0 !! k = if bool_decide (k ∈ merge_fields)
                         then merged_scalar A B k else A !! k) as HM0.
  { intros k. apply merge_scalars_lookup. }
  assert (∀ name, name ∈ list_fields → M0 !! name = A !! name) as Hlists0.
  { intros name Hname. rewrite HM0. field_cases Hname.
    destruct Hname as [->|[->|[->|[]]]]; done. }
  assert (∀ name, name ∈ list_fields → text_list_field M0 name) as Hwf0.
  { intros name Hname. unfold text_list_field. rewrite Hlists0 by done. by apply HA. }
  assert ("ingredients" ∈ list_fields ∧ "instructions" ∈ list_fields
          ∧ "tags" ∈ list_fields) as (Hin1 & Hin2 & Hin3).
  { unfold list_fields. set_solver. }
  destruct (merge_list_texts B M0 "ingredients")
    as (M1 & -> & Hk1 & Hwf1 & He1 & Hs1 & Hd1); [by apply Hwf0 | by apply HB |].
  cbn [mbind result_bind].
  destruct (merge_list_texts B M1 "instructions")
    as (M2 & -> & Hk2 & Hwf2 & He2 & Hs2 & Hd2);
    [unfold text_list_field; rewrite Hk1 by done; by apply Hwf0 | by apply HB |].
  cbn [mbind result_bind].
  destruct (merge_list_texts B M2 "tags")
    as (M3 & -> & Hk3 & Hwf3 & He3 & Hs3 & Hd3);
    [unfold text_list_field; rewrite Hk2, Hk1 by done; by apply Hwf0
    | by apply HB |].
  cbn [mbind result_bind].
  set (M := if truthy (field B "nutrition") && negb (truthy (field M3 "nutrition"))
            then <["nutrition" := field B "nutrition"]> M3 else M3).
  assert (∀ k, k ≠ "nutrition" → M !! k = M3 !! k) as Hk4.
  { intros k Hk. unfold M. destruct (_ && _); [|done]. by rewrite lookup_insert_ne. }
  assert (∀ k, k ∉ list_fields → M3 !! k = M0 !! k) as Hother.
  { intros k Hk. rewrite Hk3, Hk2, Hk1; [done|..]; by intros ->. }
  assert (M3 !! "nutrition" = A !! "nutrition") as Hnut.
  { rewrite Hother by not_a_list_field. by rewrite HM0. }
  assert (M !! "nutrition" = merged_scalar A B "nutrition") as Hnut'.
  { unfold M, merged_scalar, field. rewrite Hnut. fold (field A "nutrition").
    fold (field B "nutrition"). rewrite andb_comm.
    destruct (negb (truthy (field A "nutrition")) && truthy (field B "nutrition")).
    - apply lookup_insert_eq.
    - exact Hnut. }
  assert (∀ name, name ∈ list_fields → M !! name = M3 !! name) as HlistsM.
  { intros name Hname. apply Hk4. intros ->. field_cases Hname.
    destruct Hname as [?|[?|[?|[]]]]; discriminate. }
  assert (∀ name, name ∈ list_fields →
            text_list_field M name
            ∧ (strings_of (field B name) = [] → M !! name = A !! name)
            ∧ (strings_of (field B name) ≠ [] →
               strings_of (field M name)
               = uniq (strings_of (field A name) ++ strings_of (field B name)))
            ∧ (is_Some (A !! name) → is_Some (M !! name))) as Hlists.
  { intros name Hname. field_cases Hname.
    destruct Hname as [->|[->|[->|[]]]].
    - assert (M !! "ingredients" = M1 !! "ingredients") as E1
        by (rewrite HlistsM, Hk3, Hk2; done).
      assert (M0 !! "ingredients" = A !! "ingredients") as E0 by (by apply Hlists0).
      split; [exact (text_list_field_ext _ _ _ (eq_sym E1) Hwf1)|].
      split; [|split].
      + intros Hb. by rewrite E1, He1, E0.
      + intros Hb. by rewrite (field_ext _ _ _ E1), Hs1, (field_ext _ _ _ E0).
      + intros HA'. rewrite E1. apply Hd1. by rewrite E0.
    - assert (M !! "instructions" = M2 !! "instructions") as E1
        by (rewrite HlistsM, Hk3; done).
      assert (M1 !! "instructions" = A !! "instructions") as E0
        by (rewrite Hk1 by done; by apply Hlists0).
      split; [exact (text_list_field_ext _ _ _ (eq_sym E1) Hwf2)|].
      split; [|split].
      + intros Hb. by rewrite E1, He2, E0.
      + intros Hb. by rewrite (field_ext _ _ _ E1), Hs2, (field_ext _ _ _ E0).
      + intros HA'. rewrite E1. apply Hd2. by rewrite E0.
    - assert (M !! "tags" = M3 !! "tags") as E1 by (by rewrite HlistsM).
      assert (M2 !! "tags" = A !! "tags") as E0
        by (rewrite Hk2, Hk1 by done; by apply Hlists0).
      split; [exact (text_list_field_ext _ _ _ (eq_sym E1) Hwf3)|].
      split; [|split].
      + intros Hb. by rewrite E1, He3, E0.
      + intros Hb. by rewrite (field_ext _ _ _ E1), Hs3, (field_ext _ _ _ E0).
      + intros HA'. rewrite E1. apply Hd3. by rewrite E0. }
  assert (∀ k, k ∉ list_fields →
            M !! k = if bool_decide (k ∈ scalar_fields)
                     then merged_scalar A B k else A !! k) as Hscalars.
  { intros k Hk. destruct (decide (k = "nutrition")) as [->|Hn]; [by rewrite Hnut'|].
    rewrite Hk4, Hother, HM0 by done.
    rewrite (bool_decide_ext (k ∈ scalar_fields) (k ∈ merge_fields)); [done|].
    unfold scalar_fields. rewrite elem_of_app, list_elem_of_singleton. tauto. }
  exists M. split; [done|]. split; [|split; [|split; [|split]]].
  - intros name Hname. by apply Hlists.
  - intros name Hname HtA. rewrite Hscalars by done.
    destruct (bool_decide _); [|done]. unfold merged_scalar. by rewrite HtA.
  - intros name Hrecord Hname HfA HtB.
    assert (name ∈ scalar_fields) as Hscalar.
    { apply record_fields_scalar; done. }
    unfold field at 1. rewrite Hscalars by done.
    rewrite bool_decide_eq_true_2 by done.
    unfold merged_scalar. by rewrite HfA, HtB.
  - intros name Hname. cbv zeta.
    destruct (Hlists name Hname) as (_ & Hempty & Hunion & _).
    pose proof (uniq_union_texts (strings_of (field A name))
                  (strings_of (field B name))) as (Hnd & Hin & Hsub & Hpre & Hdrop).
    split; [exact Hempty|]. split.
    + intros Hb. rewrite (Hunion Hb). done.
    + intros x Hx Hne.
      destruct (decide (strings_of (field B name) = [])) as [Hb|Hb].
      * by rewrite (field_ext _ _ _ (Hempty Hb)).
      * rewrite (Hunion Hb). apply Hin. tauto.
  - intros name HA'.
    destruct (decide (name ∈ list_fields)) as [Hl|Hl]; [by apply Hlists|].
    rewrite Hscalars by done. destruct (bool_decide _); [|done].
    unfold merged_scalar.
    destruct (negb (truthy (field A name)) && truthy (field B name));
      [eauto | exact HA'].
Qed.

Lemma merge_scalars_self (R : Recipe) (names : list string) :
  foldl (merge_scalar R) R names = R.
Proof.
  induction names as [|name names IH]; [done|].
  simpl. unfold merge_scalar at 2.
  by destruct (truthy (field R name)).
Qed.

Lemma uniq_twice (l : list string) : NoDup l → "" ∉ l → uniq (l ++ l) = l.
Proof.
  intros Hnd Hne. unfold uniq. rewrite filter_all.
  - by apply (set_from_twice string_same_eq).
  - apply Forall_forall. intros x Hx. simpl.
    destruct (String.eqb x "") eqn:E; [|done].
    apply String.eqb_eq in E as ->. apply elem_of_app in Hx. tauto.
Qed.

Lemma merge_list_self (R : Recipe) (name : string) :
  string_set_field R name → merge_list R name R = Ok R.
Proof.
  intros [HR|(l & HR & Hnd & Hne)]; unfold merge_list.
  - by rewrite (field_None _ _ HR).
  - rewrite (field_Some _ _ _ HR). destruct l as [|x l]; [done|].
    change (has_length (JArr (map JStr (x :: l)))) with true.
    cbn [js_or truthy spread mbind result_bind]. cbv iota.
    rewrite <- map_app, uniq_texts, uniq_twice by done.
    by rewrite insert_id.
Qed.

(** C5.  Merging nothing into a record gives the record, and merging a
    partial record into itself gives it again. *)
Theorem mergeRecipe_idempotent (R : Recipe) :
  PartialRecord R →
  mergeRecipe (Some R) None = Ok R ∧ mergeRecipe (Some R) (Some R) = Ok R.
Proof.
  intros HR. split; [done|]. unfold mergeRecipe. cbn [from_option]. unfold id.
  rewrite merge_scalars_self.
  rewrite !merge_list_self by (apply HR; unfold list_fields; set_solver).
  cbn [mbind result_bind]. rewrite !merge_list_self by (apply HR; unfold list_fields; set_solver).
  cbn [mbind result_bind]. rewrite !merge_list_self by (apply HR; unfold list_fields; set_solver).
  cbn [mbind result_bind].
  by destruct (truthy (field R "nutrition")).
Qed.

(** Two partial records to try the merger on. *)
Definition structured_tart : Recipe :=
  list_to_map
    [ ("title", JStr "Lemon tart");
      ("author", JNull);
      ("ingredients", JArr [JStr "flour"; JStr "butter"]);
      ("instructions", JArr []);
      ("tags", JArr [JStr "dessert"]) ].

Definition markup_tart : Recipe :=
  list_to_map
    [ ("title", JStr "Tart");
      ("author", JStr "Ann");
      ("ingredients", JArr [JStr "butter"; JStr "lemon"]);
      ("instructions", JArr [JStr "Bake."]);
      ("tags", JArr []) ].

Lemma texts_field (r : Recipe) (name : string) (l : list string) :
  r !! name = Some (JArr (map JStr l)) →
  bool_decide (NoDup l ∧ "" ∉ l) = true → string_set_field r name.
Proof. intros Hr Hl. apply bool_decide_eq_true in Hl as [? ?]. right. eauto. Qed.

Lemma structured_tart_partial : PartialRecord structured_tart.
Proof.
  intros name Hname. field_cases Hname. destruct Hname as [->|[->|[->|[]]]].
  - by apply (texts_field _ _ ["flour"; "butter"]).
  - by apply (texts_field _ _ []).
  - by apply (texts_field _ _ ["dessert"]).
Qed.

Lemma markup_tart_partial : PartialRecord markup_tart.
Proof.
  intros name Hname. field_cases Hname. destruct Hname as [->|[->|[->|[]]]].
  - by apply (texts_field _ _ ["butter"; "lemon"]).
  - by apply (texts_field _ _ ["Bake."]).
  - by apply (texts_field _ _ []).
Qed.

Example merge_tarts :
  mergeRecipe (Some structured_tart) (Some markup_tart)
  = Ok (list_to_map
      [ ("title", JStr "Lemon tart");
        ("author", JStr "Ann");
        ("ingredients", JArr [JStr "flour"; JStr "butter"; JStr "lemon"]);
        ("instructions", JArr [JStr "Bake."]);
        ("tags", JArr [JStr "dessert"]) ]).
Proof. vm_compute. reflexivity. Qed.

Lemma partial_record_lists (r : Recipe) : PartialRecord r → ListsOfTexts r.
Proof.
  intros Hr name Hname. destruct (Hr name Hname) as [?|(l & ? & _)]; [by left|].
  right. eauto.
Qed.

(** An instance of C1's theorem: the title of the structured record stays,
    the author comes from the markup, the ingredients are joined, and the
    tags, to which the markup adds nothing, are those of the structured
    record. *)
Lemma mergeRecipe_union_witness :
  ListsOfTexts structured_tart ∧ ListsOfTexts markup_tart
  ∧ ∃ M, mergeRecipe (Some structured_tart) (Some markup_tart) = Ok M
      ∧ field M "title" = JStr "Lemon tart"
      ∧ field M "author" = JStr "Ann"
      ∧ (∀ x, x ∈ strings_of (field M "ingredients")
              ↔ (x ∈ ["flour"; "butter"] ∨ x ∈ ["butter"; "lemon"]) ∧ x ≠ "")
      ∧ NoDup (strings_of (field M "ingredients"))
      ∧ M !! "tags" = structured_tart !! "tags".
Proof.
  assert ("author" ∉ list_fields) as Hauthor by not_a_list_field.
  assert ("title" ∉ list_fields) as Htitle by not_a_list_field.
  assert ("author" ∈ record_fields) as Hrecord by (by repeat constructor).
  assert ("ingredients" ∈ list_fields ∧ "tags" ∈ list_fields) as [Hing Htags]
    by (split; by repeat constructor).
  pose proof (partial_record_lists _ structured_tart_partial) as HA.
  pose proof (partial_record_lists _ markup_tart_partial) as HB.
  split; [exact HA|]. split; [exact HB|].
  destruct (mergeRecipe_union structured_tart markup_tart HA HB)
    as (M & HM & _ & Hkept & Hadopted & Hlists & _).
  exists M. split; [exact HM|].
  destruct (Hlists "ingredients" Hing) as (_ & Hunion & _).
  destruct (Hlists "tags" Htags) as (Hempty & _).
  change (strings_of (field structured_tart "ingredients"))
    with ["flour"; "butter"] in Hunion.
  change (strings_of (field markup_tart "ingredients"))
    with ["butter"; "lemon"] in Hunion.
  destruct Hunion as (Hnd & Hin & _); [by intros [=]|].
  split; [|split; [|split; [|split]]].
  - unfold field. rewrite (Hkept "title" Htitle eq_refl). reflexivity.
  - rewrite (Hadopted "author" Hrecord Hauthor eq_refl eq_refl). reflexivity.
  - exact Hin.
  - exact Hnd.
  - apply Hempty. reflexivity.
Defined.

(** An instance of C5's theorem. *)
Lemma mergeRecipe_idempotent_witness :
  PartialRecord structured_tart
  ∧ mergeRecipe (Some structured_tart) None = Ok structured_tart
  ∧ mergeRecipe (Some structured_tart) (Some structured_tart) = Ok structured_tart.
Proof.
  split; [exact structured_tart_partial|].
  exact (mergeRecipe_idempotent structured_tart structured_tart_partial).
Defined.

(** ** Pagination *)

Section Pagination.
Context {RT : Runtime} (input : Input) (site : Site).

Lemma MAX_PAGES_positive : 1 ≤ MAX_PAGES input.
Proof. unfold MAX_PAGES. destruct (max_pages input); lia. Qed.

Definition page_in_range (request : Request) : Prop :=
  1 ≤ page_number request ≤ MAX_PAGES input.

Definition cont_in_range (k : Cont) : Prop :=
  match k with
  | AfterEnqueueDetails request _ | AfterPushUrls _ request _ => page_in_range request
  | AfterPushRecipe => True
  end.

(** Every listing page logged, every request queued and every suspended
    listing handler has a page number between 1 and [MAX_PAGES]. *)
Definition pages_in_range (w : World) : Prop :=
  Forall (λ n, 1 ≤ n ≤ MAX_PAGES input) (listing_log w)
  ∧ Forall page_in_range (queue w)
  ∧ Forall cont_in_range (suspended w).

Lemma detail_request_in_range (u : string) :
  page_in_range {| url := u; label := Some "DETAIL"; pageNo := None |}.
Proof.
  unfold page_in_range, page_number. simpl. pose proof MAX_PAGES_positive. lia.
Qed.

Lemma paginate_in_range (request : Request) (page : Page) (w : World) :
  page_in_range request → pages_in_range w →
  pages_in_range (paginate input request page w).
Proof.
  intros Hr (Hlog & Hq & Hs). unfold paginate.
  destruct (_ && _) eqn:Hc; [|done].
  destruct (findNextPage page (url request)) as [nextUrl|]; [|done].
  destruct (String.eqb nextUrl ""); [done|].
  apply andb_true_iff in Hc as [_ Hlt]. apply Z.ltb_lt in Hlt.
  split; [done|]. split; [|done]. simpl.
  apply Forall_app. split; [done|]. apply Forall_singleton.
  unfold page_in_range in *.
  set (n := page_number request) in *.
  assert (page_number {| url := nextUrl; label := Some "LIST"; pageNo := Some (n + 1) |}
          = n + 1) as ->; [|lia].
  unfold page_number. simpl.
  destruct (n + 1 =? 0) eqn:E; [apply Z.eqb_eq in E; lia | done].
Qed.

Lemma list_handler_in_range (request : Request) (page : Page) (w : World) :
  page_in_range request → pages_in_range w →
  pages_in_range (list_handler input request page w).
Proof.
  intros Hr (Hlog & Hq & Hs). unfold list_handler.
  assert (pages_in_range (set_listing_log (listing_log w ++ [page_number request]) w))
    as Hw1.
  { split; [|done]. simpl. apply Forall_app. split; [done|]. by apply Forall_singleton. }
  destruct (extractListLinks _ _) as [jsonLinks|]; [|done].
  destruct (findRecipeLinks _ _ _) as [htmlLinks seen].
  set (limited := if _ <? _ then _ else _). clearbody limited.
  destruct limited as [|u limited]; [by apply paginate_in_range|].
  destruct Hw1 as (Hlog1 & Hq1 & Hs1).
  destruct (collectDetails input); (split; [done|]); simpl.
  - split.
    + apply Forall_app. split; [done|].
      apply Forall_cons. split; [apply detail_request_in_range|].
      apply Forall_forall. intros r Hin. apply list_elem_of_In, in_map_iff in Hin.
      destruct Hin as (u' & <- & _). apply detail_request_in_range.
    + apply Forall_app. split; [done|]. by apply Forall_singleton.
  - split; [done|]. apply Forall_app. split; [done|]. by apply Forall_singleton.
Qed.

Lemma detail_handler_in_range (request : Request) (page : Page) (w : World) :
  pages_in_range w → pages_in_range (detail_handler input site request page w).
Proof.
  intros (Hlog & Hq & Hs). unfold detail_handler.
  destruct (_ <=? _); [done|].
  destruct (detail_item _ _ _ _); [|done].
  split; [done|]. split; [done|]. simpl.
  apply Forall_app. split; [done|]. by apply Forall_singleton.
Qed.

Lemma step_in_range (w w' : World) :
  step input site w w' → pages_in_range w → pages_in_range w'.
Proof.
  intros [c w0 w1 Hstep] (Hlog & Hq & Hs). destruct c as [i|j]; simpl in Hstep.
  - destruct (queue w0 !! i) as [request|] eqn:Hi; [|done].
    injection Hstep as <-.
    assert (page_in_range request) as Hr by (by eapply Forall_lookup_1).
    assert (pages_in_range (set_queue (delete i (queue w0)) w0)) as Hw.
    { split; [done|]. split; [|done]. simpl. by apply Forall_delete. }
    unfold start. destruct (document site (url request)) as [page|]; [|done].
    unfold requestHandler.
    destruct (String.eqb (request_label request) "LIST");
      [by apply list_handler_in_range|].
    destruct (String.eqb (request_label request) "DETAIL");
      [by apply detail_handler_in_range | done].
  - destruct (suspended w0 !! j) as [k|] eqn:Hj; [|done].
    injection Hstep as <-.
    assert (cont_in_range k) as Hk by (by eapply Forall_lookup_1).
    assert (pages_in_range (set_suspended (delete j (suspended w0)) w0)) as Hw.
    { split; [done|]. split; [done|]. simpl. by apply Forall_delete. }
    destruct k as [request page|pushed request page|]; simpl.
    + by apply paginate_in_range.
    + apply paginate_in_range; [done|]. by destruct Hw as (? & ? & ?).
    + by destruct Hw as (? & ? & ?).
Qed.

Lemma initial_in_range : pages_in_range (initial input).
Proof.
  split; [by apply Forall_nil|]. split; [|by apply Forall_nil].
  apply Forall_singleton. unfold page_in_range, page_number. simpl.
  pose proof MAX_PAGES_positive. lia.
Qed.

Lemma reachable_in_range (w : World) :
  reachable input site w → pages_in_range w.
Proof.
  unfold reachable. revert w.
  apply rtc_ind_r; [apply initial_in_range|].
  intros w w' _ Hstep IH. by eapply step_in_range.
Qed.

(** With a limit of one page: before the first listing page is handled the
    world is the initial one; afterwards the log holds that page alone and
    no listing request is ever queued again. *)
Definition detail_request (request : Request) : Prop :=
  label request = Some "DETAIL".

Definition halted_after_first (w : World) : Prop :=
  w = initial input
  ∨ (listing_log w `prefix_of` [1] ∧ Forall detail_request (queue w)).

Lemma paginate_at_limit (request : Request) (page : Page) (w : World) :
  MAX_PAGES input = 1 → page_in_range request →
  paginate input request page w = w.
Proof.
  intros Hmax Hr. unfold paginate, page_in_range in *.
  destruct (page_number request <? MAX_PAGES input) eqn:E;
    [apply Z.ltb_lt in E; lia|].
  by rewrite andb_false_r.
Qed.

Lemma list_handler_at_limit (request : Request) (page : Page) (w : World) :
  MAX_PAGES input = 1 → page_in_range request →
  listing_log w = [] → Forall detail_request (queue w) →
  listing_log (list_handler input request page w) = [1]
  ∧ Forall detail_request (queue (list_handler input request page w)).
Proof.
  intros Hmax Hr Hlog Hq. unfold list_handler.
  assert (page_number request = 1) as -> by (unfold page_in_range in Hr; lia).
  rewrite Hlog. simpl.
  destruct (extractListLinks _ _) as [jsonLinks|]; [|done].
  destruct (findRecipeLinks _ _ _) as [htmlLinks seen].
  set (limited := if _ <? _ then _ else _). clearbody limited.
  destruct limited as [|u limited]; [by rewrite paginate_at_limit|].
  destruct (collectDetails input); simpl; (split; [done|]); [|done].
  apply Forall_app. split; [done|].
  apply Forall_cons. split; [done|].
  apply Forall_forall. intros r Hin. apply list_elem_of_In, in_map_iff in Hin.
  by destruct Hin as (u' & <- & _).
Qed.

Lemma step_halted (w w' : World) :
  MAX_PAGES input = 1 → pages_in_range w → halted_after_first w →
  step input site w w' → halted_after_first w'.
Proof.
  intros Hmax Hrange Hhalt Hstep. destruct Hstep as [c w0 w1 Hstep].
  destruct Hrange as (Hlog & Hq & Hs). right.
  destruct c as [i|j]; simpl in Hstep.
  - destruct (queue w0 !! i) as [request|] eqn:Hi; [|done].
    injection Hstep as <-.
    assert (page_in_range request) as Hr by (by eapply Forall_lookup_1).
    unfold start. destruct Hhalt as [->|[Hpre Hdet]].
    + destruct i as [|i]; [|done]. injection Hi as <-. simpl.
      destruct (document site (startUrl input)) as [page|]; simpl.
      * unfold requestHandler. change (String.eqb _ "LIST") with true. cbv iota.
        destruct (list_handler_at_limit
                    {| url := startUrl input; label := Some "LIST"; pageNo := Some 1 |}
                    page (set_queue [] (initial input))) as [-> Hq']; try done.
      * split; [apply prefix_nil | done].
    + assert (detail_request request) as Hd by (by eapply Forall_lookup_1).
      assert (Forall detail_request (delete i (queue w0))) as Hdel
        by (by apply Forall_delete).
      destruct (document site (url request)) as [page|]; [|done].
      unfold requestHandler, request_label. rewrite Hd.
      change (String.eqb (if String.eqb "DETAIL" "" then "LIST" else "DETAIL") "LIST")
        with false.
      change (String.eqb (if String.eqb "DETAIL" "" then "LIST" else "DETAIL") "DETAIL")
        with true.
      cbv iota. unfold detail_handler.
      destruct (_ <=? _); [done|]. by destruct (detail_item _ _ _ _).
  - destruct (suspended w0 !! j) as [k|] eqn:Hj; [|done].
    injection Hstep as <-.
    assert (cont_in_range k) as Hk by (by eapply Forall_lookup_1).
    destruct Hhalt as [->|[Hpre Hdet]]; [done|].
    destruct k as [request page|pushed request page|]; simpl in *;
      rewrite ?paginate_at_limit by done; done.
Qed.

Lemma reachable_halted (w : World) :
  MAX_PAGES input = 1 → reachable input site w → halted_after_first w.
Proof.
  intros Hmax Hreach.
  assert (pages_in_range w ∧ halted_after_first w) as [_ ?]; [|done].
  revert w Hreach. apply rtc_ind_r.
  - split; [apply initial_in_range | by left].
  - intros w w' _ Hstep [Hrange Hhalt].
    split; [by eapply step_in_range | by eapply step_halted].
Qed.

Lemma run_reachable (schedule : list Choice) :
  reachable input site (run input site schedule (initial input)).
Proof.
  unfold run, reachable.
  induction schedule as [|c schedule IH] using rev_ind; [done|].
  rewrite fold_left_app. simpl.
  destruct (step_with _ _ c _) as [w'|] eqn:Hstep; [|done].
  eapply rtc_r; [exact IH|]. by econstructor.
Qed.

(** C6.  In every world the crawl can reach, under any scheduling of its
    handlers: each listing page handled and each request queued has a page
    number of at most [MAX_PAGES]; the listing handler queues nothing for a
    page whose number is not below [MAX_PAGES]; and with a limit of one
    page, only page 1 is ever handled and, once it is, the queue holds
    detail requests alone, whatever next-page link the page has and
    whatever is left of the results budget. *)
Theorem listing_stops_at_max_pages (w : World) :
  reachable input site w →
  Forall (λ n, 1 ≤ n ≤ MAX_PAGES input) (listing_log w)
  ∧ Forall (λ request, page_number request ≤ MAX_PAGES input) (queue w)
  ∧ (∀ request page w0,
       MAX_PAGES input ≤ page_number request →
       paginate input request page w0 = w0)
  ∧ (MAX_PAGES input = 1 →
       listing_log w `prefix_of` [1]
       ∧ (listing_log w = [1] → Forall detail_request (queue w))).
Proof.
  intros Hreach.
  destruct (reachable_in_range w Hreach) as (Hlog & Hq & _).
  split; [done|]. split.
  { eapply Forall_impl; [exact Hq|]. intros r [_ ?]. done. }
  split.
  { intros request page w0 Hge. unfold paginate.
    destruct (page_number request <? MAX_PAGES input) eqn:E;
      [apply Z.ltb_lt in E; lia|].
    by rewrite andb_false_r. }
  intros Hmax. destruct (reachable_halted w Hmax Hreach) as [->|[Hpre Hdet]].
  - split; [apply prefix_nil | done].
  - done.
Qed.

End Pagination.

(** * Runs on the reference runtime *)

(** A listing document: its metadata blocks, the addresses of its recipe
    anchors and of its [rel="next"] link. *)
Definition listing_page (scripts : list string) (hrefs : list (option string))
    (next : option string) : Page :=
  {| ld_json_scripts := scripts; recipe_anchor_hrefs := hrefs;
     rel_next_href := next; aria_next_href := None; button_next_href := None;
     anchors := []; h1_text := EmptyString; headline_text := EmptyString;
     rel_author_text := EmptyString; byline_text := EmptyString;
     dek_text := EmptyString; meta_description := None;
     servings_text := EmptyString; meta_recipe_yield := None;
     ingredient_texts := []; instruction_texts := [];
     prep_time_itemprop := EmptyString; prep_time_text := EmptyString;
     cook_time_itemprop := EmptyString; cook_time_text := EmptyString;
     total_time_itemprop := EmptyString; total_time_text := EmptyString;
     og_image := None; recipe_img_src := None; tag_texts := [] |}.

(** A recipe document: its metadata blocks, its heading and the texts of
    its ingredient and instruction elements. *)
Definition recipe_page (scripts : list string) (h1 : string)
    (ingredients instructions : list string) : Page :=
  {| ld_json_scripts := scripts; recipe_anchor_hrefs := [];
     rel_next_href := None; aria_next_href := None; button_next_href := None;
     anchors := []; h1_text := h1; headline_text := EmptyString;
     rel_author_text := EmptyString; byline_text := EmptyString;
     dek_text := EmptyString; meta_description := None;
     servings_text := EmptyString; meta_recipe_yield := None;
     ingredient_texts := ingredients; instruction_texts := instructions;
     prep_time_itemprop := EmptyString; prep_time_text := EmptyString;
     cook_time_itemprop := EmptyString; cook_time_text := EmptyString;
     total_time_itemprop := EmptyString; total_time_text := EmptyString;
     og_image := None; recipe_img_src := None; tag_texts := [] |}.

(** A site given by the documents at its addresses; no alternate address
    answers. *)
Definition site_of (pages : list (string * Page)) : Site :=
  {| document := λ u, snd <$> List.find (λ entry, String.eqb (fst entry) u) pages;
     gotScraping := λ _, AltThrows;
     now := "2024-12-05T10:30:00.000Z" |}.

Definition list_url : string := "https://www.epicurious.com/recipes-menus/list".
Definition list_url_2 : string := "https://www.epicurious.com/recipes-menus/list?page=2".
Definition tart_url : string := "https://www.epicurious.com/recipes/food/views/lemon-tart".
Definition soup_url : string := "https://www.epicurious.com/recipes/food/views/leek-soup".

Definition crawl_input (wanted pages : Z) (details : bool) : Input :=
  {| startUrl := list_url; recipeType := "vegetarian";
     results_wanted := NumFinite wanted; max_pages := NumFinite pages;
     collectDetails_raw := Some details; dedupe := true |}.

(** ** One page at most *)

Definition two_page_site : Site :=
  site_of
    [ (list_url, listing_page [] [Some "/recipes/food/views/lemon-tart"]
                   (Some "/recipes-menus/list?page=2"));
      (list_url_2, listing_page [] [Some "/recipes/food/views/leek-soup"] None);
      (tart_url, recipe_page [] "Lemon Tart" ["flour"] ["Bake."]);
      (soup_url, recipe_page [] "Leek Soup" ["leeks"] ["Simmer."]) ].

Example one_page_run :
  let w := run (crawl_input 10 1 false) two_page_site [Start 0; Resume 0]
             (initial (crawl_input 10 1 false)) in
  listing_log w = [1] ∧ queue w = [] ∧ saved w = 1
  ∧ findNextPage (listing_page [] [] (Some "/recipes-menus/list?page=2")) list_url
    = Some list_url_2.
Proof. vm_compute. done. Qed.

(** An instance of C6's theorem: with [max_pages = 1], a first page that
    has a next-page link, and nine results still wanted. *)
Lemma listing_stops_at_max_pages_witness :
  let input := crawl_input 10 1 false in
  let w := run input two_page_site [Start 0; Resume 0] (initial input) in
  reachable input two_page_site w
  ∧ Forall (λ n, 1 ≤ n ≤ MAX_PAGES input) (listing_log w)
  ∧ listing_log w `prefix_of` [1].
Proof.
  intros input w.
  pose proof (run_reachable input two_page_site [Start 0; Resume 0]) as Hreach.
  destruct (listing_stops_at_max_pages input two_page_site w Hreach)
    as (Hlog & _ & _ & Hone).
  split; [exact Hreach|]. split; [exact Hlog|].
  exact (proj1 (Hone eq_refl)).
Defined.

(** ** The results budget under interleaving *)

(** C3, a run that breaks the claim.  One record is wanted.  Each of two
    listing pages queues one detail request, since nothing has been saved
    yet.  Both detail handlers pass the guard [saved >= RESULTS_WANTED]
    before either has counted its record, which a handler does only after
    [await Dataset.pushData(item)]: two records are emitted. *)
Definition overshoot_schedule : list Choice :=
  [ Start 0; Resume 0; Start 1; Resume 0; Start 0; Start 0; Resume 0; Resume 0 ].

Example budget_overshoot_interleaved :
  let input := crawl_input 1 2 true in
  let w := run input two_page_site overshoot_schedule (initial input) in
  RESULTS_WANTED input = 1
  ∧ length (dataset w) = 2%nat
  ∧ saved w = 2
  ∧ map (λ item, field item "title") (dataset w)
    = [JStr "Lemon Tart"; JStr "Leek Soup"].
Proof. vm_compute. done. Qed.

(** The same requests with each handler run to its end before the next
    starts: the second detail request is dropped at the guard. *)
Example budget_kept_in_sequence :
  let input := crawl_input 1 2 true in
  let w := run input two_page_site
             [ Start 0; Resume 0; Start 1; Resume 0; Start 0; Resume 0; Start 0 ]
             (initial input) in
  length (dataset w) = 1%nat ∧ saved w = 1 ∧ queue w = [] ∧ suspended w = [].
Proof. vm_compute. done. Qed.

(** ** Locators that come from the metadata *)

Definition tart_item_list : string :=
  Reference.json
    "{'@type': 'ItemList', 'itemListElement': [{'url': 'https://www.epicurious.com/recipes/food/views/lemon-tart'}]}".

Definition repeating_site : Site :=
  site_of
    [ (list_url, listing_page [tart_item_list] [] (Some "/recipes-menus/list?page=2"));
      (list_url_2, listing_page [tart_item_list] [] None) ].

(** C2, a run that breaks the claim.  With [dedupe] on, two listing pages
    name the same recipe in their metadata.  [extractListLinks] neither
    asks [seenUrls] nor adds to it, so the locator is admitted on both
    pages, and with [collectDetails] off it is emitted twice. *)
Example metadata_locator_admitted_twice :
  let input := crawl_input 10 2 false in
  let w := run input repeating_site [Start 0; Resume 0; Start 0; Resume 0]
             (initial input) in
  dedupe input = true
  ∧ map (λ item, field item "url") (dataset w) = [JStr tart_url; JStr tart_url]
  ∧ seenUrls w = Some ∅.
Proof. vm_compute. done. Qed.

(** The same two pages with the recipe in an anchor instead: the second
    page admits nothing. *)
Definition repeating_anchor_site : Site :=
  site_of
    [ (list_url, listing_page [] [Some "/recipes/food/views/lemon-tart"]
                   (Some "/recipes-menus/list?page=2"));
      (list_url_2, listing_page [] [Some "/recipes/food/views/lemon-tart?ref=next"] None) ].

Example anchor_locator_admitted_once :
  let input := crawl_input 10 2 false in
  let w := run input repeating_anchor_site [Start 0; Resume 0; Start 0; Resume 0]
             (initial input) in
  map (λ item, field item "url") (dataset w) = [JStr tart_url]
  ∧ listing_log w = [1; 2].
Proof. vm_compute. done. Qed.

(** ** An emitted title that is empty *)

Definition nameless_recipe : string :=
  Reference.json "{'@type': 'Recipe', 'name': [], 'recipeIngredient': ['flour']}".

Definition nameless_site : Site :=
  site_of
    [ (list_url, listing_page [] [Some "/recipes/food/views/lemon-tart"] None);
      (tart_url, recipe_page [nameless_recipe] "Lemon Tart" [] ["Bake."]) ].

(** C7, a run that breaks the claim.  The metadata of a recipe page gives
    [name] as an empty array.  [normalize] returns the empty array, which is
    truthy: the heading of the page does not replace it in [mergeRecipe],
    the record counts as core-complete, the fallback [if (!recipe.title)]
    does not apply, and the record is emitted with the title [[]]. *)
Example empty_array_title_emitted :
  let input := crawl_input 10 1 true in
  let w := run input nameless_site [Start 0; Resume 0; Start 0; Resume 0]
             (initial input) in
  map (λ item, (field item "title", field item "url", field item "ingredients_count"))
      (dataset w)
  = [(JArr [], JStr tart_url, JNum "1")].
Proof. vm_compute. done. Qed.


(** * Further properties of the code *)

(** ** [normalize] *)

Lemma collapse_from_fixed (b : bool) (s : string) :
  spaced_to_end b s = true → Js.collapse_from b s = s.
Proof.
  revert b. induction s as [|a s IH]; intros b; simpl; [done|].
  destruct (Js.is_space a) eqn:Ha.
  - rewrite !andb_true_iff. intros [[Hb Hsp] Hs].
    apply negb_true_iff in Hb as ->. apply Ascii.eqb_eq in Hsp as ->.
    by rewrite (IH true).
  - intros Hs. by rewrite (IH false).
Qed.

Lemma trim_start_fixed (s : string) :
  spaced_to_end true s = true → Js.trim_start s = s.
Proof.
  destruct s as [|a s]; simpl; [done|].
  destruct (Js.is_space a); [done | done].
Qed.

Lemma trim_end_fixed (b : bool) (s : string) :
  spaced_to_end b s = true → Js.trim_end s = s.
Proof.
  revert b. induction s as [|a s IH]; intros b; simpl; [done|].
  intros Hs.
  assert (∃ b', spaced_to_end b' s = true ∧ (s = "" → Js.is_space a = false))
    as (b' & Hs' & Hlast).
  { destruct (Js.is_space a) eqn:Ha.
    - apply andb_true_iff in Hs as [_ Hs]. exists true. split; [done|].
      intros ->. done.
    - exists false. done. }
  rewrite (IH b' Hs'). destruct s as [|c s]; [|done].
  by rewrite Hlast.
Qed.

Lemma normalize_text_fixed (t : string) :
  normalized_text t → normalize_text t = JStr t.
Proof.
  intros Ht. unfold normalize_text, Js.trim, Js.collapse_ws.
  rewrite (collapse_from_fixed false).
  - rewrite trim_start_fixed, (trim_end_fixed true) by done.
    destruct t; [done | done].
  - destruct t as [|a t]; [done|]. unfold normalized_text in Ht. simpl in *.
    destruct (Js.is_space a); [done | done].
Qed.

Lemma normalize_array (l : list JsVal) :
  normalize (JArr l) = JArr (filter (λ x, truthy x = true) (map normalize l)).
Proof. reflexivity. Qed.

Lemma normalize_of_text (s : string) :
  normalize (JStr s) = if String.eqb s "" then JNull else normalize_text s.
Proof. simpl. by destruct (String.eqb s ""). Qed.

Lemma normalize_text_again (s : string) :
  normalize (normalize_text s) = normalize_text s.
Proof.
  destruct (normalize_text_cases s) as [->|(t & -> & Ht)]; [done|].
  rewrite normalize_of_text.
  rewrite (eqb_string_false t "") by (by apply normalized_text_nonempty).
  by apply normalize_text_fixed.
Qed.

(** The values [normalize] produces: [null], a normalized text, or an array
    of such values none of which is [null]. *)
Inductive normal_value : JsVal → Prop :=
  | normal_null : normal_value JNull
  | normal_text t : normalized_text t → normal_value (JStr t)
  | normal_array l :
      Forall (λ x, truthy x = true ∧ normal_value x) l → normal_value (JArr l).

Lemma normalize_text_normal (s : string) : normal_value (normalize_text s).
Proof.
  destruct (normalize_text_cases s) as [->|(t & -> & Ht)]; by constructor.
Qed.

Lemma normalize_normal_fixed (value : JsVal) :
  normal_value (normalize value)
  ∧ normalize (normalize value) = normalize value.
Proof.
  induction value as [| |b|r|s|l IH|ps IH] using JsVal_deep_ind.
  - split; [constructor | done].
  - split; [constructor | done].
  - destruct b; (split; [|done]); cbn; by repeat constructor.
  - assert (normalize (JNum r)
            = if truthy (JNum r) then normalize_text r else JNull) as ->.
    { cbn -[normalize_text]. by destruct (String.eqb r "0" || String.eqb r "NaN"). }
    destruct (truthy (JNum r)).
    + split; [apply normalize_text_normal | apply normalize_text_again].
    + split; [constructor | done].
  - rewrite normalize_of_text. destruct (String.eqb s "").
    + split; [constructor | done].
    + split; [apply normalize_text_normal | apply normalize_text_again].
  - rewrite normalize_array.
    assert (Forall (λ x, truthy x = true ∧ normal_value x)
              (filter (λ x, truthy x = true) (map normalize l))
            ∧ map normalize (filter (λ x, truthy x = true) (map normalize l))
              = filter (λ x, truthy x = true) (map normalize l)) as [Hall Hfix].
    { induction IH as [|x l [Hx1 Hx2] _ [IH1 IH2]]; [by split|].
      change (map normalize (x :: l)) with (normalize x :: map normalize l).
      rewrite filter_cons. destruct (decide (truthy (normalize x) = true)) as [Ht|Ht].
      - split; [by constructor|].
        change (map normalize (normalize x :: ?k)) with
          (normalize (normalize x) :: map normalize k).
        by rewrite Hx2, IH2.
      - by split. }
    split; [by constructor|].
    rewrite normalize_array, Hfix. f_equal.
    apply filter_all. eapply Forall_impl; [exact Hall|]. by intros x [? _].
  - split; [|done]. cbn. by repeat constructor.
Qed.

(** X1.  [normalize] gives a value in normal form ([null], a text that is
    not empty, has no white space at its ends and only single spaces
    inside, or an array of such values without [null]), and it leaves its
    own results as they are. *)
Theorem normalize_normal_form (value : JsVal) :
  normal_value (normalize value)
  ∧ normalize (normalize value) = normalize value.
Proof. exact (normalize_normal_fixed value). Qed.

(** ** [uniq] on texts *)

(** X2.  On texts (addresses, ingredient lines), [uniq] keeps no text
    twice, keeps exactly the non-empty texts of its input, keeps them in the
    order of the input, and leaves its own results as they are. *)
Theorem uniq_texts_set (l : list string) :
  NoDup (uniq l)
  ∧ (∀ x, x ∈ uniq l ↔ x ∈ l ∧ x ≠ "")
  ∧ uniq l `sublist_of` l
  ∧ uniq (uniq l) = uniq l.
Proof.
  split; [apply uniq_NoDup|]. split; [apply uniq_elem_of|].
  split; [apply uniq_sublist|].
  apply uniq_fixed; [apply uniq_NoDup|].
  rewrite uniq_elem_of. tauto.
Qed.

(** ** The limits read from the input *)

(** X3.  Whatever the input holds for [results_wanted] and [max_pages]
    (nothing, zero, a negative number, something that is not a number), the
    crawl runs with limits of at least one result and one page; a finite
    limit of at least one is taken as it is. *)
Theorem limits_at_least_one (input : Input) :
  1 ≤ RESULTS_WANTED input
  ∧ 1 ≤ MAX_PAGES input
  ∧ (∀ n, results_wanted input = NumFinite n → 1 ≤ n → RESULTS_WANTED input = n)
  ∧ (∀ n, max_pages input = NumFinite n → 1 ≤ n → MAX_PAGES input = n).
Proof.
  unfold RESULTS_WANTED, MAX_PAGES, MAX_SAFE_INTEGER.
  destruct (results_wanted input), (max_pages input);
    repeat split; try lia; intros ? [= <-] ?; lia.
Qed.

(** ** [pickImage] *)

Lemma or_null_cases (v : JsVal) :
  js_or v JNull = JNull ∨ truthy (js_or v JNull) = true.
Proof. unfold js_or. destruct (truthy v) eqn:E; [right; exact E | by left]. Qed.

(** X4.  [pickImage] returns [null] or a truthy value, never [undefined],
    an empty text or zero; a non-empty text is its own image, and an array
    gives what its first element with an image gives. *)
Theorem pickImage_null_or_truthy (image : JsVal) :
  (pickImage image = JNull ∨ truthy (pickImage image) = true)
  ∧ (∀ s, image = JStr s → s ≠ "" → pickImage image = image)
  ∧ (∀ before img after,
       image = JArr (before ++ img :: after) →
       Forall (λ x, pickImage x = JNull) before →
       truthy (pickImage img) = true →
       pickImage image = pickImage img).
Proof.
  split; [|split].
  - induction image as [| |b|r|s|l IH|ps IH] using JsVal_deep_ind;
      try (by left).
    + cbn. destruct (negb (String.eqb s "")) eqn:E; [right | by left].
      cbn. by rewrite E.
    + cbn [pickImage].
      induction IH as [|x l Hx _ IHl]; [by left|].
      destruct (truthy (pickImage x)) eqn:E; [right; exact E | exact IHl].
    + apply or_null_cases.
  - intros s -> Hs. cbn. by rewrite (eqb_string_false s "").
  - intros before img after -> Hbefore Himg. cbn [pickImage].
    induction Hbefore as [|x l Hx _ IHl]; simpl.
    + by rewrite Himg.
    + by rewrite Hx.
Qed.

(** ** Links of a listing page *)

Lemma has_char_split_head (c d : ascii) (s : string) :
  has_char c s = false → has_char c (Js.split_head d s) = false.
Proof.
  induction s as [|a s IH]; [done|]. simpl.
  rewrite split_head_cons. intros Hs. apply orb_false_iff in Hs as [Ha Hs].
  destruct (Ascii.eqb a d); [done|]. simpl. by rewrite Ha, IH.
Qed.

Section ListingLinks.
Context {RT : Runtime}.

(** A link that [extractListLinks] accepts. *)
Definition recipe_link_ok (u : string) : Prop :=
  u ≠ "" ∧ is_recipe_path u = true ∧ has_char "#" u = false.

Lemma list_entry_links (base : string) (urls urls' : list string) (entry : JsVal) :
  list_entry base urls entry = Ok urls' →
  Forall recipe_link_ok urls → Forall recipe_link_ok urls'.
Proof.
  unfold list_entry. intros Hentry Hurls.
  assert (∀ raw, match toAbs (to_string raw) base with
                 | Some url =>
                     if negb (String.eqb url "") && is_recipe_path url
                     then Ok (urls ++ [url]) else Ok urls
                 | None => Ok urls
                 end = Ok urls' → Forall recipe_link_ok urls') as Hraw.
  { intros raw. destruct (toAbs (to_string raw) base) as [u|] eqn:Hu;
      [|by intros [= <-]].
    destruct (negb (String.eqb u "") && is_recipe_path u) eqn:Hc;
      [|by intros [= <-]].
    intros [= <-]. apply Forall_app. split; [done|]. apply Forall_singleton.
    apply andb_true_iff in Hc as [Hne Hpath].
    repeat split; [|done|by eapply toAbs_no_fragment].
    intros ->. done. }
  destruct entry; try done; by eapply Hraw.
Qed.

Lemma list_entries_links (base : string) (entries : list JsVal) :
  ∀ acc urls',
    foldl (λ acc entry, urls ← acc; list_entry base urls entry) acc entries = Ok urls' →
    (∀ urls, acc = Ok urls → Forall recipe_link_ok urls) →
    Forall recipe_link_ok urls'.
Proof.
  induction entries as [|entry entries IH]; intros acc urls' Hfold Hacc; simpl in Hfold.
  - by apply Hacc.
  - eapply IH; [exact Hfold|]. intros urls Hurls.
    destruct acc as [urls0|]; [|done]. simpl in Hurls.
    eapply list_entry_links; [exact Hurls | by apply Hacc].
Qed.

Lemma list_node_links (base : string) (urls urls' : list string) (node : JsVal) :
  list_node base urls node = Ok urls' →
  Forall recipe_link_ok urls → Forall recipe_link_ok urls'.
Proof.
  unfold list_node. intros Hnode Hurls.
  destruct (negb (truthy node)); [by injection Hnode as <-|].
  destruct (get node "itemListElement") as [| | | | |entries|];
    try by injection Hnode as <-.
  destruct (type_is _ _); [|by injection Hnode as <-].
  eapply list_entries_links; [exact Hnode|]. by intros ? [= <-].
Qed.

Lemma extractListLinks_links (jsonNodes : list JsVal) (base : string)
    (urls : list string) :
  extractListLinks jsonNodes base = Ok urls → Forall recipe_link_ok urls.
Proof.
  intros Hlinks. unfold extractListLinks in Hlinks.
  assert (∀ acc,
            foldl (λ acc node, urls ← acc; list_node base urls node) acc jsonNodes
            = Ok urls →
            (∀ urls0, acc = Ok urls0 → Forall recipe_link_ok urls0) →
            Forall recipe_link_ok urls) as Hgen.
  { clear Hlinks. induction jsonNodes as [|node nodes IH]; intros acc Hfold Hacc;
      simpl in Hfold.
    - by apply Hacc.
    - eapply IH; [exact Hfold|]. intros urls0 Hurls0.
      destruct acc as [urls1|]; [|done]. simpl in Hurls0.
      eapply list_node_links; [exact Hurls0 | by apply Hacc]. }
  eapply Hgen; [exact Hlinks|]. by intros ? [= <-].
Qed.

(** X5.  Every address [extractListLinks] returns is non-empty, contains the
    recipe path [/recipes/food/views/] and has no fragment; without nodes it
    returns no address. *)
Theorem extractListLinks_recipe_links (jsonNodes : list JsVal) (base : string)
    (urls : list string) :
  extractListLinks jsonNodes base = Ok urls →
  Forall recipe_link_ok urls ∧ (jsonNodes = [] → urls = []).
Proof.
  intros Hlinks. split; [by eapply extractListLinks_links|].
  by intros ->; injection Hlinks as <-.
Qed.

Lemma foldl_throw {A B} (f : A → B → result A) (l : list B) :
  foldl (λ acc x, a ← acc; f a x) Throw l = Throw.
Proof. induction l as [|x l IH]; [done|]. exact IH. Qed.

(** An item list with its entries. *)
Definition item_list_node (node : JsVal) (entries : list JsVal) : Prop :=
  truthy node = true
  ∧ type_is "ItemList" (js_or (get node "@type") (get node "type")) = true
  ∧ get node "itemListElement" = JArr entries.

Lemma list_entries_null (base : string) (entries : list JsVal) :
  JNull ∈ entries →
  ∀ acc, foldl (λ acc entry, urls ← acc; list_entry base urls entry) acc entries
         = Throw.
Proof.
  intros Hnull. induction entries as [|entry entries IH];
    [by apply elem_of_nil in Hnull|].
  intros acc. simpl. apply elem_of_cons in Hnull as [<-|Hin].
  - destruct acc; simpl; apply foldl_throw.
  - by apply IH.
Qed.

(** X6.  An item list that has [null] among its entries makes
    [extractListLinks] throw, wherever the list stands among the nodes and
    whatever the other entries and nodes are. *)
Theorem extractListLinks_null_entry (before after : list JsVal) (node : JsVal)
    (entries : list JsVal) (base : string) :
  item_list_node node entries → JNull ∈ entries →
  extractListLinks (before ++ node :: after) base = Throw.
Proof.
  intros (Hnode & Htype & Hentries) Hnull. unfold extractListLinks.
  rewrite foldl_app. simpl.
  assert (∀ acc, (urls ← acc; list_node base urls node) = Throw) as ->.
  { intros [urls|]; [|done]. simpl. unfold list_node.
    rewrite Hnode, Hentries, Htype. simpl. by apply list_entries_null. }
  apply foldl_throw.
Qed.
End ListingLinks.

Section AnchorLinks.
Context {RT : Runtime}.

(** What [findRecipeLinks] keeps true of its local set [urls] and of the
    shared set, [seen0] being the shared set at the start. *)
Definition links_fresh (seen0 : option (gset string))
    (st : list string * option (gset string)) : Prop :=
  NoDup st.1
  ∧ Forall (λ u, has_char "?" u = false ∧ has_char "#" u = false) st.1
  ∧ match seen0, st.2 with
    | Some s0, Some s => s = s0 ∪ list_to_set st.1 ∧ Forall (λ u, u ∉ s0) st.1
    | None, None => True
    | _, _ => False
    end.

Lemma recipe_link_fresh (base : string) (seen0 : option (gset string))
    (st : list string * option (gset string)) (href : option string) :
  links_fresh seen0 st → links_fresh seen0 (recipe_link base st href).
Proof.
  destruct st as [urls seen]. intros (Hnd & Hclean & Hseen). unfold recipe_link.
  destruct href as [href|]; [|done].
  destruct (String.eqb href ""); [done|].
  destruct (toAbs href base) as [abs|] eqn:Habs; [|done].
  destruct (String.eqb abs ""); [done|].
  destruct (is_recipe_path abs); [|done].
  set (clean := Js.split_head "?" abs).
  assert (has_char "?" clean = false ∧ has_char "#" clean = false) as Hc.
  { split; [apply split_head_no_char|].
    apply has_char_split_head. by eapply toAbs_no_fragment. }
  simpl in Hnd, Hclean, Hseen.
  assert (∀ s : gset string, NoDup (set_add urls clean)
               ∧ Forall (λ u, has_char "?" u = false ∧ has_char "#" u = false)
                        (set_add urls clean)
               ∧ (clean ∉ s → Forall (λ u, u ∉ s) urls →
                  Forall (λ u, u ∉ s) (set_add urls clean))
               ∧ list_to_set (set_add urls clean)
                 =@{gset string} {[clean]} ∪ list_to_set urls) as Hadd.
  { intros s. split; [by apply (set_add_NoDup string_same_eq)|].
    destruct (set_has_cases string_same_eq clean urls) as [Hin|Hout].
    - rewrite (set_add_old string_same_eq) by done.
      split; [done|]. split; [done|]. set_solver.
    - rewrite (set_add_new string_same_eq) by done.
      split; [apply Forall_app; split; [done | by apply Forall_singleton]|].
      split.
      + intros ? ?. apply Forall_app. split; [done | by apply Forall_singleton].
      + rewrite list_to_set_app_L. set_solver. }
  destruct seen0 as [s0|], seen as [s|]; try done.
  - destruct Hseen as [-> Hfresh].
    destruct (bool_decide (clean ∈ s0 ∪ list_to_set urls)) eqn:Hmem; [done|].
    apply bool_decide_eq_false in Hmem.
    destruct (Hadd s0) as (? & ? & Hnew & Hset).
    split; [done|]. split; [done|]. simpl. split.
    + rewrite Hset. set_solver.
    + apply Hnew; [set_solver | done].
  - destruct (Hadd ∅) as (? & ? & _). done.
Qed.

Lemma recipe_links_fresh (base : string) (seen : option (gset string))
    (hrefs : list (option string)) :
  links_fresh seen (fold_left (recipe_link base) hrefs ([], seen)).
Proof.
  assert (links_fresh seen ([], seen)) as Hstart.
  { split; [apply NoDup_nil_2|]. split; [done|].
    destruct seen; [|done]. simpl. split; [set_solver | done]. }
  revert Hstart. generalize (@nil string, seen) as st.
  induction hrefs as [|href hrefs IH]; intros st Hst; [done|].
  simpl. by apply IH, recipe_link_fresh.
Qed.

(** X7.  The links [findRecipeLinks] returns are without repetition, and
    none has a query or a fragment.  With de-duplication on, none was in
    [seenUrls] before and [seenUrls] afterwards is the old set with these
    links added; with de-duplication off, [seenUrls] stays [null]. *)
Theorem findRecipeLinks_fresh (page : Page) (base : string)
    (seen : option (gset string)) :
  links_fresh seen (findRecipeLinks page base seen).
Proof. apply recipe_links_fresh. Qed.
End AnchorLinks.

Lemma Ok_inj {A} (a b : A) : Ok a = Ok b → a = b.
Proof. by intros [= ->]. Qed.

(** Reading a field of an object literal. *)
Lemma field_insert_here (k : string) (v : JsVal) (r : Recipe) :
  field (<[k := v]> r) k = v.
Proof. unfold field. by rewrite lookup_insert_eq. Qed.

Lemma field_insert_next (k k' : string) (v : JsVal) (r : Recipe) :
  String.eqb k k' = false → field (<[k := v]> r) k' = field r k'.
Proof.
  intros Hne. apply String.eqb_neq in Hne.
  unfold field. by rewrite lookup_insert_ne.
Qed.

Ltac read_field :=
  rewrite ?list_to_map_cons;
  repeat first [ rewrite field_insert_here
               | rewrite field_insert_next by reflexivity ].

Lemma uniq_truthy (l : list JsVal) : Forall (λ x, truthy x = true) (uniq l).
Proof.
  apply Forall_forall. intros x Hx.
  eapply elem_of_sublist in Hx; [|apply set_from_sublist].
  by apply list_elem_of_filter in Hx as [? _].
Qed.

Lemma js_or_null (v : JsVal) : js_or v JNull = JNull ↔ truthy v = false.
Proof.
  unfold js_or. destruct (truthy v) eqn:E; [|done].
  split; [|done]. intros ->. done.
Qed.

(** ** The structured extractor *)

Section StructuredExtractor.
Context {RT : Runtime}.

(** The items [extractRecipeFromJsonLd] looks at for one node. *)
Definition candidates (node : JsVal) : list JsVal :=
  if negb (truthy node) then []
  else match node with
       | JArr l => l
       | _ => [node]
       end.

Lemma first_recipe_app (items rest : list JsVal) :
  first_recipe (items ++ rest)
  = found ← first_recipe items;
    match found with
    | Some r => Ok (Some r)
    | None => first_recipe rest
    end.
Proof.
  induction items as [|item items IH]; simpl.
  - by destruct (first_recipe rest) as [[r|]|].
  - destruct (is_recipe item); [|exact IH].
    by destruct (recipe_of_item item).
Qed.

Lemma extractRecipeFromJsonLd_candidates (jsonNodes : list JsVal) :
  extractRecipeFromJsonLd jsonNodes
  = first_recipe (concat (map candidates jsonNodes)).
Proof.
  induction jsonNodes as [|node nodes IH]; [done|].
  cbn [extractRecipeFromJsonLd map concat].
  rewrite first_recipe_app, <- IH. unfold candidates.
  by destruct (negb (truthy node)).
Qed.

Lemma first_recipe_none (items : list JsVal) :
  Forall (λ item, is_recipe item = false) items → first_recipe items = Ok None.
Proof. induction 1 as [|item items Hitem _ IH]; [done|]. simpl. by rewrite Hitem. Qed.

(** X8.  [extractRecipeFromJsonLd] goes through the nodes in order, an
    array node item by item and falsy nodes skipped: without an item of
    type [Recipe] it returns [null]; otherwise the first such item alone
    decides the result, whatever follows it. *)
Theorem extractRecipeFromJsonLd_first_match (jsonNodes : list JsVal) :
  (Forall (λ item, is_recipe item = false) (concat (map candidates jsonNodes)) →
   extractRecipeFromJsonLd jsonNodes = Ok None)
  ∧ (∀ before item after,
       concat (map candidates jsonNodes) = before ++ item :: after →
       Forall (λ item, is_recipe item = false) before →
       is_recipe item = true →
       extractRecipeFromJsonLd jsonNodes = (r ← recipe_of_item item; Ok (Some r))).
Proof.
  rewrite extractRecipeFromJsonLd_candidates. split.
  - apply first_recipe_none.
  - intros before item after -> Hbefore Hitem.
    rewrite first_recipe_app, (first_recipe_none before Hbefore). simpl.
    by rewrite Hitem.
Qed.

Lemma author_of_throws (author : JsVal) :
  author_of author = Throw ↔ ∃ l, author = JArr l ∧ JNull ∈ l.
Proof.
  destruct author as [| |b|r|s|l|ps]; try (split; [done | by intros (? & ? & ?)]).
  simpl.
  assert (∀ acc : result (list JsVal),
            (names ← foldl (λ acc a,
                       done ← acc;
                       match a with
                       | JNull => Throw
                       | JArr _ | JObj _ => Ok (done ++ [get a "name"])
                       | _ => Ok (done ++ [a])
                       end) acc l;
             Ok (JStr (join_vals ", " names))) = Throw
            ↔ acc = Throw ∨ JNull ∈ l) as Hfold.
  { induction l as [|a l IH]; intros acc; simpl.
    - destruct acc; simpl; [|by split; auto].
      split; [done|]. intros [?|Hin]; [done | by apply elem_of_nil in Hin].
    - rewrite IH, elem_of_cons.
      destruct acc as [names|]; simpl; [|by split; auto].
      destruct a; simpl; split; intros [?|?]; try done; auto.
      + destruct H as [?|?]; [done | auto].
      + destruct H as [?|?]; [done | auto].
      + destruct H as [?|?]; [done | auto].
      + destruct H as [?|?]; [done | auto].
      + destruct H as [?|?]; [done | auto].
      + destruct H as [?|?]; [done | auto]. }
  rewrite Hfold. split.
  - intros [?|?]; [done | eauto].
  - intros (l' & [= <-] & ?). auto.
Qed.

(** X9.  Building the record of a recipe item throws when its [author] is
    an array with [null] among its elements: the code reads [a.name] of
    every element that [typeof] calls an object, and [null] is one. *)
Theorem recipe_of_item_throws (item : JsVal) (l : list JsVal) :
  get item "author" = JArr l → JNull ∈ l → recipe_of_item item = Throw.
Proof.
  intros Hauthor Hnull. unfold recipe_of_item.
  destruct (collectInstructionLines _) as [instructions|]; [|done].
  cbn [mbind result_bind].
  assert (author_of (get item "author") = Throw) as ->; [|done].
  apply author_of_throws. eauto.
Qed.

End StructuredExtractor.

(** ** The markup extractor *)

Definition text_or_null (v : JsVal) : Prop :=
  v = JNull ∨ ∃ t, v = JStr t ∧ normalized_text t.

Lemma normalize_text_or_null (s : string) : text_or_null (normalize (JStr s)).
Proof.
  rewrite normalize_of_text. destruct (String.eqb s ""); [by left|].
  destruct (normalize_text_cases s) as [->|(t & -> & Ht)]; [by left | right; eauto].
Qed.

Lemma normalize_attr_or_null (a : option string) :
  text_or_null (normalize (opt_str a)).
Proof. destruct a; [apply normalize_text_or_null | by left]. Qed.

Lemma js_or_text_or_null (a b : JsVal) :
  text_or_null a → text_or_null b → text_or_null (js_or a b).
Proof. intros Ha Hb. unfold js_or. by destruct (truthy a). Qed.

Lemma collect_texts_normalized (texts : list string) :
  ∃ ts, collect_texts texts = map JStr ts ∧ Forall normalized_text ts.
Proof.
  unfold collect_texts.
  assert (∀ ts0, Forall normalized_text ts0 →
            ∃ ts, fold_left (λ acc t, push_if acc (normalize (JStr t))) texts
                    (map JStr ts0) = map JStr ts
                  ∧ Forall normalized_text ts) as Hgen.
  { induction texts as [|t texts IH]; intros ts0 Hts0; cbn [fold_left]; [eauto|].
    destruct (normalize_text_or_null t) as [->|(t' & -> & Ht')].
    - apply IH, Hts0.
    - unfold push_if.
      assert (truthy (JStr t') = true) as ->.
      { simpl. rewrite (eqb_string_false t' ""); [done|].
        by apply normalized_text_nonempty. }
      change [JStr t'] with (map JStr [t']). rewrite <- map_app.
      apply IH. apply Forall_app. split; [done | by apply Forall_singleton]. }
  apply (Hgen []). constructor.
Qed.

Lemma uniq_collect_texts (texts : list string) :
  ∃ l, uniq (collect_texts texts) = map JStr l
       ∧ NoDup l ∧ Forall normalized_text l.
Proof.
  destruct (collect_texts_normalized texts) as (ts & -> & Hts).
  exists (uniq ts). rewrite uniq_texts. split; [done|]. split; [apply uniq_NoDup|].
  apply Forall_forall. intros x Hx. apply uniq_elem_of in Hx as [Hx _].
  rewrite Forall_forall in Hts. by apply Hts.
Qed.

Lemma image_or_null (a b : option string) :
  js_or (js_or (opt_str a) (opt_str b)) JNull = JNull
  ∨ ∃ s, js_or (js_or (opt_str a) (opt_str b)) JNull = JStr s ∧ s ≠ "".
Proof.
  assert (∀ v, v = JUndefined ∨ (∃ s, v = JStr s) →
            js_or v JNull = JNull ∨ ∃ s, js_or v JNull = JStr s ∧ s ≠ "") as Hcase.
  { intros v [->|[s ->]]; [by left|]. unfold js_or.
    destruct (truthy (JStr s)) eqn:E; [right | by left].
    exists s. split; [done|]. by intros ->. }
  apply Hcase. unfold js_or.
  destruct a as [s|], b as [s'|]; cbn [opt_str];
    try destruct (truthy (JStr s)); eauto.
Qed.

(** X11.  The record [parseHtmlRecipe] returns is a partial record: each of
    its three lists holds normalized texts, none twice; each of its textual
    fields is [null] or a normalized text; and [image_url] is [null] or a
    non-empty text. *)
Theorem parseHtmlRecipe_partial_record (page : Page) :
  PartialRecord (parseHtmlRecipe page)
  ∧ (∀ name, name ∈ list_fields →
       ∃ l, field (parseHtmlRecipe page) name = JArr (map JStr l)
            ∧ NoDup l ∧ Forall normalized_text l)
  ∧ Forall (λ name, text_or_null (field (parseHtmlRecipe page) name))
      [ "title"; "author"; "description"; "prep_time"; "cook_time"; "total_time";
        "servings" ]
  ∧ (field (parseHtmlRecipe page) "image_url" = JNull
     ∨ ∃ s, field (parseHtmlRecipe page) "image_url" = JStr s ∧ s ≠ "").
Proof.
  assert (∀ name, name ∈ list_fields →
            ∃ l, parseHtmlRecipe page !! name = Some (JArr (map JStr l))
                 ∧ NoDup l ∧ Forall normalized_text l) as Hlists.
  { intros name Hname. field_cases Hname. unfold parseHtmlRecipe.
    rewrite !list_to_map_cons.
    destruct Hname as [->|[->|[->|[]]]].
    - destruct (uniq_collect_texts (ingredient_texts page)) as (l & -> & ?).
      exists l. split; [|done]. by repeat (rewrite lookup_insert_ne by done).
    - destruct (uniq_collect_texts (instruction_texts page)) as (l & -> & ?).
      exists l. split; [|done]. by repeat (rewrite lookup_insert_ne by done).
    - destruct (uniq_collect_texts (tag_texts page)) as (l & -> & ?).
      exists l. split; [|done]. by repeat (rewrite lookup_insert_ne by done). }
  split; [|split; [|split]].
  - intros name Hname. destruct (Hlists name Hname) as (l & Hl & Hnd & Hnorm).
    right. exists l. split; [done|]. split; [done|].
    intros Hin. rewrite Forall_forall in Hnorm. by apply Hnorm in Hin.
  - intros name Hname. destruct (Hlists name Hname) as (l & Hl & ?).
    exists l. split; [|done]. by apply field_Some.
  - unfold parseHtmlRecipe.
    repeat (apply Forall_cons; split); [..|apply Forall_nil_2]; read_field;
      apply js_or_text_or_null;
      first [apply normalize_text_or_null | apply normalize_attr_or_null].
  - unfold parseHtmlRecipe. read_field. apply image_or_null.
Qed.

(** ** Emitted records *)

Lemma js_or_truthy_r (a b : JsVal) : truthy b = true → truthy (js_or a b) = true.
Proof. intros Hb. unfold js_or. by destruct (truthy a) eqn:E. Qed.

Lemma slug_title_text (u : string) : text_or_null (slug_title u).
Proof. apply normalize_text_or_null. Qed.

(** X12.  The record emitted for an address when details are not
    collected has a title that is a normalized, non-empty text (the last
    path segment with its hyphens as spaces, or [Recipe] when that is
    blank), the address itself as [url], and the configured recipe type. *)
Theorem minimal_record_fields (input : Input) (u : string) :
  (∃ t, field (minimal_record input u) "title" = JStr t ∧ normalized_text t)
  ∧ (Js.trim (Js.collapse_ws (Js.replace_all "-" " " (Js.split_pop "/" u))) = ""
     → field (minimal_record input u) "title" = JStr "Recipe")
  ∧ field (minimal_record input u) "url" = JStr u
  ∧ field (minimal_record input u) "recipe_type" = JStr (recipeType input)
  ∧ dom (minimal_record input u)
    =@{gset string} list_to_set [ "title"; "url"; "recipe_type"; "_source" ].
Proof.
  unfold minimal_record. split; [|split; [|split; [|split]]].
  - read_field. unfold js_or.
    destruct (slug_title_text u) as [->|(t & -> & Ht)]; [by exists "Recipe"|].
    exists t. split; [|done].
    assert (truthy (JStr t) = true) as ->; [|done].
    simpl. rewrite (eqb_string_false t ""); [done|].
    by apply normalized_text_nonempty.
  - intros Hblank. read_field. unfold slug_title.
    rewrite normalize_of_text.
    destruct (String.eqb _ ""); [done|].
    unfold normalize_text. by rewrite Hblank.
  - by read_field.
  - by read_field.
  - by rewrite dom_list_to_map_L.
Qed.

Section DetailItem.
Context {RT : Runtime} (input : Input) (site : Site).

Definition item_keys : list string :=
  [ "title"; "author"; "description"; "recipe_type"; "ingredients";
    "ingredients_count"; "instructions"; "instructions_list"; "prep_time";
    "cook_time"; "total_time"; "servings"; "difficulty"; "cuisine"; "category";
    "tags"; "image_url"; "date_published"; "rating_value"; "rating_count";
    "rating_best"; "rating_worst"; "nutrition"; "url"; "scraped_at"; "_source" ].

Lemma or_null_defined (v : JsVal) : or_null v ≠ JUndefined.
Proof. unfold or_null, js_or. by destruct (truthy v) eqn:E; [intros -> |]. Qed.

(** X13.  An item the detail handler builds has exactly the keys of the
    output schema; its title is truthy (not [null], not [undefined], not an
    empty text); its [url] is the address of the request; the nullable
    fields are [null] rather than [undefined] when there is nothing; and
    [instructions] is [null] or a non-empty text. *)
Theorem detail_item_fields (request : Request) (page : Page) (item : Recipe) :
  detail_item input site request page = Ok item →
  dom item =@{gset string} list_to_set item_keys
  ∧ truthy (field item "title") = true
  ∧ field item "url" = JStr (url request)
  ∧ field item "recipe_type" = JStr (recipeType input)
  ∧ Forall (λ name, field item name ≠ JUndefined)
      [ "author"; "description"; "prep_time"; "cook_time"; "total_time";
        "servings"; "difficulty"; "cuisine"; "category"; "image_url";
        "date_published"; "rating_value"; "rating_count"; "rating_best";
        "rating_worst"; "nutrition"; "instructions" ]
  ∧ (field item "instructions" = JNull
     ∨ ∃ s, field item "instructions" = JStr s ∧ s ≠ "").
Proof.
  unfold detail_item.
  destruct (extractRecipeFromJsonLd _) as [found|]; [|done]. cbn [mbind result_bind].
  destruct (mergeRecipe _ _) as [recipe0|]; [|done]. cbn [mbind result_bind].
  set (recipe1 := if hasCoreRecipeData recipe0 then recipe0 else _).
  set (recipe := if negb (truthy (field recipe1 "title")) then _ else recipe1).
  assert (truthy (field recipe "title") = true) as Htitle.
  { unfold recipe. destruct (truthy (field recipe1 "title")) eqn:E; simpl; [done|].
    rewrite field_insert_here. by apply js_or_truthy_r. }
  clearbody recipe. clear recipe1 recipe0 found.
  set (joined := match field recipe "instructions" with
                 | JUndefined | JNull => Ok JUndefined
                 | JArr l => Ok (JStr (join_vals " | " l))
                 | _ => Throw
                 end).
  assert (∀ j, joined = Ok j → j = JUndefined ∨ ∃ s, j = JStr s) as Hjoined.
  { intros j. unfold joined. destruct (field recipe "instructions");
      intros [= <-]; eauto. }
  destruct joined as [j|]; [|done]. cbn [mbind result_bind].
  intros Hitem. apply Ok_inj in Hitem. subst item.
  split; [by rewrite dom_list_to_map_L|].
  split; [by read_field|]. split; [by read_field|]. split; [by read_field|].
  split.
  - repeat (apply Forall_cons; split); [..|apply Forall_nil_2]; read_field;
      apply or_null_defined.
  - read_field. destruct (Hjoined j eq_refl) as [->|[s ->]]; [by left|].
    unfold or_null, js_or. destruct (truthy (JStr s)) eqn:E; [right | by left].
    exists s. split; [done|]. by intros ->.
Qed.
End DetailItem.

(** ** Alternate addresses *)

Lemma merge_list_other (extra merged merged' : Recipe) (name : string) :
  merge_list extra name merged = Ok merged' →
  ∀ k, k ≠ name → merged' !! k = merged !! k.
Proof.
  unfold merge_list. destruct (has_length _); [|by intros [= <-]].
  destruct (spread (js_or _ _)) as [mine|]; [|done]. cbn [mbind result_bind].
  destruct (spread _) as [theirs|]; [|done]. cbn [mbind result_bind].
  intros Hm k Hk. apply Ok_inj in Hm. subst merged'. by rewrite lookup_insert_ne.
Qed.

Lemma mergeRecipe_lookup_kept (base : Recipe) (extra : option Recipe)
    (merged : Recipe) (name : string) :
  mergeRecipe (Some base) extra = Ok merged →
  name ∉ list_fields → truthy (field base name) = true →
  merged !! name = base !! name.
Proof.
  intros Hmerge Hname Htruthy. unfold mergeRecipe in Hmerge.
  destruct extra as [extra|]; [|by apply Ok_inj in Hmerge; subst].
  cbn [from_option] in Hmerge. unfold id in Hmerge.
  set (M0 := foldl (merge_scalar extra) base merge_fields) in Hmerge.
  assert (M0 !! name = base !! name) as H0.
  { unfold M0. rewrite merge_scalars_lookup. destruct (bool_decide _); [|done].
    unfold merged_scalar. by rewrite Htruthy. }
  assert (name ≠ "ingredients" ∧ name ≠ "instructions" ∧ name ≠ "tags")
    as (Hn1 & Hn2 & Hn3).
  { unfold list_fields in Hname. rewrite !elem_of_cons, elem_of_nil in Hname.
    repeat split; intros ->; tauto. }
  destruct (merge_list extra "ingredients" M0) as [M1|] eqn:H1; [|done].
  cbn [mbind result_bind] in Hmerge.
  destruct (merge_list extra "instructions" M1) as [M2|] eqn:H2; [|done].
  cbn [mbind result_bind] in Hmerge.
  destruct (merge_list extra "tags" M2) as [M3|] eqn:H3; [|done].
  cbn [mbind result_bind] in Hmerge. apply Ok_inj in Hmerge. subst merged.
  assert (M3 !! name = base !! name) as H3'.
  { rewrite (merge_list_other _ _ _ _ H3), (merge_list_other _ _ _ _ H2),
      (merge_list_other _ _ _ _ H1) by done. exact H0. }
  destruct (truthy (field extra "nutrition") && negb (truthy (field M3 "nutrition")))
    eqn:Hc; [|done].
  destruct (decide (name = "nutrition")) as [->|Hne];
    [|by rewrite lookup_insert_ne].
  apply andb_true_iff in Hc as [_ Hc]. apply negb_true_iff in Hc.
  rewrite (field_ext _ _ _ H3') in Hc. congruence.
Qed.

(** X14.  [mergeRecipe] never replaces a value that is there: a field of
    the base that is truthy and is not one of the three lists has the same
    value in the result, whatever the other record holds, for all records
    (partial or not). *)
Theorem mergeRecipe_keeps_present (base : Recipe) (extra : option Recipe)
    (merged : Recipe) (name : string) :
  mergeRecipe (Some base) extra = Ok merged →
  name ∉ list_fields → truthy (field base name) = true →
  merged !! name = base !! name.
Proof. apply mergeRecipe_lookup_kept. Qed.

Section Alternates.
Context {RT : Runtime} (site : Site).

(** An alternate address gives nothing: the fetch throws, the status is
    outside 200..399, or the body is empty. *)
Definition alternate_fails (u : string) : Prop :=
  match gotScraping site u with
  | AltThrows => True
  | AltResponds statusCode body => ¬ (200 ≤ statusCode < 400) ∨ body = None
  end.

(** X15.  When every alternate address fails, the record comes out of the
    retry loop as it went in. *)
Theorem try_alternates_all_fail (altCandidates : list string) (recipe : Recipe) :
  Forall alternate_fails altCandidates →
  try_alternates site altCandidates recipe = recipe.
Proof.
  induction 1 as [|u alts Hu _ IH]; [done|]. cbn [try_alternates].
  unfold alternate_fails in Hu.
  destruct (gotScraping site u) as [|statusCode [alt|]]; try done.
  destruct Hu as [Hstatus|?]; [|done].
  destruct ((200 <=? statusCode) && (statusCode <? 400)) eqn:E; [|done].
  apply andb_true_iff in E as [E1 E2]. apply Z.leb_le in E1. apply Z.ltb_lt in E2. lia.
Qed.

(** X16.  Through the retry loop, whatever the alternate addresses answer,
    a field that is truthy and is not one of the three lists keeps its
    value: what the first page gave is never overwritten by an alternate. *)
Theorem try_alternates_keeps_present (altCandidates : list string) (recipe : Recipe)
    (name : string) :
  name ∉ list_fields → truthy (field recipe name) = true →
  try_alternates site altCandidates recipe !! name = recipe !! name.
Proof.
  intros Hname. revert recipe.
  induction altCandidates as [|u alts IH]; intros recipe Htruthy; [done|].
  cbn [try_alternates].
  destruct (gotScraping site u) as [|statusCode [alt|]]; try by apply IH.
  destruct ((200 <=? statusCode) && (statusCode <? 400)); [|by apply IH].
  destruct (extractRecipeFromJsonLd _) as [found|]; [|by apply IH].
  cbn [mbind result_bind].
  destruct (mergeRecipe found (Some (parseHtmlRecipe alt))) as [altRecipe|];
    [|by apply IH].
  cbn [mbind result_bind].
  destruct (mergeRecipe (Some recipe) (Some altRecipe)) as [recipe'|] eqn:Hmerge;
    [|by apply IH].
  pose proof (mergeRecipe_lookup_kept _ _ _ _ Hmerge Hname Htruthy) as Hkeep.
  destruct (hasCoreRecipeData recipe'); [done|].
  rewrite IH; [done|]. by rewrite (field_ext _ _ _ Hkeep).
Qed.
End Alternates.

(** ** What the crawl never undoes *)

Section Growth.
Context {RT : Runtime} (input : Input) (site : Site).

Definition seen_grows (s s' : option (gset string)) : Prop :=
  match s, s' with
  | Some a, Some b => a ⊆ b
  | None, None => True
  | _, _ => False
  end.

(** From [w] to [w']: the emitted records and the listing log are only
    extended, [saved] does not decrease, [seenUrls] does not shrink. *)
Definition grows (w w' : World) : Prop :=
  dataset w `prefix_of` dataset w'
  ∧ saved w ≤ saved w'
  ∧ listing_log w `prefix_of` listing_log w'
  ∧ seen_grows (seenUrls w) (seenUrls w').

Lemma seen_grows_refl (s : option (gset string)) : seen_grows s s.
Proof. destruct s; simpl; [set_solver|done]. Qed.

Lemma seen_grows_trans (a b c : option (gset string)) :
  seen_grows a b → seen_grows b c → seen_grows a c.
Proof. destruct a, b, c; simpl; try done. set_solver. Qed.

Lemma grows_refl (w : World) : grows w w.
Proof. repeat split; try done. apply seen_grows_refl. Qed.

Lemma grows_trans (a b c : World) : grows a b → grows b c → grows a c.
Proof.
  intros (? & ? & ? & ?) (? & ? & ? & ?).
  split; [by etrans|]. split; [lia|]. split; [by etrans|].
  by eapply seen_grows_trans.
Qed.

Lemma paginate_grows (request : Request) (page : Page) (w : World) :
  grows w (paginate input request page w).
Proof.
  unfold paginate. destruct (_ && _); [|apply grows_refl].
  destruct (findNextPage _ _) as [nextUrl|]; [|apply grows_refl].
  destruct (String.eqb nextUrl ""); [apply grows_refl|].
  repeat split; try done. apply seen_grows_refl.
Qed.

Lemma findRecipeLinks_seen_grows (page : Page) (base : string)
    (seen : option (gset string)) :
  seen_grows seen (findRecipeLinks page base seen).2.
Proof.
  pose proof (recipe_links_fresh base seen (recipe_anchor_hrefs page))
    as (_ & _ & Hseen).
  fold (findRecipeLinks page base seen) in Hseen.
  destruct seen as [s0|], (findRecipeLinks page base _).2 as [s|];
    simpl in *; try done.
  destruct Hseen as [-> _]. set_solver.
Qed.

Lemma list_handler_grows (request : Request) (page : Page) (w : World) :
  grows w (list_handler input request page w).
Proof.
  unfold list_handler.
  set (w1 := set_listing_log _ w).
  assert (grows w w1) as H1.
  { repeat split; try done; [by apply prefix_app_r | apply seen_grows_refl]. }
  destruct (extractListLinks _ _) as [jsonLinks|]; [|done].
  pose proof (findRecipeLinks_seen_grows page (url request) (seenUrls w1)) as Hseen.
  destruct (findRecipeLinks _ _ _) as [htmlLinks seen]. simpl in Hseen.
  set (w2 := set_seenUrls seen w1).
  assert (grows w w2) as H2.
  { eapply grows_trans; [exact H1|]. repeat split; done. }
  match goal with |- grows _ (match ?l with _ => _ end) => destruct l as [|u limited] end.
  - eapply grows_trans; [exact H2 | apply paginate_grows].
  - eapply grows_trans; [exact H2|].
    destruct (collectDetails input); repeat split; try done;
      try apply seen_grows_refl.
    by apply prefix_app_r.
Qed.

Lemma detail_handler_grows (request : Request) (page : Page) (w : World) :
  grows w (detail_handler input site request page w).
Proof.
  unfold detail_handler. destruct (_ <=? _); [apply grows_refl|].
  destruct (detail_item _ _ _ _) as [item|]; [|apply grows_refl].
  repeat split; try done; [by apply prefix_app_r | apply seen_grows_refl].
Qed.

Lemma start_grows (request : Request) (w : World) :
  grows w (start input site request w).
Proof.
  unfold start. destruct (document _ _) as [page|]; [|apply grows_refl].
  unfold requestHandler.
  destruct (String.eqb _ "LIST"); [apply list_handler_grows|].
  destruct (String.eqb _ "DETAIL"); [apply detail_handler_grows | apply grows_refl].
Qed.

(** The number a suspended listing handler adds to [saved] is the length
    of the array it pushed. *)
Definition counted (k : Cont) : Prop :=
  match k with
  | AfterPushUrls pushed _ _ => 0 ≤ pushed
  | _ => True
  end.

Lemma resume_grows (k : Cont) (w : World) :
  counted k → grows w (resume input k w).
Proof.
  intros Hk. destruct k as [request page|pushed request page|]; simpl.
  - apply paginate_grows.
  - eapply grows_trans; [|apply paginate_grows].
    repeat split; try done; [simpl in *; lia | apply seen_grows_refl].
  - repeat split; try done; [simpl; lia | apply seen_grows_refl].
Qed.

Lemma paginate_suspended (request : Request) (page : Page) (w : World) :
  suspended (paginate input request page w) = suspended w.
Proof.
  unfold paginate. destruct (_ && _); [|done].
  destruct (findNextPage _ _) as [nextUrl|]; [|done].
  by destruct (String.eqb nextUrl "").
Qed.

Lemma start_counted (request : Request) (w : World) :
  Forall counted (suspended w) →
  Forall counted (suspended (start input site request w)).
Proof.
  intros Hw. unfold start. destruct (document _ _) as [page|]; [|done].
  unfold requestHandler. destruct (String.eqb _ "LIST").
  - unfold list_handler.
    destruct (extractListLinks _ _) as [jsonLinks|]; [|done].
    destruct (findRecipeLinks _ _ _) as [htmlLinks seen].
    match goal with |- context [match ?l with [] => _ | _ => _ end] =>
      destruct l as [|u limited] end.
    + by rewrite paginate_suspended.
    + destruct (collectDetails input); simpl;
        (apply Forall_app; split; [done|]); apply Forall_singleton; simpl;
        [done | lia].
  - destruct (String.eqb _ "DETAIL"); [|done].
    unfold detail_handler. destruct (_ <=? _); [done|].
    destruct (detail_item _ _ _ _) as [item|]; [|done].
    simpl. apply Forall_app. split; [done|]. by apply Forall_singleton.
Qed.

Lemma resume_suspended (k : Cont) (w : World) :
  suspended (resume input k w) = suspended w.
Proof. destruct k; simpl; by rewrite ?paginate_suspended. Qed.

Lemma step_grows (w w' : World) :
  Forall counted (suspended w) → step input site w w' →
  grows w w' ∧ Forall counted (suspended w').
Proof.
  intros Hw Hstep. revert Hw. destruct Hstep as [c w w' Hstep]. intros Hw.
  destruct c as [i|j]; simpl in Hstep.
  - destruct (queue w !! i) as [request|]; [|done].
    simplify_eq/=. split.
    + eapply grows_trans; [|apply start_grows]. repeat split; try done.
      apply seen_grows_refl.
    + by apply start_counted.
  - destruct (suspended w !! j) as [k|] eqn:Hk; [|done].
    simplify_eq/=. split.
    + eapply grows_trans; [|apply resume_grows].
      * repeat split; try done. apply seen_grows_refl.
      * eapply Forall_lookup_1; done.
    + rewrite resume_suspended. simpl. by apply Forall_delete.
Qed.

Lemma reachable_counted (w : World) :
  reachable input site w → Forall counted (suspended w).
Proof.
  unfold reachable. revert w. apply rtc_ind_r; [done|].
  intros w w' _ Hstep IH. by apply step_grows in Hstep as [_ ?].
Qed.

(** X17.  The crawl undoes nothing.  From a world it can reach to any later
    one, under any scheduling: the records already emitted stay where they
    are in the dataset, the listing pages already handled stay in the log,
    [saved] does not decrease, and no address leaves [seenUrls]. *)
Theorem crawl_only_grows (w w' : World) :
  reachable input site w → rtc (step input site) w w' → grows w w'.
Proof.
  intros Hw Hsteps. induction Hsteps as [w|w w1 w' Hstep Hsteps IH];
    [apply grows_refl|].
  pose proof (reachable_counted w Hw) as Hc.
  destruct (step_grows _ _ Hc Hstep) as [Hg _].
  eapply grows_trans; [exact Hg|]. apply IH.
  eapply rtc_r; [exact Hw | exact Hstep].
Qed.
End Growth.

(** ** One handler at a time *)

Section InSequence.
Context {RT : Runtime} (input : Input) (site : Site).

(** The [i]-th queued request is taken and its handler runs to its end
    before anything else happens. *)
Definition handle_to_end (i : nat) : list Choice := [Start i; Resume 0].

Definition in_sequence (picks : list nat) : list Choice :=
  flat_map handle_to_end picks.

(** No handler is suspended, the budget is kept, and [saved] is the number
    of records in the dataset. *)
Definition settled (w : World) : Prop :=
  suspended w = []
  ∧ saved w ≤ RESULTS_WANTED input
  ∧ Z.of_nat (length (dataset w)) = saved w.

Lemma paginate_settled (request : Request) (page : Page) (w : World) :
  settled (paginate input request page w) ↔ settled w.
Proof.
  unfold paginate. destruct (_ && _); [|done].
  destruct (findNextPage _ _) as [nextUrl|]; [|done].
  by destruct (String.eqb nextUrl "").
Qed.

Lemma slice0_length {A} (l : list A) (e : Z) :
  0 ≤ e → Z.of_nat (length (slice0 l e)) ≤ e.
Proof.
  intros He. unfold slice0. destruct (e <? 0) eqn:Hneg; [lia|].
  rewrite length_take. lia.
Qed.

Lemma run_app (schedule schedule' : list Choice) (w : World) :
  run input site (schedule ++ schedule') w
  = run input site schedule' (run input site schedule w).
Proof. apply fold_left_app. Qed.

Lemma list_handler_to_end (request : Request) (page : Page) (w : World) :
  settled w →
  settled (run input site [Resume 0] (list_handler input request page w)).
Proof.
  intros (Hs & Hle & Hlen). unfold list_handler.
  set (w1 := set_listing_log _ w).
  destruct (extractListLinks _ _) as [jsonLinks|];
    [|unfold run; simpl; by rewrite Hs].
  destruct (findRecipeLinks _ _ _) as [htmlLinks seen].
  set (w2 := set_seenUrls seen w1).
  assert (settled w2) as H2 by done.
  set (combined := uniq (jsonLinks ++ htmlLinks)).
  set (remaining := RESULTS_WANTED input - saved w2).
  set (limited := if remaining <? Z.of_nat (length combined)
                  then slice0 combined remaining else combined).
  assert (Z.of_nat (length limited) ≤ remaining) as Hlim.
  { subst limited. destruct (remaining <? _) eqn:Hcmp.
    - apply slice0_length. subst remaining. simpl. lia.
    - lia. }
  destruct limited as [|u limited'] eqn:El.
  - unfold run. simpl. rewrite paginate_suspended. simpl. rewrite Hs. simpl.
    by apply paginate_settled.
  - rewrite <- El in *. clear El.
    destruct (collectDetails input); unfold run; simpl; rewrite Hs; simpl.
    + apply paginate_settled. done.
    + apply paginate_settled. split; [done|]. simpl.
      subst remaining. simpl in Hlim. split; [lia|].
      rewrite length_app, length_map. lia.
Qed.

Lemma detail_handler_to_end (request : Request) (page : Page) (w : World) :
  settled w →
  settled (run input site [Resume 0] (detail_handler input site request page w)).
Proof.
  intros (Hs & Hle & Hlen). unfold detail_handler.
  destruct (_ <=? _) eqn:Hguard; [unfold run; simpl; by rewrite Hs|].
  destruct (detail_item _ _ _ _) as [item|]; [|unfold run; simpl; by rewrite Hs].
  unfold run. simpl. rewrite Hs. simpl. split; [done|]. simpl.
  split; [lia|]. rewrite length_app. simpl. lia.
Qed.

Lemma handle_to_end_settled (i : nat) (w : World) :
  settled w → settled (run input site (handle_to_end i) w).
Proof.
  intros Hw. unfold handle_to_end.
  change [Start i; Resume 0] with ([Start i] ++ [Resume 0]). rewrite run_app.
  unfold run at 2. simpl.
  destruct (queue w !! i) as [request|]; simpl.
  - unfold start. simpl.
    assert (settled (set_queue (delete i (queue w)) w)) as Hw' by done.
    destruct (document _ _) as [page|];
      [|unfold run; simpl; by rewrite (proj1 Hw)].
    unfold requestHandler. destruct (String.eqb _ "LIST").
    { by apply list_handler_to_end. }
    destruct (String.eqb _ "DETAIL"); [by apply detail_handler_to_end|].
    unfold run; simpl; by rewrite (proj1 Hw).
  - unfold run; simpl; by rewrite (proj1 Hw).
Qed.

Lemma RESULTS_WANTED_positive : 0 ≤ RESULTS_WANTED input.
Proof.
  unfold RESULTS_WANTED, MAX_SAFE_INTEGER.
  destruct (results_wanted input); lia.
Qed.

(** X18.  When every handler runs to its end before the next request is
    taken, in whatever order the requests are taken: after each handler
    [saved] is at most [RESULTS_WANTED] and is the number of records in the
    dataset, and no handler is left suspended. *)
Theorem budget_kept_one_at_a_time (picks : list nat) :
  settled (run input site (in_sequence picks) (initial input)).
Proof.
  induction picks as [|i picks IH] using rev_ind.
  - split; [done|]. simpl. split; [|done].
    apply RESULTS_WANTED_positive.
  - unfold in_sequence. rewrite flat_map_app, run_app. simpl.
    by apply handle_to_end_settled.
Qed.
End InSequence.

(** ** Addresses only *)

Section UrlsOnly.
Context {RT : Runtime} (input : Input) (site : Site).
Hypothesis no_details : collectDetails input = false.

Definition listing_request (request : Request) : Prop :=
  label request = Some "LIST".

Definition pushed_urls (k : Cont) : Prop :=
  match k with
  | AfterPushUrls _ _ _ => True
  | _ => False
  end.

(** Only listing pages are queued, only listing handlers are suspended, and
    every record is the minimal record of an address. *)
Definition urls_only (w : World) : Prop :=
  Forall listing_request (queue w)
  ∧ Forall pushed_urls (suspended w)
  ∧ Forall (λ item, ∃ u, item = minimal_record input u) (dataset w).

Lemma paginate_urls_only (request : Request) (page : Page) (w : World) :
  urls_only w → urls_only (paginate input request page w).
Proof.
  intros (Hq & Hs & Hd). unfold paginate. destruct (_ && _); [|done].
  destruct (findNextPage _ _) as [nextUrl|]; [|done].
  destruct (String.eqb nextUrl ""); [done|].
  split; [|done]. simpl. apply Forall_app. split; [done|].
  by apply Forall_singleton.
Qed.

Lemma list_handler_urls_only (request : Request) (page : Page) (w : World) :
  urls_only w → urls_only (list_handler input request page w).
Proof.
  intros (Hq & Hs & Hd). unfold list_handler.
  destruct (extractListLinks _ _) as [jsonLinks|]; [|done].
  destruct (findRecipeLinks _ _ _) as [htmlLinks seen].
  match goal with |- context [match ?l with [] => _ | _ => _ end] =>
    destruct l as [|u limited] end.
  - by apply paginate_urls_only.
  - rewrite no_details. split; [done|]. simpl. split.
    + apply Forall_app. split; [done|]. by apply Forall_singleton.
    + apply Forall_app. split; [done|].
      apply Forall_cons. split; [by exists u|].
      apply Forall_forall. intros item Hitem.
      apply list_elem_of_fmap in Hitem as (v & -> & _). by exists v.
Qed.

Lemma step_urls_only (w w' : World) :
  step input site w w' → urls_only w → urls_only w'.
Proof.
  intros [c w0 w1 Hstep] (Hq & Hs & Hd). destruct c as [i|j]; simpl in Hstep.
  - destruct (queue w0 !! i) as [request|] eqn:Hi; [|done].
    simplify_eq/=. unfold start.
    assert (urls_only (set_queue (delete i (queue w0)) w0)) as Hw.
    { split; [|done]. simpl. by apply Forall_delete. }
    destruct (document _ _) as [page|]; [|done].
    unfold requestHandler, request_label.
    pose proof (Forall_lookup_1 _ _ _ _ Hq Hi) as Hl.
    unfold listing_request in Hl. rewrite Hl. simpl.
    by apply list_handler_urls_only.
  - destruct (suspended w0 !! j) as [k|] eqn:Hj; [|done].
    simplify_eq/=.
    pose proof (Forall_lookup_1 _ _ _ _ Hs Hj) as Hk.
    destruct k as [|pushed request page|]; try done. simpl.
    apply paginate_urls_only. split; [done|]. simpl.
    split; [by apply Forall_delete | done].
Qed.

(** X19.  With [collectDetails] off, no detail page is ever requested and no
    detail record is ever emitted: in every world the crawl can reach, each
    queued request is a listing request and each record in the dataset is
    the four-field record the listing handler makes of an address. *)
Theorem urls_only_mode (w : World) :
  reachable input site w →
  Forall listing_request (queue w)
  ∧ Forall (λ item, ∃ u, item = minimal_record input u) (dataset w).
Proof.
  intros Hw. cut (urls_only w); [by intros (? & _ & ?)|].
  revert w Hw. apply rtc_ind_r.
  - split; [by apply Forall_singleton|]. done.
  - intros w w' _ Hstep IH. by eapply step_urls_only.
Qed.
End UrlsOnly.

(** ** What [saved] counts *)

Section SavedCount.
Context {RT : Runtime} (input : Input) (site : Site).

(** The records a suspended handler has pushed and not yet counted. *)
Definition uncounted (k : Cont) : Z :=
  match k with
  | AfterEnqueueDetails _ _ => 0
  | AfterPushUrls pushed _ _ => pushed
  | AfterPushRecipe => 1
  end.

Definition uncounted_all (ks : list Cont) : Z :=
  foldr (λ k n, uncounted k + n) 0 ks.

Definition accounted (w : World) : Prop :=
  Z.of_nat (length (dataset w)) = saved w + uncounted_all (suspended w)
  ∧ Forall (λ k, 0 ≤ uncounted k) (suspended w).

Lemma uncounted_all_app (ks ks' : list Cont) :
  uncounted_all (ks ++ ks') = uncounted_all ks + uncounted_all ks'.
Proof. induction ks as [|k ks IH]; simpl; lia. Qed.

Lemma uncounted_all_delete (ks : list Cont) (j : nat) (k : Cont) :
  ks !! j = Some k →
  uncounted_all (delete j ks) = uncounted_all ks - uncounted k.
Proof.
  revert j. induction ks as [|k' ks IH]; intros [|j] Hj; simplify_eq/=; [lia|].
  rewrite (IH j Hj). lia.
Qed.

Lemma uncounted_all_nonneg (ks : list Cont) :
  Forall (λ k, 0 ≤ uncounted k) ks → 0 ≤ uncounted_all ks.
Proof. induction 1; simpl; lia. Qed.

Lemma paginate_accounted (request : Request) (page : Page) (w : World) :
  accounted w → accounted (paginate input request page w).
Proof.
  unfold paginate. destruct (_ && _); [|done].
  destruct (findNextPage _ _) as [nextUrl|]; [|done].
  by destruct (String.eqb nextUrl "").
Qed.

Lemma start_accounted (request : Request) (w : World) :
  accounted w → accounted (start input site request w).
Proof.
  intros [Hn Hk]. unfold start. destruct (document _ _) as [page|]; [|done].
  unfold requestHandler. destruct (String.eqb _ "LIST").
  - unfold list_handler.
    destruct (extractListLinks _ _) as [jsonLinks|]; [|done].
    destruct (findRecipeLinks _ _ _) as [htmlLinks seen].
    match goal with |- context [match ?l with [] => _ | _ => _ end] =>
      destruct l as [|u limited] end.
    + by apply paginate_accounted.
    + destruct (collectDetails input);
        (split; simpl;
         [ rewrite ?uncounted_all_app, ?length_app; simpl;
           rewrite ?length_map; lia
         | apply Forall_app; split; [done|]; apply Forall_singleton; simpl; lia ]).
  - destruct (String.eqb _ "DETAIL"); [|done].
    unfold detail_handler. destruct (_ <=? _); [done|].
    destruct (detail_item _ _ _ _) as [item|]; [|done].
    split; simpl.
    + rewrite uncounted_all_app, length_app. simpl. lia.
    + apply Forall_app. split; [done|]. by apply Forall_singleton.
Qed.

Lemma step_accounted (w w' : World) :
  step input site w w' → accounted w → accounted w'.
Proof.
  intros [c w0 w1 Hstep] [Hn Hk]. destruct c as [i|j]; simpl in Hstep.
  - destruct (queue w0 !! i) as [request|]; [|done].
    simplify_eq/=. by apply start_accounted.
  - destruct (suspended w0 !! j) as [k|] eqn:Hj; [|done].
    simplify_eq/=.
    pose proof (uncounted_all_delete _ _ _ Hj) as Hdel.
    pose proof (Forall_delete _ _ j Hk) as Hk'.
    destruct k as [request page|pushed request page|]; simpl in *.
    + apply paginate_accounted. split; [simpl; lia | done].
    + apply paginate_accounted. split; [simpl; lia | done].
    + split; [simpl; lia | done].
Qed.

(** X20.  What [saved] counts, under any scheduling.  In every world the
    crawl can reach, the number of records in the dataset is [saved] plus
    what the suspended handlers have pushed and not yet counted; so [saved]
    is never more than the number of records emitted, and the two are equal
    whenever no handler is suspended. *)
Theorem saved_counts_emitted (w : World) :
  reachable input site w →
  Z.of_nat (length (dataset w)) = saved w + uncounted_all (suspended w)
  ∧ saved w ≤ Z.of_nat (length (dataset w))
  ∧ (suspended w = [] → saved w = Z.of_nat (length (dataset w))).
Proof.
  intros Hw. assert (accounted w) as [Hn Hk].
  { revert w Hw. apply rtc_ind_r; [done|].
    intros w w' _ Hstep IH. by eapply step_accounted. }
  split; [done|]. split.
  - apply uncounted_all_nonneg in Hk. lia.
  - intros Hs. rewrite Hs in Hn. simpl in Hn. lia.
Qed.
End SavedCount.

(** ** What the handlers queue *)

Section Queued.
Context {RT : Runtime} (input : Input) (site : Site).

(** The request [crawler.run] is given. *)
Definition first_request : Request :=
  {| url := startUrl input; label := Some "LIST"; pageNo := Some 1 |}.

(** A request a handler has queued: its address is not empty and has no
    fragment; it is a listing page with a number from 2 to [MAX_PAGES], or
    a detail page without a number. *)
Definition queued_by_handler (request : Request) : Prop :=
  url request ≠ "" ∧ has_char "#" (url request) = false
  ∧ ((label request = Some "LIST"
      ∧ ∃ n, pageNo request = Some n ∧ 2 ≤ n ≤ MAX_PAGES input)
     ∨ (label request = Some "DETAIL" ∧ pageNo request = None)).

Definition queue_ok (w : World) : Prop :=
  Forall (λ request, request = first_request ∨ queued_by_handler request) (queue w).

Lemma findNextPage_no_fragment (page : Page) (base nextUrl : string) :
  findNextPage page base = Some nextUrl → has_char "#" nextUrl = false.
Proof.
  unfold findNextPage.
  destruct (first_some_text (rel_next_href page)); [apply toAbs_no_fragment|].
  destruct (first_some_text _); [apply toAbs_no_fragment|].
  destruct (filter _ _) as [|[text href] rest]; [done|].
  destruct (first_some_text href); [apply toAbs_no_fragment | done].
Qed.

Lemma paginate_queue_ok (request : Request) (page : Page) (w : World) :
  1 ≤ page_number request → queue_ok w →
  queue_ok (paginate input request page w).
Proof.
  intros Hn Hq. unfold paginate. destruct (_ && _) eqn:Hc; [|done].
  destruct (findNextPage _ _) as [nextUrl|] eqn:Hnext; [|done].
  destruct (String.eqb nextUrl "") eqn:He; [done|].
  apply andb_true_iff in Hc as [_ Hlt]. apply Z.ltb_lt in Hlt.
  unfold queue_ok. simpl. apply Forall_app. split; [done|].
  apply Forall_singleton. right. split; [|split].
  - simpl. intros ->. done.
  - simpl. by eapply findNextPage_no_fragment.
  - left. split; [done|]. eexists. split; [done|]. lia.
Qed.

Lemma list_handler_queue_ok (request : Request) (page : Page) (w : World) :
  1 ≤ page_number request → queue_ok w →
  queue_ok (list_handler input request page w).
Proof.
  intros Hn Hq. unfold list_handler.
  destruct (extractListLinks _ _) as [jsonLinks|] eqn:Hjson; [|done].
  apply extractListLinks_links in Hjson.
  pose proof (recipe_links_fresh (url request) (seenUrls w)
                (recipe_anchor_hrefs page)) as (_ & Hhtml & _).
  fold (findRecipeLinks page (url request) (seenUrls w)) in Hhtml.
  simpl. destruct (findRecipeLinks _ _ _) as [htmlLinks seen]. simpl in Hhtml.
  set (combined := uniq (jsonLinks ++ htmlLinks)).
  assert (Forall (λ u, u ≠ "" ∧ has_char "#" u = false) combined) as Hcombined.
  { apply Forall_forall. intros u Hu. apply uniq_elem_of in Hu as [Hu ?].
    split; [done|]. apply elem_of_app in Hu as [Hu|Hu].
    - by destruct (proj1 (Forall_forall _ _) Hjson u Hu) as (_ & _ & ?).
    - by destruct (proj1 (Forall_forall _ _) Hhtml u Hu) as [_ ?]. }
  match goal with |- context [if ?c then slice0 _ ?r else _] =>
    set (limited := if c then slice0 combined r else combined) end.
  assert (Forall (λ u, u ≠ "" ∧ has_char "#" u = false) limited) as Hlimited.
  { subst limited. destruct (_ <? _); [|done]. unfold slice0.
    destruct (_ <? 0); by apply Forall_take. }
  destruct limited as [|u limited'] eqn:El.
  - by apply paginate_queue_ok.
  - rewrite <- El in *. clear El. destruct (collectDetails input); [|done].
    unfold queue_ok. simpl. apply Forall_app. split; [done|].
    apply Forall_fmap. eapply Forall_impl; [exact Hlimited|].
    intros v [? ?]. right. split; [done|]. split; [done|]. by right.
Qed.

Lemma step_queue_ok (w w' : World) :
  step input site w w' → pages_in_range input w → queue_ok w → queue_ok w'.
Proof.
  intros [c w0 w1 Hstep] (_ & Hqr & Hsr) Hq.
  destruct c as [i|j]; simpl in Hstep.
  - destruct (queue w0 !! i) as [request|] eqn:Hi; [|done].
    simplify_eq/=.
    assert (queue_ok (set_queue (delete i (queue w0)) w0)) as Hq'
      by (by apply Forall_delete).
    pose proof (Forall_lookup_1 _ _ _ _ Hqr Hi) as [Hn _].
    unfold start. destruct (document _ _) as [page|]; [|done].
    unfold requestHandler. destruct (String.eqb _ "LIST").
    { by apply list_handler_queue_ok. }
    destruct (String.eqb _ "DETAIL"); [|done].
    unfold detail_handler. destruct (_ <=? _); [done|].
    by destruct (detail_item _ _ _ _).
  - destruct (suspended w0 !! j) as [k|] eqn:Hj; [|done].
    simplify_eq/=.
    pose proof (Forall_lookup_1 _ _ _ _ Hsr Hj) as Hk.
    destruct k as [request page|pushed request page|]; simpl in *;
      [apply paginate_queue_ok; [by destruct Hk | done] ..| done].
Qed.

(** X21.  What the handlers queue, under any scheduling.  In every world the
    crawl can reach, each queued request is the first request or one a
    handler has queued: with an address that is not empty and has no
    fragment, and either the label LIST and a page number from 2 to
    [MAX_PAGES], or the label DETAIL and no page number. *)
Theorem queued_requests_well_formed (w : World) :
  reachable input site w →
  Forall (λ request, request = first_request ∨ queued_by_handler request) (queue w).
Proof.
  intros Hw. change (queue_ok w).
  cut (pages_in_range input w ∧ queue_ok w); [by intros [_ ?]|].
  revert w Hw. apply rtc_ind_r.
  - split; [apply initial_in_range|]. apply Forall_singleton. by left.
  - intros w w' _ Hstep [Hr Hq]. split.
    + by eapply step_in_range.
    + by eapply step_queue_ok.
Qed.
End Queued.

(** ** Instances on the reference runtime *)

Definition null_entry_list : JsVal :=
  JObj [ ("@type", JStr "ItemList");
         ("itemListElement", JArr [ JNull; JObj [ ("url", JStr tart_url) ] ]) ].

(** An instance of X5's theorem. *)
Lemma extractListLinks_recipe_links_witness :
  let nodes := parseJsonLdScripts (RT := reference_runtime) [tart_item_list] in
  extractListLinks (RT := reference_runtime) nodes list_url = Ok [tart_url]
  ∧ Forall recipe_link_ok [tart_url].
Proof.
  intros nodes.
  assert (extractListLinks (RT := reference_runtime) nodes list_url = Ok [tart_url])
    as Hlinks by (vm_compute; reflexivity).
  split; [exact Hlinks|].
  exact (proj1 (extractListLinks_recipe_links (RT := reference_runtime)
                  nodes list_url [tart_url] Hlinks)).
Defined.

(** An instance of X6's theorem. *)
Lemma extractListLinks_null_entry_witness :
  item_list_node null_entry_list [ JNull; JObj [ ("url", JStr tart_url) ] ]
  ∧ extractListLinks (RT := reference_runtime)
      ([JObj [("@type", JStr "Recipe")]] ++ null_entry_list :: []) list_url
    = Throw.
Proof.
  assert (item_list_node null_entry_list [ JNull; JObj [ ("url", JStr tart_url) ] ])
    as Hnode by (vm_compute; done).
  split; [exact Hnode|].
  apply (extractListLinks_null_entry (RT := reference_runtime) _ _ _ _ _ Hnode).
  apply list_elem_of_here.
Defined.

Definition tart_item : JsVal :=
  JObj [ ("@type", JStr "Recipe"); ("name", JStr "  Lemon   Tart ");
         ("recipeIngredient", JArr [ JStr "flour"; JStr " " ]);
         ("keywords", JStr "dessert, lemon, dessert");
         ("aggregateRating", JObj [ ("ratingValue", JNum "4.5") ]) ].

(** The value of a computation that does not throw. *)
Definition ok_or {A} (d : A) (x : result A) : A :=
  match x with
  | Ok a => a
  | Throw => d
  end.

Definition tart_record : Recipe := ok_or ∅ (recipe_of_item tart_item).


Definition tart_request : Request :=
  {| url := tart_url; label := Some "DETAIL"; pageNo := None |}.

Definition tart_page : Page := recipe_page [] "Lemon Tart" ["flour"] ["Bake."].

Definition tart_detail : Recipe :=
  ok_or ∅ (detail_item (RT := reference_runtime) (crawl_input 10 1 true)
             two_page_site tart_request tart_page).

(** An instance of X13's theorem. *)
Lemma detail_item_fields_witness :
  detail_item (RT := reference_runtime) (crawl_input 10 1 true) two_page_site
    tart_request tart_page = Ok tart_detail
  ∧ dom tart_detail =@{gset string} list_to_set item_keys
  ∧ truthy (field tart_detail "title") = true
  ∧ field tart_detail "url" = JStr tart_url.
Proof.
  assert (detail_item (RT := reference_runtime) (crawl_input 10 1 true)
            two_page_site tart_request tart_page = Ok tart_detail) as Hitem
    by reflexivity.
  pose proof (detail_item_fields (RT := reference_runtime) _ _ _ _ _ Hitem)
    as (Hdom & Htitle & Hurl & _).
  split; [exact Hitem|]. split; [exact Hdom|]. split; [exact Htitle | exact Hurl].
Defined.

Definition merged_tart : Recipe :=
  ok_or ∅ (mergeRecipe (Some structured_tart) (Some markup_tart)).

Lemma title_not_a_list : "title" ∉ list_fields.
Proof. not_a_list_field. Qed.

(** An instance of X14's theorem. *)
Lemma mergeRecipe_keeps_present_witness :
  mergeRecipe (Some structured_tart) (Some markup_tart) = Ok merged_tart
  ∧ truthy (field structured_tart "title") = true
  ∧ merged_tart !! "title" = structured_tart !! "title".
Proof.
  assert (mergeRecipe (Some structured_tart) (Some markup_tart) = Ok merged_tart)
    as Hmerged by reflexivity.
  assert (truthy (field structured_tart "title") = true) as Htitle by reflexivity.
  split; [exact Hmerged|]. split; [exact Htitle|].
  exact (mergeRecipe_keeps_present _ _ _ _ Hmerged title_not_a_list Htitle).
Defined.

(** An instance of X15's theorem: the alternates of the reference site all
    throw. *)
Lemma try_alternates_all_fail_witness :
  Forall (alternate_fails two_page_site) (buildAlternateDetailUrls tart_url)
  ∧ try_alternates (RT := reference_runtime) two_page_site
      (buildAlternateDetailUrls tart_url) structured_tart
    = structured_tart.
Proof.
  assert (Forall (alternate_fails two_page_site) (buildAlternateDetailUrls tart_url))
    as Hfail by (apply Forall_forall; intros u _; exact I).
  split; [exact Hfail|].
  exact (try_alternates_all_fail (RT := reference_runtime) _ _ _ Hfail).
Defined.

(** A site whose alternate addresses answer with another page. *)
Definition answering_site : Site :=
  {| document := λ _, None;
     gotScraping := λ _, AltResponds 200
                           (Some (recipe_page [] "Another Tart" ["sugar"] []));
     now := "2024-12-05T10:30:00.000Z" |}.

(** An instance of X16's theorem. *)
Lemma try_alternates_keeps_present_witness :
  truthy (field structured_tart "title") = true
  ∧ try_alternates (RT := reference_runtime) answering_site
      (buildAlternateDetailUrls tart_url) structured_tart !! "title"
    = structured_tart !! "title".
Proof.
  assert (truthy (field structured_tart "title") = true) as Htitle by reflexivity.
  split; [exact Htitle|].
  exact (try_alternates_keeps_present (RT := reference_runtime) answering_site
           _ _ _ title_not_a_list Htitle).
Defined.

Lemma run_steps {RT : Runtime} (input : Input) (site : Site)
    (schedule : list Choice) (w : World) :
  rtc (step input site) w (run input site schedule w).
Proof.
  unfold run. induction schedule as [|c schedule IH] using rev_ind; [done|].
  rewrite fold_left_app. simpl.
  destruct (step_with _ _ c _) as [w'|] eqn:Hstep; [|done].
  eapply rtc_r; [exact IH|]. by econstructor.
Qed.

(** An instance of X17's theorem: from the world after the first listing
    page to the end of the interleaved run of C3. *)
Lemma crawl_only_grows_witness :
  let input := crawl_input 1 2 true in
  let w := run input two_page_site [Start 0; Resume 0] (initial input) in
  let w' := run input two_page_site overshoot_schedule (initial input) in
  reachable input two_page_site w
  ∧ rtc (step input two_page_site) w w'
  ∧ dataset w `prefix_of` dataset w' ∧ saved w ≤ saved w'.
Proof.
  intros input w w'.
  pose proof (run_reachable input two_page_site [Start 0; Resume 0]) as Hw.
  assert (rtc (step input two_page_site) w w') as Hsteps.
  { unfold w'.
    change overshoot_schedule
      with ([Start 0; Resume 0]
            ++ [Start 1; Resume 0; Start 0; Start 0; Resume 0; Resume 0]).
    rewrite run_app. fold w. apply run_steps. }
  destruct (crawl_only_grows input two_page_site w w' Hw Hsteps)
    as (Hdata & Hsaved & _).
  split; [exact Hw|]. split; [exact Hsteps|]. split; [exact Hdata | exact Hsaved].
Defined.

(** An instance of X19's theorem. *)
Lemma urls_only_mode_witness :
  let input := crawl_input 10 2 false in
  let w := run input two_page_site [Start 0; Resume 0] (initial input) in
  collectDetails input = false
  ∧ reachable input two_page_site w
  ∧ Forall listing_request (queue w)
  ∧ Forall (λ item, ∃ u, item = minimal_record input u) (dataset w).
Proof.
  intros input w.
  pose proof (run_reachable input two_page_site [Start 0; Resume 0]) as Hw.
  split; [reflexivity|]. split; [exact Hw|].
  exact (urls_only_mode input two_page_site eq_refl w Hw).
Defined.

(** An instance of X20's theorem: two detail handlers are suspended after
    their push. *)
Lemma saved_counts_emitted_witness :
  let input := crawl_input 1 2 true in
  let w := run input two_page_site
             [Start 0; Resume 0; Start 1; Resume 0; Start 0; Start 0]
             (initial input) in
  reachable input two_page_site w
  ∧ Z.of_nat (length (dataset w)) = saved w + uncounted_all (suspended w)
  ∧ saved w ≤ Z.of_nat (length (dataset w)).
Proof.
  intros input w.
  pose proof (run_reachable input two_page_site
                [Start 0; Resume 0; Start 1; Resume 0; Start 0; Start 0]) as Hw.
  destruct (saved_counts_emitted input two_page_site w Hw) as (Hn & Hle & _).
  split; [exact Hw|]. split; [exact Hn | exact Hle].
Defined.

(** An instance of X21's theorem. *)
Lemma queued_requests_well_formed_witness :
  let input := crawl_input 10 2 true in
  let w := run input two_page_site [Start 0; Resume 0] (initial input) in
  reachable input two_page_site w
  ∧ Forall (λ request, request = first_request input
                       ∨ queued_by_handler input request) (queue w).
Proof.
  intros input w.
  pose proof (run_reachable input two_page_site [Start 0; Resume 0]) as Hw.
  split; [exact Hw|].
  exact (queued_requests_well_formed input two_page_site w Hw).
Defined.

(** ** The budget when only addresses are collected *)

Section UrlsOnlyBudget.
Context {RT : Runtime} (input : Input) (site : Site).
Hypothesis no_details : collectDetails input = false.

(** At most one listing page is queued or in progress, and what has been
    pushed, counted or not, is within the budget. *)
Definition one_listing (w : World) : Prop :=
  (length (queue w) + length (suspended w) ≤ 1)%nat
  ∧ saved w + uncounted_all (suspended w) ≤ RESULTS_WANTED input.

Lemma paginate_one_listing (request : Request) (page : Page) (w : World) :
  queue w = [] → suspended w = [] → saved w ≤ RESULTS_WANTED input →
  one_listing (paginate input request page w).
Proof.
  intros Hq Hs Hle. split.
  - rewrite paginate_suspended, Hs. unfold paginate. destruct (_ && _);
      [|rewrite Hq; simpl; lia].
    destruct (findNextPage _ _) as [nextUrl|]; [|rewrite Hq; simpl; lia].
    destruct (String.eqb nextUrl ""); rewrite ?Hq; simpl; lia.
  - rewrite paginate_suspended, Hs. simpl.
    assert (saved (paginate input request page w) = saved w) as ->; [|lia].
    unfold paginate. destruct (_ && _); [|done].
    destruct (findNextPage _ _) as [nextUrl|]; [|done].
    by destruct (String.eqb nextUrl "").
Qed.

Lemma list_handler_one_listing (request : Request) (page : Page) (w : World) :
  queue w = [] → suspended w = [] → saved w ≤ RESULTS_WANTED input →
  one_listing (list_handler input request page w).
Proof.
  intros Hq Hs Hle. unfold list_handler.
  destruct (extractListLinks _ _) as [jsonLinks|];
    [|split; simpl; rewrite ?Hq, ?Hs; simpl; lia].
  destruct (findRecipeLinks _ _ _) as [htmlLinks seen]. simpl.
  set (combined := uniq (jsonLinks ++ htmlLinks)).
  set (remaining := RESULTS_WANTED input - saved w).
  set (limited := if remaining <? Z.of_nat (length combined)
                  then slice0 combined remaining else combined).
  assert (Z.of_nat (length limited) ≤ remaining) as Hlim.
  { subst limited. destruct (remaining <? _) eqn:Hcmp.
    - apply slice0_length. subst remaining. lia.
    - lia. }
  destruct limited as [|u limited'] eqn:El.
  - by apply paginate_one_listing.
  - rewrite <- El in *. clear El. rewrite no_details.
    split; simpl; rewrite ?Hq, ?Hs; simpl; [lia|]. subst remaining. lia.
Qed.

Lemma step_one_listing (w w' : World) :
  step input site w w' → urls_only input w → one_listing w → one_listing w'.
Proof.
  intros [c w0 w1 Hstep] (Hlist & Hpush & _) [Hone Hle].
  destruct c as [i|j]; simpl in Hstep.
  - destruct (queue w0) as [|request [|request' rest]] eqn:Hq;
      [done | | simpl in Hone; lia].
    destruct (suspended w0) as [|k ks] eqn:Hs; [|simpl in Hone; lia].
    destruct i as [|i]; [|done]. simplify_eq/=.
    unfold start. destruct (document _ _) as [page|];
      [|split; simpl; rewrite ?Hs; simpl; lia].
    rewrite Forall_singleton in Hlist. unfold listing_request in Hlist.
    unfold requestHandler, request_label. rewrite Hlist. simpl.
    apply list_handler_one_listing; simpl; [done | done | lia].
  - destruct (suspended w0) as [|k [|k' ks]] eqn:Hs;
      [done | | simpl in Hone; lia].
    destruct (queue w0) as [|request rest] eqn:Hq; [|simpl in Hone; lia].
    destruct j as [|j]; [|done]. simplify_eq/=.
    rewrite Forall_singleton in Hpush.
    destruct k as [|pushed request page|]; try done. simpl in *.
    apply paginate_one_listing; simpl; [done | done | lia].
Qed.

(** X22.  When only addresses are collected ([collectDetails] off), the
    budget is kept under any scheduling: at most one listing page is queued
    or in progress at a time, so in every world the crawl can reach the
    dataset holds at most [RESULTS_WANTED] records and [saved] is at most
    [RESULTS_WANTED]. *)
Theorem urls_only_budget_kept (w : World) :
  reachable input site w →
  (length (queue w) + length (suspended w) ≤ 1)%nat
  ∧ Z.of_nat (length (dataset w)) ≤ RESULTS_WANTED input
  ∧ saved w ≤ RESULTS_WANTED input.
Proof.
  intros Hw.
  cut (urls_only input w ∧ accounted w ∧ one_listing w).
  { intros (_ & [Hn Hk] & Hone & Hle). split; [done|].
    apply uncounted_all_nonneg in Hk. lia. }
  revert w Hw. apply rtc_ind_r.
  - split; [|split].
    + split; [by apply Forall_singleton | done].
    + done.
    + split; [simpl; lia|]. simpl. rewrite Z.add_0_r.
      apply RESULTS_WANTED_positive.
  - intros w w' _ Hstep (Hu & Ha & Ho). split; [|split].
    + by eapply step_urls_only.
    + by eapply step_accounted.
    + by eapply step_one_listing.
Qed.
End UrlsOnlyBudget.

(** An instance of X22's theorem. *)
Lemma urls_only_budget_kept_witness :
  let input := crawl_input 1 2 false in
  let w := run input two_page_site [Start 0; Resume 0; Start 0; Resume 0]
             (initial input) in
  collectDetails input = false
  ∧ reachable input two_page_site w
  ∧ Z.of_nat (length (dataset w)) ≤ RESULTS_WANTED input.
Proof.
  intros input w.
  pose proof (run_reachable input two_page_site
                [Start 0; Resume 0; Start 0; Resume 0]) as Hw.
  split; [reflexivity|]. split; [exact Hw|].
  exact (proj1 (proj2 (urls_only_budget_kept input two_page_site eq_refl w Hw))).
Defined.

(** ** The merger on what the extractors give *)

(** The fields of the data model are those of the records the two
    extractors build. *)
Lemma record_fields_of_extractors {RT : Runtime} :
  (∀ item r, recipe_of_item item = Ok r →
     dom r =@{gset string} list_to_set record_fields)
  ∧ (∀ page name, is_Some (parseHtmlRecipe page !! name) → name ∈ record_fields).
Proof.
  split.
  - intros item r. unfold recipe_of_item.
    destruct (collectInstructionLines _) as [instructions|]; [|done].
    cbn [mbind result_bind].
    destruct (author_of _) as [author|]; [|done]. cbn [mbind result_bind].
    intros Hr. apply Ok_inj in Hr. subst r. by rewrite dom_list_to_map_L.
  - intros page name Hname. apply elem_of_dom in Hname.
    unfold parseHtmlRecipe in Hname. rewrite dom_list_to_map_L in Hname.
    cbn [fmap list_fmap fst] in Hname.
    rewrite !elem_of_list_to_set, !elem_of_cons, elem_of_nil in Hname.
    unfold record_fields. rewrite !elem_of_cons.
    repeat (destruct Hname as [->|Hname]; [tauto|]). done.
Qed.

(** A recipe whose metadata lists an ingredient twice, on a page whose
    markup has no ingredient. *)
Definition repeated_ingredient : JsVal :=
  JObj [ ("@type", JStr "Recipe"); ("name", JStr "Lemon Tart");
         ("recipeIngredient", JArr [ JStr "1 cup flour"; JStr "1 cup flour" ]) ].

Definition structured_record : Recipe :=
  ok_or ∅ (recipe_of_item (RT := reference_runtime) repeated_ingredient).

Definition markup_record : Recipe :=
  parseHtmlRecipe (recipe_page [] "Lemon Tart" [] ["Bake."]).

Definition merged_record : Recipe :=
  ok_or ∅ (mergeRecipe (Some structured_record) (Some markup_record)).

(** C1, against the claim.  The two records are the ones the extractors
    build of such a page.  The markup contributes no ingredient, so
    [mergeRecipe] leaves the list of the structured record as it is: the
    result has the ingredient twice, and is not the union without
    repetition. *)
Lemma mergeRecipe_keeps_repeated_text :
  recipe_of_item (RT := reference_runtime) repeated_ingredient = Ok structured_record
  ∧ mergeRecipe (Some structured_record) (Some markup_record) = Ok merged_record
  ∧ strings_of (field structured_record "ingredients") = [ "1 cup flour"; "1 cup flour" ]
  ∧ strings_of (field markup_record "ingredients") = []
  ∧ strings_of (field merged_record "ingredients") = [ "1 cup flour"; "1 cup flour" ]
  ∧ strings_of (field merged_record "ingredients")
    ≠ uniq (strings_of (field structured_record "ingredients")
            ++ strings_of (field markup_record "ingredients")).
Proof.
  split; [reflexivity|]. split; [reflexivity|].
  split; [reflexivity|]. split; [reflexivity|]. split; [reflexivity|].
  vm_compute. discriminate.
Qed.

Definition nameless_author : JsVal :=
  JObj [ ("@type", JStr "Recipe"); ("name", JStr "Lemon Tart");
         ("author", JArr [ JObj [ ("name", JStr "Ann") ]; JNull ]) ].

(** An instance of X9's theorem. *)
Lemma recipe_of_item_throws_witness :
  get nameless_author "author" = JArr [ JObj [ ("name", JStr "Ann") ]; JNull ]
  ∧ recipe_of_item (RT := reference_runtime) nameless_author = Throw.
Proof.
  assert (get nameless_author "author" = JArr [ JObj [ ("name", JStr "Ann") ]; JNull ])
    as Hauthor by reflexivity.
  split; [exact Hauthor|].
  apply (recipe_of_item_throws (RT := reference_runtime) _ _ Hauthor).
  apply list_elem_of_further, list_elem_of_here.
Defined.
